(** * ember-typings-generator: a shallow embedding of [bin/generate.js]

    The generator reads a YUIDoc document, registers every class in a tree
    of namespaces, attaches the member items, resolves [extends] and [uses]
    links ([Klass.postProcess]) and prints TypeScript declarations.

    Modelling conventions.
    - JavaScript strings are [string]s of 8-bit characters; the line
      terminators of a regular expression's [.] are then LF and CR, and the
      white space of [\s] is TAB, LF, VT, FF, CR, SPACE and NBSP.
    - A JavaScript [Map] is an association list in insertion order
      ([Map_get], [Map_set], [Map_has]): [set] on a present key replaces the
      value where it stands, [set] on a fresh key appends.
    - Objects that the program shares by reference ([Klass] instances)
      live in a heap, a [list Klass] addressed by index; a namespace is
      addressed by its path from the root.
    - [console.warn] appends to the [warnings] of the state; a [throw] that
      nothing catches ends the run and is the [Throw] result.
    - The plain objects used as tables ([NAMESPACE_MAP], [RELATIVE_NAMES],
      [RETURN_TYPES]) are read at their own keys; names of members that
      every object inherits ([constructor], [toString], ...) are outside
      the modelled input domain, as are class names holding a
      regular-expression metacharacter (they are pasted unescaped into the
      expression that [partsRegexp] builds). The predicates [plain_name],
      [plain_type], [plain_item] and [plain_state] say what this domain
      is; a theorem that is true of the program on this domain only, one
      that says that a conversion or a copy of a member succeeds, has
      them as hypotheses. *)

From Stdlib Require Import Ascii String Lia.
From stdpp Require Import base option list strings relations.

Open Scope string_scope.
Open Scope list_scope.

(** ** Strings *)

Module Str.

Definition eqb_ascii (a b : ascii) : bool := Ascii.eqb a b.

(** [s.split(c)] for a one-character separator: never the empty list. *)
Fixpoint split (c : ascii) (s : string) : list string :=
  match s with
  | EmptyString => [ "" ]
  | String a s' =>
      if eqb_ascii a c then "" :: split c s'
      else match split c s' with
           | [] => [ String a "" ]
           | p :: ps => String a p :: ps
           end
  end.

(** [l.join(sep)]. *)
Fixpoint join (sep : string) (l : list string) : string :=
  match l with
  | [] => ""
  | [ x ] => x
  | x :: l' => x +:+ sep +:+ join sep l'
  end.

(** [s.indexOf(c) > -1]. *)
Fixpoint has_char (c : ascii) (s : string) : bool :=
  match s with
  | EmptyString => false
  | String a s' => eqb_ascii a c || has_char c s'
  end.

(** [s.split(c)[0]]: the text before the first [c]. *)
Fixpoint before (c : ascii) (s : string) : string :=
  match s with
  | EmptyString => ""
  | String a s' => if eqb_ascii a c then "" else String a (before c s')
  end.

(** [p] is a prefix of [s]: the rest of [s] after it. *)
Fixpoint strip_prefix (p s : string) : option string :=
  match p, s with
  | EmptyString, _ => Some s
  | String a p', String b s' =>
      if eqb_ascii a b then strip_prefix p' s' else None
  | String _ _, EmptyString => None
  end.

(** [s.indexOf(p) > -1]. *)
Fixpoint has_sub (p s : string) : bool :=
  match strip_prefix p s with
  | Some _ => true
  | None => match s with
            | EmptyString => false
            | String _ s' => has_sub p s'
            end
  end.

(** [s.replace(p, '')] with a string pattern: the first occurrence only. *)
Fixpoint remove_first (p s : string) : string :=
  match strip_prefix p s with
  | Some rest => rest
  | None => match s with
            | EmptyString => ""
            | String a s' => String a (remove_first p s')
            end
  end.

(** The last character, [s[s.length-1]]. *)
Fixpoint last (s : string) : option ascii :=
  match s with
  | EmptyString => None
  | String a EmptyString => Some a
  | String _ s' => last s'
  end.

(** [s.slice(0,-1)]. *)
Fixpoint init (s : string) : string :=
  match s with
  | EmptyString => ""
  | String _ EmptyString => ""
  | String a s' => String a (init s')
  end.

(** A string in a condition: only the empty string is falsy. *)
Definition truthy (s : string) : bool :=
  match s with EmptyString => false | _ => true end.

Definition mem (s : string) (l : list string) : bool :=
  existsb (String.eqb s) l.

End Str.

(** [a.slice(0,-1)] and [a[a.length-1]] on an array. *)
Definition slice_init {A} (l : list A) : list A := removelast l.

(** ** Maps in insertion order *)

Section JsMap.
Context {V : Type}.

Fixpoint Map_get (k : string) (m : list (string * V)) : option V :=
  match m with
  | [] => None
  | (k', v) :: m' => if String.eqb k k' then Some v else Map_get k m'
  end.

Fixpoint Map_set (k : string) (v : V) (m : list (string * V))
  : list (string * V) :=
  match m with
  | [] => [ (k, v) ]
  | (k', v') :: m' =>
      if String.eqb k k' then (k, v) :: m' else (k', v') :: Map_set k v m'
  end.

Definition Map_has (k : string) (m : list (string * V)) : bool :=
  match Map_get k m with Some _ => true | None => false end.

End JsMap.

(** ** Namespaces (generate.js, lines 11-58) *)

(** [parent] is the position in the tree; the constructor reads its [name]
    only, for [fullName]. *)
#[warnings="-register-all"]
Inductive Namespace : Type := mkNamespace {
  ns_name : option string;
  ns_root : bool;
  ns_fullName : option string;
  ns_namespaces : list (string * Namespace);
  ns_classes : list (string * nat)
}.

(** An [undefined] element of an array prints as the empty string in
    [join]. *)
Definition or_empty (o : option string) : string := default "" o.

(** [new Namespace(name, parent)], lines 14-27. *)
Definition new_Namespace (name : option string) (parent : option Namespace)
  : Namespace :=
  let named := match name with Some n => Str.truthy n | None => false end in
  {| ns_name := if named then name else None;
     ns_root := negb named;
     ns_fullName :=
       match parent with
       | Some p => Some (Str.join "." [ or_empty name; or_empty (ns_name p) ])
       | None => None
       end;
     ns_namespaces := [];
     ns_classes := [] |}.

(** [Namespace.root = new Namespace()], line 58. *)
Definition Namespace_root : Namespace := new_Namespace None None.

Definition with_namespaces (ns : Namespace) (m : list (string * Namespace))
  : Namespace :=
  {| ns_name := ns_name ns; ns_root := ns_root ns;
     ns_fullName := ns_fullName ns;
     ns_namespaces := m; ns_classes := ns_classes ns |}.

Definition with_classes (ns : Namespace) (m : list (string * nat))
  : Namespace :=
  {| ns_name := ns_name ns; ns_root := ns_root ns;
     ns_fullName := ns_fullName ns;
     ns_namespaces := ns_namespaces ns; ns_classes := m |}.

(** The [parts.forEach] of [Namespace.for], from [parent] on: the tree
    below [parent] after the walk, and the namespace the walk ends in. *)
Fixpoint for_walk (autocreate : bool) (parts : list string)
  (parent : Namespace) : Namespace * option Namespace :=
  match parts with
  | [] => (parent, Some parent)
  | name :: rest =>
      match Map_get name (ns_namespaces parent) with
      | Some child =>
          let (child', found) := for_walk autocreate rest child in
          (with_namespaces parent (Map_set name child' (ns_namespaces parent)),
           found)
      | None =>
          if autocreate then
            let (child', found) :=
              for_walk autocreate rest (new_Namespace (Some name) (Some parent)) in
            (with_namespaces parent
               (Map_set name child' (ns_namespaces parent)),
             found)
          else (parent, None)
      end
  end.

(** The path of the namespace called [name]: the root for a falsy name. *)
Definition path_of (name : string) : list string :=
  if Str.truthy name then Str.split "." name else [].

(** [Namespace.for(name, { autocreate })], lines 29-55. *)
Definition Namespace_for (name : string) (autocreate : bool)
  (root : Namespace) : Namespace * option Namespace :=
  for_walk autocreate (path_of name) root.

(** The namespace at a path, and [namespace.classes.set(k, id)] there. *)
Fixpoint ns_at (path : list string) (ns : Namespace) : option Namespace :=
  match path with
  | [] => Some ns
  | name :: rest =>
      match Map_get name (ns_namespaces ns) with
      | Some child => ns_at rest child
      | None => None
      end
  end.

Fixpoint ns_set_class (path : list string) (k : string) (id : nat)
  (ns : Namespace) : Namespace :=
  match path with
  | [] => with_classes ns (Map_set k id (ns_classes ns))
  | name :: rest =>
      match Map_get name (ns_namespaces ns) with
      | Some child =>
          with_namespaces ns
            (Map_set name (ns_set_class rest k id child) (ns_namespaces ns))
      | None => ns
      end
  end.

(** ** Regular expressions of the program *)

Module Re.

Definition code (a : ascii) : nat := nat_of_ascii a.

(** The characters [.] refuses. *)
Definition is_line_terminator (a : ascii) : bool :=
  Nat.eqb (code a) 10 || Nat.eqb (code a) 13.

(** [\s]. *)
Definition is_space (a : ascii) : bool :=
  let n := code a in
  (Nat.leb 9 n && Nat.leb n 13) || Nat.eqb n 32 || Nat.eqb n 160.

Definition is_upper (a : ascii) : bool :=
  Nat.leb 65 (code a) && Nat.leb (code a) 90.
Definition is_lower (a : ascii) : bool :=
  Nat.leb 97 (code a) && Nat.leb (code a) 122.
Definition is_digit (a : ascii) : bool :=
  Nat.leb 48 (code a) && Nat.leb (code a) 57.

(** [/^[A-Z]/.test(s)]. *)
Definition starts_upper (s : string) : bool :=
  match s with String a _ => is_upper a | EmptyString => false end.

(** [/^[$A-Z_][0-9A-Z_$]*$/i]. *)
Definition ident_start (a : ascii) : bool :=
  is_upper a || is_lower a || Str.eqb_ascii a "$" || Str.eqb_ascii a "_".
Definition ident_part (a : ascii) : bool := ident_start a || is_digit a.
Fixpoint all_chars (p : ascii -> bool) (s : string) : bool :=
  match s with
  | EmptyString => true
  | String a s' => p a && all_chars p s'
  end.
Definition is_identifier (s : string) : bool :=
  match s with
  | String a s' => ident_start a && all_chars ident_part s'
  | EmptyString => false
  end.

(** Within the longest run of characters [.] accepts at the head of [s],
    the split at the last [c]. *)
Fixpoint last_close (c : ascii) (s : string) : option (string * string) :=
  match s with
  | EmptyString => None
  | String a s' =>
      if is_line_terminator a then None
      else match last_close c s' with
           | Some (pre, post) => Some (String a pre, post)
           | None => if Str.eqb_ascii a c then Some ("", s') else None
           end
  end.

(** [(.+)c] at the head of [s], greedy: the capture and what follows [c]. *)
Definition dot_plus_then (c : ascii) (s : string) : option (string * string) :=
  match last_close c s with
  | Some (pre, post) => if Str.truthy pre then Some (pre, post) else None
  | None => None
  end.

(** The leftmost match of [/<(.+)>/] in [s]: the text before the match,
    the capture, the text after the match. *)
Fixpoint generics_match (s : string) : option (string * string * string) :=
  match s with
  | EmptyString => None
  | String a s' =>
      let next :=
        match generics_match s' with
        | Some (pre, inner, post) => Some (String a pre, inner, post)
        | None => None
        end in
      if Str.eqb_ascii a "<" then
        match dot_plus_then ">" s' with
        | Some (inner, post) => Some ("", inner, post)
        | None => next
        end
      else next
  end.

Fixpoint skip_spaces (s : string) : string :=
  match s with
  | String a s' => if is_space a then skip_spaces s' else s
  | EmptyString => ""
  end.

(** [/\s*,\s*/] at the head of [s]: what follows the match. *)
Definition comma_here (s : string) : option string :=
  match skip_spaces s with
  | String a r => if Str.eqb_ascii a "," then Some (skip_spaces r) else None
  | EmptyString => None
  end.

(** [m.replace(/\s*,\s*/, '|')]: the expression has no [g] flag, the
    leftmost match is the only one replaced. *)
Fixpoint replace_comma (s : string) : string :=
  match comma_here s with
  | Some rest => "|" +:+ rest
  | None => match s with
            | EmptyString => ""
            | String a s' => String a (replace_comma s')
            end
  end.

(** [type.match(/^\{(.+)\}/)]: the capture [curlies[1]]. *)
Definition curlies (s : string) : option string :=
  match s with
  | String a s' =>
      if Str.eqb_ascii a "{" then
        match dot_plus_then "}" s' with
        | Some (inner, _) => Some inner
        | None => None
        end
      else None
  | EmptyString => None
  end.

(** The expressions [partsRegexp] builds: literal text, sequence and the
    greedy optional group [( ... )?]. *)
Inductive Regex : Type :=
| Lit (s : string)
| Seq (a b : Regex)
| Opt (a : Regex).

(** Backtracking match at the head of [s]; [k] is the rest of the
    pattern. *)
Fixpoint rmatch {A} (r : Regex) (s : string) (k : string -> option A)
  : option A :=
  match r with
  | Lit l => match Str.strip_prefix l s with
             | Some rest => k rest
             | None => None
             end
  | Seq a b => rmatch a s (fun s' => rmatch b s' k)
  | Opt a => match rmatch a s k with
             | Some x => Some x
             | None => k s
             end
  end.

(** [name.replace(new RegExp('^(' + re + ')'), '')]. *)
Definition strip (r : Regex) (name : string) : string :=
  match rmatch r name Some with
  | Some rest => rest
  | None => name
  end.

End Re.

(** ** The input document (generate.js, lines 478-479)

    The fields the resolution and the declarations read; the texts that only
    the doc comments print ([description], [deprecated],
    [deprecationMessage]) and [extension_for], which feeds the unused
    [mixin] field, are left out. An absent string field that the
    program only tests for truth is the empty string. *)

Record ClassData : Type := mkClassData {
  d_name : string;
  d_extends : option string;
  d_uses : option (list string);
  d_access : option string
}.

Record ParamData : Type := mkParamData {
  pd_name : string;
  pd_type : option string
}.

Record ReturnData : Type := mkReturnData { r_type : option string }.

Record ItemData : Type := mkItemData {
  i_class : string;
  i_name : string;
  i_itemtype : string;
  i_type : option string;
  i_static : bool;
  i_access : option string;
  i_params : option (list ParamData);
  i_return : option ReturnData
}.

(** ** The object model *)

Record ClassItemParam : Type := mkClassItemParam {
  p_name : string;
  p_rest : bool;
  p_type : string
}.

Record ClassItem : Type := mkClassItem {
  ci_data : ItemData;
  ci_name : string;
  ci_klass : nat;
  ci_itemType : string;
  ci_type : string;
  ci_static : bool;
  ci_private : bool;
  ci_params : option (list ClassItemParam);
  ci_returnType : option string
}.

(** An entry of [implements]: a literal type name or a class. *)
Inductive Impl : Type :=
| ImplName (s : string)
| ImplKlass (id : nat).

Record Klass : Type := mkKlass {
  k_data : ClassData;
  k_name : string;
  k_fullName : string;
  k_builtIn : bool;
  k_type : string;
  k_private : bool;
  k_isTrueClass : bool;
  k_implements : option (list Impl);
  k_generics : option string;
  k_items : list (string * ClassItem);
  k_postProcessed : bool;
  k_isNamespace : option bool;
  k_extends : option nat
}.

(** The process-wide state: the namespace tree under [Namespace.root], the
    [Klass] objects, and what [console.warn] printed, oldest first. *)
Record State : Type := mkState {
  root : Namespace;
  heap : list Klass;
  warnings : list string
}.

Definition init_state : State :=
  {| root := Namespace_root; heap := []; warnings := [] |}.

Definition warn (msg : string) (st : State) : State :=
  {| root := root st; heap := heap st; warnings := warnings st ++ [ msg ] |}.

Definition set_root (r : Namespace) (st : State) : State :=
  {| root := r; heap := heap st; warnings := warnings st |}.

Definition set_heap (h : list Klass) (st : State) : State :=
  {| root := root st; heap := h; warnings := warnings st |}.

(** [this.f = v] on the class [id]. *)
Definition update (id : nat) (f : Klass -> Klass) (st : State) : State :=
  match heap st !! id with
  | Some K => set_heap (<[ id := f K ]> (heap st)) st
  | None => st
  end.

(** An array or an object in a condition: truthy when present. *)
Definition present {A} (o : option A) : bool :=
  match o with Some _ => true | None => false end.

(** ** Results: a value, an uncaught [throw], or recursion cut short *)

Inductive Result (A : Type) : Type :=
| Ok (a : A)
| Throw (msg : string)
| OutOfFuel.
Arguments Ok {A} a.
Arguments Throw {A} msg.
Arguments OutOfFuel {A}.

Definition bind {A B} (r : Result A) (f : A -> Result B) : Result B :=
  match r with
  | Ok a => f a
  | Throw m => Throw m
  | OutOfFuel => OutOfFuel
  end.

Notation "x <- r ;; k" := (bind r (fun x => k))
  (at level 100, r at next level, right associativity).

(** [l.map(f)] where [f] may throw. *)
Fixpoint mapR {A B} (f : A -> Result B) (l : list A) : Result (list B) :=
  match l with
  | [] => Ok []
  | x :: l' => y <- f x ;; ys <- mapR f l' ;; Ok (y :: ys)
  end.

(** ** Names (generate.js, lines 61-116) *)

Definition NAMESPACE_MAP : list (string * string) :=
  [ ("RSVP", "Ember.RSVP") ].

Definition RELATIVE_NAMES : list (string * string) :=
  [ ("RSVP.Promise", "Ember.RSVP.Promise") ].

Definition BUILT_IN : list string :=
  [ "Function"; "String"; "Array"; "Object" ].

(** [table[key] || key], every value of the tables being truthy (lines 69,
    109 and 315), for a key that is no name every object inherits
    ([INHERITED] below): at such a key the program reads a function, or
    the prototype, where this gives the key back. *)
Definition lookup_or (table : list (string * string)) (key : string) : string :=
  default key (Map_get key table).

(** [namespaceAndKlassName(fullName)], lines 65-74. *)
Definition namespaceAndKlassName (fullName : string) : string * string :=
  let parts := Str.split "." fullName in
  let namespaceName := Str.join "." (slice_init parts) in
  (lookup_or NAMESPACE_MAP namespaceName, List.last parts "").

(** [partsRegexp(parts)], lines 76-82; [parts.shift()] of an empty array
    is [undefined], which the template prints. The segments stand for
    themselves here: the program pastes them into the text of the
    expression as they are, so that this is its expression for segments
    of letters, digits and underscores ([plain_name] below), and for no
    others. *)
Fixpoint partsRegexp (parts : list string) : Re.Regex :=
  match parts with
  | [] => Re.Seq (Re.Lit "undefined") (Re.Lit ".")
  | [ p ] => Re.Seq (Re.Lit p) (Re.Lit ".")
  | p :: rest => Re.Seq (Re.Seq (Re.Lit p) (Re.Lit ".")) (Re.Opt (partsRegexp rest))
  end.

(** ** Classes: registration and lookup (generate.js, lines 118-177) *)

(** [new Klass(name, data)], lines 119-145. *)
Definition new_Klass (name : string) (data : ClassData) : Klass :=
  let fullName := d_name data in
  let builtIn := Str.mem fullName BUILT_IN in
  let promise := String.eqb fullName "Ember.RSVP.Promise" in
  {| k_data := data;
     k_name := name;
     k_fullName := fullName;
     k_builtIn := builtIn;
     k_type := if builtIn then "interface" else "class";
     k_private := bool_decide (d_access data = Some "private");
     k_isTrueClass :=
       match d_extends data with
       | Some e => if Str.truthy e then true else present (d_uses data)
       | None => present (d_uses data)
       end;
     k_implements := if promise then Some [ ImplName "Promise<T>" ] else None;
     k_generics := if promise then Some "T" else None;
     k_items := [];
     k_postProcessed := false;
     k_isNamespace := None;
     k_extends := None |}.

(** [Klass.create(fullName, data)], lines 147-160: the new class, if any. *)
Definition Klass_create (fullName : string) (data : ClassData) (st : State)
  : State * option nat :=
  let names := namespaceAndKlassName fullName in
  let (root', namespace) := Namespace_for names.1 true (root st) in
  let st := set_root root' st in
  match namespace with
  | None => (st, None)
  | Some ns =>
      if Map_has names.2 (ns_classes ns) then
        (warn ("Class already exists; name=" +:+ fullName) st, None)
      else
        let id := length (heap st) in
        (set_root (ns_set_class (path_of names.1) names.2 id root')
           (set_heap (heap st ++ [ new_Klass names.2 data ]) st),
         Some id)
  end.

(** [Klass.find(fullName, { allowMissingNamespace })], lines 162-177: the
    class, with its address in the heap. An address that a namespace holds
    is that of a class [Klass.create] allocated. *)
Definition Klass_find (st : State) (fullName : string)
  (allowMissingNamespace : bool) : Result (option (nat * Klass)) :=
  let names := namespaceAndKlassName fullName in
  match (Namespace_for names.1 false (root st)).2 with
  | None =>
      if allowMissingNamespace then Ok None
      else Throw ("No namespace found; name=" +:+ fullName)
  | Some ns =>
      Ok (id ← Map_get names.2 (ns_classes ns);
          K ← heap st !! id;
          Some (id, K))
  end.

(** The loop of [relativeName] that looks [name] up under ever shorter
    prefixes of [parts]: the class found first. *)
Fixpoint findLocal (st : State) (name : string) (parts : list string)
  (size : nat) : option Klass :=
  match size with
  | 0 => None
  | S size' =>
      let full := Str.join "." (take size parts) +:+ "." +:+ name in
      match Klass_find st full true with
      | Ok (Some (_, K)) => Some K
      | _ => findLocal st name parts size'
      end
  end.

(** The name after the first step of [relativeName], lines 99-107. *)
Definition absoluteName (st : State) (name base : string) : string :=
  let parts := Str.split "." base in
  if negb (Str.mem name BUILT_IN) && Re.starts_upper name then
    match findLocal st name parts (length parts) with
    | Some K => k_fullName K
    | None => name
    end
  else name.

(** [name] without the namespaces of [base] it starts with, lines
    111-112. *)
Definition relativized (name base : string) : string :=
  Re.strip (partsRegexp (Str.split "." base)) name.

(** [relativeName(name, base)], lines 95-116, for a [base] and names of
    the modelled domain: there the program compiles its expression, and
    reads [RELATIVE_NAMES] at no inherited name. *)
Definition relativeName (st : State) (name base : string) : string :=
  let name := absoluteName st name base in
  match Map_get name RELATIVE_NAMES with
  | Some fixed => fixed
  | None =>
      let relative := relativized name base in
      if Str.mem relative BUILT_IN then name else relative
  end.

(** ** Types (generate.js, lines 275-316) *)

Definition RETURN_TYPES : list (string * string) :=
  [ ("Any", "any"); ("*", "any"); ("Class", "any"); ("Mixed", "any");
    ("Array", "any[]"); ("Tuple", "any[]"); ("Boolean", "boolean");
    ("String", "string"); ("Number", "number"); ("Object", "{}");
    ("Object?", "{}"); ("Hash", "{}"); ("Void", "void");
    ("RSVP.Promise", "RSVP.Promise<any>"); ("Promise", "Promise<any>") ].

(** [type.replace(/<(.+)>/, m => m.replace(/\s*,\s*/,'|'))], line 295. *)
Definition barGenerics (type : string) : string :=
  match Re.generics_match type with
  | Some (pre, inner, post) =>
      pre +:+ Re.replace_comma ("<" +:+ inner +:+ ">") +:+ post
  | None => type
  end.

(** The text [convertType] goes on with after the braces or the first
    word are taken. *)
Definition typeWord (type : string) : string :=
  match Re.curlies type with
  | Some inner => inner
  | None => Str.before " " type
  end.

(** [convertType(type, relativeBase)], lines 293-316, the depth of the
    recursion on the branches of a union bounded by [fuel]. *)
Fixpoint convertType_fuel (fuel : nat) (st : State)
  (type relativeBase : string) : Result string :=
  match fuel with
  | 0 => OutOfFuel
  | S fuel' =>
      let type := typeWord (barGenerics type) in
      if Str.has_char "|" type then
        types <- mapR (fun t => convertType_fuel fuel' st t relativeBase)
                   (Str.split "|" type) ;;
        Ok (Str.join "|" types)
      else
        let type :=
          if Str.truthy relativeBase then relativeName st type relativeBase
          else type in
        Ok (lookup_or RETURN_TYPES type)
  end.

(** Every branch of a union is shorter than the union, so the length of
    the annotation bounds the depth. *)
Definition convertType (st : State) (type relativeBase : string)
  : Result string :=
  convertType_fuel (S (String.length type)) st type relativeBase.

(** ** Members (generate.js, lines 322-476) *)

(** [new ClassItemParam(data, item)], lines 439-461; [fullName] is
    [item.klass.fullName]. *)
Definition new_ClassItemParam (st : State) (fullName : string)
  (data : ParamData) : Result ClassItemParam :=
  let starred := bool_decide (Str.last (pd_name data) = Some "*"%char) in
  let name := if starred then Str.init (pd_name data) else pd_name data in
  let name := if String.eqb name "arguments" then "args" else name in
  let spread :=
    match pd_type data with
    | Some t => Str.truthy t && Str.has_sub "..." t
    | None => false
    end in
  let rawType :=
    if spread then Str.remove_first "..." (default "" (pd_type data))
    else default "" (pd_type data) in
  type <- (if Str.truthy rawType then convertType st rawType fullName
           else Ok "any") ;;
  Ok {| p_name := name; p_rest := starred || spread; p_type := type |}.

(** [new ClassItem(data, klass)], lines 323-351, with [klass] the class [K]
    at [kid]. *)
Definition new_ClassItem (st : State) (data : ItemData) (kid : nat)
  (K : Klass) : Result ClassItem :=
  let itemType :=
    if String.eqb (i_itemtype data) "event" then "method"
    else i_itemtype data in
  type <- (match i_type data with
           | Some t => if Str.truthy t then convertType st t (k_fullName K)
                       else Ok "any"
           | None => Ok "any"
           end) ;;
  params <- (match i_params data with
             | Some ps =>
                 if String.eqb itemType "method" then
                   l <- mapR (new_ClassItemParam st (k_fullName K)) ps ;;
                   Ok (Some l)
                 else
                   Throw ("Not a method but has params; name=" +:+ i_name data
                          +:+ ", type=" +:+ itemType)
             | None => Ok None
             end) ;;
  returnType <- (match i_return data with
                 | Some r =>
                     match r_type r with
                     | Some t =>
                         if Str.truthy t then
                           t' <- convertType st t (k_fullName K) ;; Ok (Some t')
                         else Ok (Some "void")
                     | None => Ok (Some "void")
                     end
                 | None =>
                     if i_static data && String.eqb (i_name data) "create"
                     then Ok (Some (k_name K))
                     else Ok None
                 end) ;;
  Ok {| ci_data := data;
        ci_name := i_name data;
        ci_klass := kid;
        ci_itemType := itemType;
        ci_type := type;
        ci_static := i_static data;
        ci_private := bool_decide (i_access data = Some "private");
        ci_params := params;
        ci_returnType := returnType |}.

(** [get key()], lines 353-358. *)
Definition key (item : ClassItem) : string :=
  (if ci_static item then "static:" else "") +:+ ci_name item.

Definition set_private (b : bool) (item : ClassItem) : ClassItem :=
  {| ci_data := ci_data item; ci_name := ci_name item;
     ci_klass := ci_klass item; ci_itemType := ci_itemType item;
     ci_type := ci_type item; ci_static := ci_static item;
     ci_private := b; ci_params := ci_params item;
     ci_returnType := ci_returnType item |}.

(** [ClassItemParam.toString()], lines 463-475. *)
Definition toString (p : ClassItemParam) : string :=
  if p_rest p then
    let type := Str.before "|" (p_type p) in
    ("..." +:+ p_name p) +:+ ": "
      +:+ ((if String.eqb type "{}" then "any" else type) +:+ "[]")
  else p_name p +:+ ": " +:+ p_type p.

(** [params.indexOf(params.find(p => p.rest))]: the parameters are distinct
    objects, so this is the place of the first rest parameter. *)
Fixpoint restIndex (params : list ClassItemParam) : option nat :=
  match params with
  | [] => None
  | p :: ps => if p_rest p then Some 0 else S <$> restIndex ps
  end.

(** The parameters [buildDeclaration(skipRest)] prints. *)
Definition shownParams (params : list ClassItemParam) (skipRest : bool)
  : list ClassItemParam :=
  if skipRest then List.filter (fun p => negb (p_rest p)) params
  else match restIndex params with
       | Some i => take (S i) params
       | None => params
       end.

(** The text of a declaration of [item] that lists [params]; [K] is the
    class [this.klass]. *)
Definition render (K : Klass) (item : ClassItem)
  (params : list ClassItemParam) : string :=
  let isMethod := String.eqb (ci_itemType item) "method" in
  let qualifier :=
    if bool_decide (k_isNamespace K = Some true) && negb (k_isTrueClass K)
    then (if isMethod then "function " else "var ")
    else if ci_static item then "static "
    else "" in
  let name :=
    if Re.is_identifier (ci_name item) then ci_name item
    else "'" +:+ ci_name item +:+ "'" in
  if isMethod then
    let ret :=
      match ci_returnType item with
      | Some t => if Str.truthy t then ": " +:+ t else ""
      | None => ""
      end in
    qualifier +:+ name +:+ "(" +:+ Str.join ", " (toString <$> params)
      +:+ ")" +:+ ret
  else qualifier +:+ name +:+ ": " +:+ ci_type item.

(** [buildDeclaration(skipRest)], lines 380-421. *)
Definition buildDeclaration (K : Klass) (item : ClassItem) (skipRest : bool)
  : string :=
  render K item (shownParams (default [] (ci_params item)) skipRest).

(** [get declarations()], lines 423-435. *)
Definition declarations (K : Klass) (item : ClassItem) : list string :=
  let lines := [ buildDeclaration K item false ] in
  match ci_params item with
  | Some params =>
      match restIndex params with
      | Some i =>
          if negb (Nat.eqb i (length params - 1))
          then lines ++ [ buildDeclaration K item true ]
          else lines
      | None => lines
      end
  | None => lines
  end.

(** ** Loading the document (generate.js, lines 483-540) *)

Definition IGNORE : list string := [ "Ember.Templates" ].

(** [ignoreItem(name)], lines 487-491. *)
Definition ignoreItem (name : string) : bool :=
  existsb (fun i => String.eqb name i
                    || present (Str.strip_prefix (i +:+ ".") name)) IGNORE.

Definition set_items (m : list (string * ClassItem)) (K : Klass) : Klass :=
  {| k_data := k_data K; k_name := k_name K; k_fullName := k_fullName K;
     k_builtIn := k_builtIn K; k_type := k_type K; k_private := k_private K;
     k_isTrueClass := k_isTrueClass K; k_implements := k_implements K;
     k_generics := k_generics K; k_items := m;
     k_postProcessed := k_postProcessed K; k_isNamespace := k_isNamespace K;
     k_extends := k_extends K |}.

Definition set_postProcessed (K : Klass) : Klass :=
  {| k_data := k_data K; k_name := k_name K; k_fullName := k_fullName K;
     k_builtIn := k_builtIn K; k_type := k_type K; k_private := k_private K;
     k_isTrueClass := k_isTrueClass K; k_implements := k_implements K;
     k_generics := k_generics K; k_items := k_items K;
     k_postProcessed := true; k_isNamespace := k_isNamespace K;
     k_extends := k_extends K |}.

Definition set_isNamespace (b : bool) (K : Klass) : Klass :=
  {| k_data := k_data K; k_name := k_name K; k_fullName := k_fullName K;
     k_builtIn := k_builtIn K; k_type := k_type K; k_private := k_private K;
     k_isTrueClass := k_isTrueClass K; k_implements := k_implements K;
     k_generics := k_generics K; k_items := k_items K;
     k_postProcessed := k_postProcessed K; k_isNamespace := Some b;
     k_extends := k_extends K |}.

Definition set_extends (p : nat) (K : Klass) : Klass :=
  {| k_data := k_data K; k_name := k_name K; k_fullName := k_fullName K;
     k_builtIn := k_builtIn K; k_type := k_type K; k_private := k_private K;
     k_isTrueClass := k_isTrueClass K; k_implements := k_implements K;
     k_generics := k_generics K; k_items := k_items K;
     k_postProcessed := k_postProcessed K; k_isNamespace := k_isNamespace K;
     k_extends := Some p |}.

Definition set_implements (l : list Impl) (K : Klass) : Klass :=
  {| k_data := k_data K; k_name := k_name K; k_fullName := k_fullName K;
     k_builtIn := k_builtIn K; k_type := k_type K; k_private := k_private K;
     k_isTrueClass := k_isTrueClass K; k_implements := Some l;
     k_generics := k_generics K; k_items := k_items K;
     k_postProcessed := k_postProcessed K; k_isNamespace := k_isNamespace K;
     k_extends := k_extends K |}.

(** [klass.items.set(k, item)] on the class at [id]. *)
Definition items_set (id : nat) (k : string) (item : ClassItem) (st : State)
  : State :=
  update id (fun K => set_items (Map_set k item (k_items K)) K) st.

(** The items of the class at [id]. *)
Definition items_of (st : State) (id : nat) : list (string * ClassItem) :=
  match heap st !! id with Some K => k_items K | None => [] end.

(** The loop [for (let name in docs.classes)], one class. *)
Definition registerClass (entry : string * ClassData) (acc : State * list nat)
  : State * list nat :=
  let (st, classes) := acc in
  let (name, data) := entry in
  if ignoreItem name then acc
  else match Klass_create name data st with
       | (st', Some id) => (st', classes ++ [ id ])
       | (st', None) => (st', classes)
       end.

(** The body of [docs.classitems.forEach]. *)
Definition attachItem (data : ItemData) (st : State) : Result State :=
  if ignoreItem (i_class data) then Ok st
  else
    found <- Klass_find st (i_class data) false ;;
    match found with
    | None => Ok (warn ("Klass not found for " +:+ i_class data) st)
    | Some (id, K) =>
        if Str.truthy (i_name data)
           && Str.mem (i_itemtype data) [ "method"; "property"; "event" ]
        then
          item <- new_ClassItem st data id K ;;
          let st :=
            if Map_has (key item) (k_items K)
            then warn ("Duplicate item for klass; klass=" +:+ k_fullName K
                       +:+ ", item=" +:+ key item) st
            else st in
          Ok (items_set id (key item) item st)
        else Ok st
    end.

(** [l.forEach(f)] where [f] changes the state and may throw. *)
Fixpoint forEach {A} (f : A -> State -> Result State) (l : list A)
  (st : State) : Result State :=
  match l with
  | [] => Ok st
  | x :: l' => st' <- f x st ;; forEach f l' st'
  end.

Definition ADDITIONAL_CLASSES : list string :=
  [ "DOMElement"; "Registry"; "Transition"; "Handlebars.SafeString" ].

(** ** Resolution (generate.js, lines 179-232) *)

(** The body of [k.items.forEach] in [postProcess]: the item [i] of a mixin,
    stored there under [name], seen from the class at [id]. *)
Definition mergeItem (id : nat) (entry : string * ClassItem) (st : State)
  : Result State :=
  let (name, i) := entry in
  if ci_private i then Ok st
  else match heap st !! id with
       | None => Ok st
       | Some K =>
           match Map_get name (k_items K) with
           | Some existing =>
               if ci_private existing then
                 Ok (items_set id name (set_private false existing)
                       (warn ("Setting private to false for " +:+ k_fullName K
                              +:+ "#" +:+ name
                              +:+ " since it's required for implementation")
                          st))
               else Ok st
           | None =>
               item <- new_ClassItem st (ci_data i) id K ;;
               Ok (items_set id name item st)
           end
       end.

(** [this.data.uses.map(i => Klass.find(i)).filter(i => i)], line 203. *)
Definition resolveUses (st : State) (uses : list string) : Result (list nat) :=
  found <- mapR (fun i => Klass_find st i false) uses ;;
  Ok (omap (fun o => fst <$> o) found).

(** The blocks of [postProcess()], for the class [K] at [id] whose flag is
    already set; [rec] is [postProcess] itself, called on a parent or a
    mixin. *)
Section Blocks.
Variable rec : nat -> State -> Result State.
Variable id : nat.

(** [if (this.data.extends) { ... }], lines 187-200. *)
Definition extendsBlock (K : Klass) (st : State) : Result State :=
  match d_extends (k_data K) with
  | Some parent =>
      if Str.truthy parent then
        found <- Klass_find st parent false ;;
        match found with
        | Some (pid, _) =>
            let st := update id (set_extends pid) st in
            st <- rec pid st ;;
            match Map_get "static:create" (items_of st pid),
                  heap st !! id with
            | Some parentCreate, Some K' =>
                item <- new_ClassItem st (ci_data parentCreate) id K' ;;
                Ok (items_set id "static:create" item st)
            | _, _ => Ok st
            end
        | None =>
            Ok (warn ("Can't find extended class; child=" +:+ k_fullName K
                      +:+ " parent=" +:+ parent) st)
        end
      else Ok st
  | None => Ok st
  end.

(** [if (this.data.uses) { ... }], lines 202-207. *)
Definition usesBlock (K : Klass) (st : State) : Result State :=
  match d_uses (k_data K) with
  | Some uses =>
      impls <- resolveUses st uses ;;
      match impls with
      | [] => Ok st
      | _ => Ok (update id (set_implements (ImplKlass <$> impls)) st)
      end
  | None => Ok st
  end.

(** The body of [this.implements.forEach], lines 210-230. *)
Definition mergeImpl (k : Impl) (st : State) : Result State :=
  match k with
  | ImplKlass kid =>
      st <- rec kid st ;;
      forEach (mergeItem id) (items_of st kid) st
  | ImplName _ => Ok st
  end.

(** [if (this.implements) { ... }], lines 209-231. *)
Definition implementsBlock (st : State) : Result State :=
  match heap st !! id ≫= k_implements with
  | Some impls => forEach mergeImpl impls st
  | None => Ok st
  end.

(** Lines 182-231. *)
Definition postProcess_body (K : Klass) (st : State) : Result State :=
  let st := update id set_postProcessed st in
  let namespace := (Namespace_for (k_fullName K) false (root st)).2 in
  let st := update id (set_isNamespace (present namespace)) st in
  st <- extendsBlock K st ;;
  st <- usesBlock K st ;;
  implementsBlock st.

End Blocks.

(** [postProcess()] on the class at [id]; [fuel] bounds the depth of the
    calls on parents and mixins. *)
Fixpoint postProcess (fuel : nat) (id : nat) (st : State) : Result State :=
  match fuel with
  | 0 => OutOfFuel
  | S fuel' =>
      match heap st !! id with
      | None => Ok st (* no object at [id], nothing to call *)
      | Some K =>
          if k_postProcessed K then Ok st
          else postProcess_body (postProcess fuel') id K st
      end
  end.

(** The whole load: register the classes, attach the items, add the
    missing classes, resolve every registered class in order. [fuel] is
    handed to each [postProcess]. *)
Definition registerAdditional (klassName : string) (acc : State * list nat)
  : State * list nat :=
  let (st, classes) := acc in
  match Klass_create klassName
          {| d_name := klassName; d_extends := None; d_uses := None;
             d_access := None |} st with
  | (st', Some id) => (st', classes ++ [ id ])
  | (st', None) => (st', classes)
  end.

Definition load (fuel : nat) (classes : list (string * ClassData))
  (classitems : list ItemData) : Result State :=
  let (st, ids) := foldl (fun acc e => registerClass e acc) (init_state, []) classes in
  st <- forEach attachItem classitems st ;;
  let (st, ids) := foldl (fun acc n => registerAdditional n acc) (st, ids)
                     ADDITIONAL_CLASSES in
  forEach (postProcess fuel) ids st.

(** ** Concrete documents *)

Module Doc.

Definition klass (name : string) (extends : option string)
  (uses : option (list string)) : string * ClassData :=
  (name, {| d_name := name; d_extends := extends; d_uses := uses;
            d_access := None |}).

Definition member (class name itemtype : string) (type : option string)
  : ItemData :=
  {| i_class := class; i_name := name; i_itemtype := itemtype;
     i_type := type; i_static := false; i_access := None;
     i_params := None; i_return := None |}.

(** A parent with one public method and a child that extends it. *)
Definition parent_child : Result State :=
  load 8 [ klass "Ember.P" None None; klass "Ember.C" (Some "Ember.P") None ]
    [ member "Ember.P" "foo" "method" None ].

(** A parent with a static factory [create], and its child. *)
Definition create_item : ItemData :=
  {| i_class := "Ember.P"; i_name := "create"; i_itemtype := "method";
     i_type := None; i_static := true; i_access := None;
     i_params := None; i_return := None |}.

Definition factory_loaded : State :=
  let st := (foldl (fun acc e => registerClass e acc) (init_state, [])
               [ klass "Ember.P" None None;
                 klass "Ember.C" (Some "Ember.P") None ]).1 in
  match attachItem create_item st with
  | Ok st' => st'
  | _ => st
  end.

Definition factory_resolved : State :=
  Eval vm_compute in
    match postProcess 3 1 factory_loaded with
    | Ok st => st
    | _ => init_state
    end.

(** A parent that uses its own child and a mixin with a static factory:
    the child is resolved from inside the resolution of the parent. *)
Definition create_late : Result State :=
  load 8 [ klass "P" None (Some [ "C"; "M" ]); klass "C" (Some "P") None;
           klass "M" None None ]
    [ {| i_class := "M"; i_name := "create"; i_itemtype := "method";
         i_type := None; i_static := true; i_access := None;
         i_params := None; i_return := None |} ].

(** Two classes that extend each other. *)
Definition cycle : Result State :=
  load 8 [ klass "A" (Some "B") None; klass "B" (Some "A") None ] [].

Definition cycle_loaded : State :=
  (foldl (fun acc e => registerClass e acc) (init_state, [])
     [ klass "A" (Some "B") None; klass "B" (Some "A") None ]).1.

(** The two classes beside a third, which has a private property and
    nothing to do with them. *)
Definition cycle_beside : State :=
  let st := (foldl (fun acc e => registerClass e acc) (init_state, [])
               [ klass "A" (Some "B") None; klass "B" (Some "A") None;
                 klass "Z" None None ]).1 in
  match attachItem
          {| i_class := "Z"; i_name := "p"; i_itemtype := "property";
             i_type := None; i_static := false; i_access := Some "private";
             i_params := None; i_return := None |} st with
  | Ok st' => st'
  | _ => st
  end.

(** A class whose mixin lives in a namespace nobody registered, and one
    whose mixin is a missing class of the root namespace. *)
Definition uses_missing_namespace : Result State :=
  load 8 [ klass "A" None (Some [ "Missing.Mixin" ]) ] [].

Definition uses_loaded : State :=
  (foldl (fun acc e => registerClass e acc) (init_state, [])
     [ klass "A" None (Some [ "Nope"; "M" ]); klass "M" None None ]).1.

(** Two classes that use each other; the first has a private [foo], the
    second a public one. *)
Definition uses_cycle : Result State :=
  load 8 [ klass "A" None (Some [ "B" ]); klass "B" None (Some [ "A" ]) ]
    [ {| i_class := "A"; i_name := "foo"; i_itemtype := "property";
         i_type := None; i_static := false; i_access := Some "private";
         i_params := None; i_return := None |};
      member "B" "foo" "property" None ].

(** One class, the property [foo] documented twice. *)
Definition one_class : State :=
  (foldl (fun acc e => registerClass e acc) (init_state, [])
     [ klass "A" None None ]).1.
Definition foo_string : ItemData := member "A" "foo" "property" (Some "String").
Definition foo_number : ItemData := member "A" "foo" "property" (Some "Number").

Definition string_item : ClassItem :=
  {| ci_data := foo_string; ci_name := "foo"; ci_klass := 0;
     ci_itemType := "property"; ci_type := "string"; ci_static := false;
     ci_private := false; ci_params := None; ci_returnType := None |}.
Definition number_item : ClassItem :=
  {| ci_data := foo_number; ci_name := "foo"; ci_klass := 0;
     ci_itemType := "property"; ci_type := "number"; ci_static := false;
     ci_private := false; ci_params := None; ci_returnType := None |}.

(** The class once the first [foo] is attached. *)
Definition one_class_foo : State :=
  items_set 0 "foo" string_item one_class.
Definition A_with_foo : Klass :=
  set_items [ ("foo", string_item) ] (new_Klass "A" (klass "A" None None).2).

(** The method [foo(a, b*, c)] of the class [A], as documented and as
    built. *)
Definition foo_abc_data : ItemData :=
  {| i_class := "A"; i_name := "foo"; i_itemtype := "method";
     i_type := None; i_static := false; i_access := None;
     i_params :=
       Some [ {| pd_name := "a"; pd_type := Some "String" |};
              {| pd_name := "b*"; pd_type := Some "Number|String" |};
              {| pd_name := "c"; pd_type := None |} ];
     i_return := None |}.

Definition abc : list ClassItemParam :=
  [ {| p_name := "a"; p_rest := false; p_type := "string" |};
    {| p_name := "b"; p_rest := true; p_type := "number|string" |};
    {| p_name := "c"; p_rest := false; p_type := "any" |} ].

Definition foo_abc : ClassItem :=
  {| ci_data := foo_abc_data; ci_name := "foo";
     ci_klass := 0; ci_itemType := "method"; ci_type := "any";
     ci_static := false; ci_private := false; ci_params := Some abc;
     ci_returnType := None |}.

Definition A : Klass := new_Klass "A" (klass "A" None None).2.

End Doc.

(** ** Properties of states and results *)

(** [t] is an end of [s], as a proposition and as a test. *)
Definition suffix_of (t s : string) : Prop := exists pre, s = pre +:+ t.

Fixpoint is_suffix (t s : string) : bool :=
  String.eqb t s
  || match s with
     | String _ s' => is_suffix t s'
     | EmptyString => false
     end.

(** The assignments of [postProcess] after the first: they leave the
    record, the names and the flag of the class alone. *)
Definition field_ok (f : Klass -> Klass) : Prop :=
  forall K, k_data (f K) = k_data K /\ k_fullName (f K) = k_fullName K
            /\ k_name (f K) = k_name K
            /\ k_postProcessed (f K) = k_postProcessed K.

(** [K'] is [K] some assignments later. *)
Definition entry_ok (K K' : Klass) : Prop :=
  k_data K' = k_data K /\ k_fullName K' = k_fullName K
  /\ k_name K' = k_name K
  /\ (k_postProcessed K = true -> k_postProcessed K' = true).

(** [st'] has the namespaces and the objects of [st], every object with
    its record and names, and every flag that was set. *)
Definition shape (st st' : State) : Prop :=
  root st' = root st
  /\ length (heap st') = length (heap st)
  /\ forall j K, heap st !! j = Some K ->
                 exists K', heap st' !! j = Some K' /\ entry_ok K K'.

(** Every class resolved in [st], [skip] apart, is in [st'] as it was. *)
Definition keeps (skip : option nat) (st st' : State) : Prop :=
  forall j K, skip <> Some j -> heap st !! j = Some K ->
              k_postProcessed K = true -> heap st' !! j = Some K.

(** The record of an item can be built into a [ClassItem]: it has no
    [params], or it is a method or an event. *)
Definition constructible (data : ItemData) : bool :=
  match i_params data with
  | Some _ =>
      String.eqb (if String.eqb (i_itemtype data) "event" then "method"
                  else i_itemtype data) "method"
  | None => true
  end.

(** The classes [postProcess] has not been called on. *)
Definition unresolved (st : State) : nat :=
  length (List.filter (fun K => negb (k_postProcessed K)) (heap st)).

(** An item that can be copied into another class without a word: its
    record builds, and neither the item nor the record is private. *)
Definition quiet_item (item : ClassItem) : bool :=
  constructible (ci_data item) && negb (ci_private item)
  && negb (bool_decide (i_access (ci_data item) = Some "private")).

(** Every member of [K] is such an item. *)
Definition items_quiet (K : Klass) : bool :=
  forallb (fun e => quiet_item e.2) (k_items K).

(** The classes that a call may reach, as a list of addresses. *)
Definition in_group (G : list nat) (j : nat) : bool := existsb (Nat.eqb j) G.

(** The [extends] target of [K], if any, is a registered class of the
    group [G]. *)
Definition extends_in (G : list nat) (st : State) (K : Klass) : bool :=
  match d_extends (k_data K) with
  | Some p =>
      if Str.truthy p then
        match Klass_find st p false with
        | Ok (Some (i, _)) => in_group G i
        | _ => false
        end
      else true
  | None => true
  end.

(** The mixins of [K] are all looked up in namespaces that exist, and
    those that are registered classes are in the group [G]. *)
Definition uses_in (G : list nat) (st : State) (K : Klass) : bool :=
  match d_uses (k_data K) with
  | Some uses =>
      forallb (fun n => match Klass_find st n false with
                        | Ok (Some (i, _)) => in_group G i
                        | Ok None => true
                        | _ => false
                        end) uses
  | None => true
  end.

(** The classes of the [implements] list of [K] are in the group [G]. *)
Definition implements_in (G : list nat) (K : Klass) : bool :=
  match k_implements K with
  | Some l =>
      forallb (fun e => match e with
                        | ImplKlass m => in_group G m
                        | ImplName _ => true
                        end) l
  | None => true
  end.

(** A group of classes in which resolution has nothing to report: the
    group holds the parents and the mixins of its classes, and the members
    of its classes can be copied without a word. The classes outside the
    group are left out of account. *)
Definition calm (G : list nat) (st : State) : bool :=
  forallb (fun j => match heap st !! j with
                    | Some K =>
                        items_quiet K && extends_in G st K
                        && uses_in G st K && implements_in G K
                    | None => true
                    end) G.

(** What a step without a diagnostic is: it returns, says nothing, and
    leaves the group calm in a state of the same shape. *)
Definition calmly (G : list nat) (r : Result State) (st : State) : Prop :=
  exists st', r = Ok st' /\ warnings st' = warnings st
              /\ calm G st' = true /\ shape st st'.

(** ** The modelled input domain *)

(** The names of the members that every object inherits. The program
    reads its tables, plain objects, with [table[key]]: at one of these
    keys it gets a function or an object, not a string. *)
Definition INHERITED : list string :=
  [ "constructor"; "toString"; "toLocaleString"; "valueOf";
    "hasOwnProperty"; "isPrototypeOf"; "propertyIsEnumerable";
    "__proto__"; "__defineGetter__"; "__defineSetter__";
    "__lookupGetter__"; "__lookupSetter__" ].

(** A character that stands for itself in a regular expression. *)
Definition is_word (a : ascii) : bool :=
  Re.is_upper a || Re.is_lower a || Re.is_digit a || Str.eqb_ascii a "_"%char.

(** A segment of a dotted name that [partsRegexp] can paste into its
    expression as it is, and that is no key of the tables but one of
    their own. *)
Definition plain_segment (s : string) : bool :=
  Re.all_chars is_word s && negb (Str.mem s INHERITED).

(** A dotted path of such segments. *)
Definition plain_name (s : string) : bool :=
  forallb plain_segment (Str.split "." s).

(** A type annotation in which no inherited name occurs. *)
Definition plain_type (t : string) : bool :=
  forallb (fun k => negb (Str.has_sub k t)) INHERITED.

Definition plain_opt (o : option string) : bool :=
  match o with Some t => plain_type t | None => true end.

Definition plain_param (p : ParamData) : bool := plain_opt (pd_type p).

(** The record of an item whose annotations are all such. *)
Definition plain_item (data : ItemData) : bool :=
  plain_opt (i_type data)
  && match i_params data with
     | Some ps => forallb plain_param ps
     | None => true
     end
  && match i_return data with
     | Some r => plain_opt (r_type r)
     | None => true
     end.

(** A class whose names, and whose members' annotations, are all such. *)
Definition plain_class (K : Klass) : bool :=
  plain_name (k_fullName K)
  && match d_extends (k_data K) with
     | Some p => plain_name p
     | None => true
     end
  && match d_uses (k_data K) with
     | Some l => forallb plain_name l
     | None => true
     end
  && forallb (fun e => plain_item (ci_data e.2)) (k_items K).

(** A state of the modelled input domain: on its classes the embedding
    does what the program does. *)
Definition plain_state (st : State) : bool := forallb plain_class (heap st).

(** [postProcess] has been called on the class at [a]. *)
Definition resolved (st : State) (a : nat) : Prop :=
  exists K, heap st !! a = Some K /\ k_postProcessed K = true.

(** The class at [a] extends the class at [b]. *)
Definition extends_edge (st : State) (a b : nat) : Prop :=
  exists K p P, heap st !! a = Some K /\ d_extends (k_data K) = Some p
                /\ Str.truthy p = true
                /\ Klass_find st p false = Ok (Some (b, P)).

(** Every resolved class outside [G] has its parent resolved; [G] holds
    the classes whose call is still running. *)
Definition closed_except (G : nat -> Prop) (st : State) : Prop :=
  forall a b, ~ G a -> extends_edge st a b -> resolved st a -> resolved st b.

(** The member stored under [static:create] in the class at [id]. *)
Definition create_of (st : State) (id : nat) : option ClassItem :=
  Map_get "static:create" (items_of st id).

(** How that member may change once the [extends] block is over: a member
    that is there keeps its record and its class, a member that comes
    belongs to the class at [id]. *)
Definition create_evolves (id : nat) (o o' : option ClassItem) : Prop :=
  match o with
  | Some item =>
      exists item', o' = Some item' /\ ci_data item' = ci_data item
                    /\ ci_klass item' = ci_klass item
  | None => forall item', o' = Some item' -> ci_klass item' = id
  end.

(** From [st] to [st'] the class at [id], once resolved, stays resolved
    and its [static:create] changes in that way only. *)
Definition create_kept (id : nat) (st st' : State) : Prop :=
  resolved st id ->
  resolved st' id /\ create_evolves id (create_of st id) (create_of st' id).

(** What the [extends] block leaves alone in the class: the [implements]
    list and every member but [static:create]. *)
Definition others_kept (id : nat) (st st' : State) : Prop :=
  resolved st id ->
  resolved st' id
  /\ heap st' !! id ≫= k_implements = heap st !! id ≫= k_implements
  /\ forall k, k <> "static:create" ->
               Map_get k (items_of st' id) = Map_get k (items_of st id).

(** The mixins of a [uses] list that are registered classes, in order. *)
Definition resolvedUses (st : State) (uses : list string) : list nat :=
  omap (fun n => match Klass_find st n false with
                 | Ok (Some (i, _)) => Some i
                 | _ => None
                 end) uses.

(** From [st] to [st'] the class at [id], once resolved, stays resolved
    and keeps its [implements] list. *)
Definition implements_kept (id : nat) (st st' : State) : Prop :=
  resolved st id ->
  resolved st' id
  /\ heap st' !! id ≫= k_implements = heap st !! id ≫= k_implements.

(** ** Properties of the rest of the program *)

(** [ns'] has every namespace of [ns], under the same path and with the
    same name and classes. *)
Definition tree_kept (ns ns' : Namespace) : Prop :=
  forall q n, ns_at q ns = Some n ->
    exists n', ns_at q ns' = Some n' /\ ns_name n' = ns_name n
               /\ ns_fullName n' = ns_fullName n
               /\ ns_classes n' = ns_classes n.

(** More concrete documents. *)
Module Sample.

(** The method [foo] of the class [A] with the parameters [a] and [b*]:
    the rest parameter is the last one. *)
Definition foo_ab_data : ItemData :=
  {| i_class := "A"; i_name := "foo"; i_itemtype := "method";
     i_type := None; i_static := false; i_access := None;
     i_params :=
       Some [ {| pd_name := "a"; pd_type := Some "String" |};
              {| pd_name := "b*"; pd_type := Some "Number|String" |} ];
     i_return := None |}.

Definition foo_ab : ClassItem :=
  {| ci_data := foo_ab_data; ci_name := "foo";
     ci_klass := 0; ci_itemType := "method"; ci_type := "any";
     ci_static := false; ci_private := false;
     ci_params := Some (take 2 Doc.abc);
     ci_returnType := None |}.

(** A record of the class [A] that is not a method, a property or an
    event, and yet has [params]. *)
Definition stray : ItemData :=
  {| i_class := "A"; i_name := "foo"; i_itemtype := "attribute";
     i_type := None; i_static := false; i_access := None;
     i_params := Some [ {| pd_name := "a"; pd_type := None |} ];
     i_return := None |}.

(** One class, whose [extends] target nobody registered. *)
Definition orphan : State :=
  (foldl (fun acc e => registerClass e acc) (init_state, [])
     [ Doc.klass "A" (Some "Nope") None ]).1.

(** A class that uses a mixin with one method, as loaded and once
    resolved. *)
Definition mixin_loaded : State :=
  let st := (foldl (fun acc e => registerClass e acc) (init_state, [])
               [ Doc.klass "A" None (Some [ "M" ]);
                 Doc.klass "M" None None ]).1 in
  match attachItem (Doc.member "M" "bar" "method" None) st with
  | Ok st' => st'
  | _ => st
  end.

Definition mixin_resolved : State :=
  Eval vm_compute in
    match postProcess 3 0 mixin_loaded with
    | Ok st => st
    | _ => init_state
    end.

(** The state at the end of the load of [Doc.parent_child]. *)
Definition parent_child : State :=
  Eval vm_compute in
    match Doc.parent_child with
    | Ok st => st
    | _ => init_state
    end.

End Sample.

(** From [st] to [st'] the class at [id], once resolved, stays resolved
    and keeps its field [f]. *)
Definition field_kept {A} (f : Klass -> A) (id : nat) (st st' : State)
  : Prop :=
  resolved st id ->
  resolved st' id /\ f <$> heap st' !! id = f <$> heap st !! id.

(** The state a call of [postProcess] on [K] at [id] runs its three
    blocks from: the flag is set and [isNamespace] is assigned. *)
Definition entered (id : nat) (K : Klass) (st : State) : State :=
  let st := update id set_postProcessed st in
  update id
    (set_isNamespace
       (present (Namespace_for (k_fullName K) false (root st)).2)) st.

(** The warning of an [extends] target that is no registered class. *)
Definition missing_parent (K : Klass) (parent : string) : string :=
  "Can't find extended class; child=" +:+ k_fullName K
  +:+ " parent=" +:+ parent.

(** From [st] to [st'] no class loses a member: the keys of before are
    the first keys of after, and a member other than [static:create] is
    the item of before, made public at most. *)
Definition members_kept (st st' : State) : Prop :=
  forall j,
    (items_of st j).*1 `prefix_of` (items_of st' j).*1
    /\ forall k i, Map_get k (items_of st j) = Some i ->
         exists i', Map_get k (items_of st' j) = Some i'
                    /\ (k = "static:create" \/ i' = i
                        \/ i' = set_private false i).

(** The class at [id] has a member for every public member of the class
    at [m]. *)
Definition covers (st : State) (id m : nat) : Prop :=
  forall k i, Map_get k (items_of st m) = Some i -> ci_private i = false ->
              Map_has k (items_of st id) = true.

(** What a step of the [implements] block of the class at [id] does to
    the state. *)
Definition merge_step (id : nat) (st st' : State) : Prop :=
  shape st st' /\ keeps (Some id) st st' /\ members_kept st st'.

(** The item [i] stored under the key [k] in the class at [j] is in its
    place: [k] is its key, the class is its owner, and its name and its
    static mark are those of its record. *)
Definition item_ok (j : nat) (k : string) (i : ClassItem) : Prop :=
  key i = k /\ ci_klass i = j
  /\ ci_static i = i_static (ci_data i) /\ ci_name i = i_name (ci_data i).

(** Every member of every class is in its place. *)
Definition well_keyed (st : State) : Prop :=
  forall j K k i, heap st !! j = Some K -> (k, i) ∈ k_items K -> item_ok j k i.

(** An entry of some class in such a state. *)
Definition entry_keyed (e : string * ClassItem) : Prop :=
  exists j, item_ok j e.1 e.2.

(** Every class that the tree below [ns] holds has an address under
    [bound]. *)
Definition tree_below (bound : nat) (ns : Namespace) : Prop :=
  forall q n k id, ns_at q ns = Some n ->
                   Map_get k (ns_classes n) = Some id -> id < bound.

(** What the loops that register classes keep: every member is in its
    place, every class is in the list of the classes to resolve, and the
    classes of the namespaces are objects of the heap. *)
Definition registered (acc : State * list nat) : Prop :=
  well_keyed acc.1
  /\ (forall j, j < length (heap acc.1) -> j ∈ acc.2)
  /\ tree_below (length (heap acc.1)) (root acc.1).

(** ** Text for the output (generate.js, lines 318-320 and 545-548) *)

Definition newline : ascii := "010"%char.

(** [prefixLines(str, prefix)], lines 545-548. *)
Definition prefixLines (str prefix : string) : string :=
  Str.join (String newline "")
    ((fun l => prefix +:+ l) <$> Str.split newline str).

(** [s.split(p)[0]] for a separator [p] that is not empty: the text before
    the first [p]. *)
Fixpoint before_sub (p s : string) : string :=
  match Str.strip_prefix p s with
  | Some _ => ""
  | None => match s with
            | EmptyString => ""
            | String a s' => String a (before_sub p s')
            end
  end.

(** The run of white space at the head of [s] has a line feed. *)
Fixpoint run_has_newline (s : string) : bool :=
  match s with
  | String a s' =>
      Re.is_space a && (Str.eqb_ascii a newline || run_has_newline s')
  | EmptyString => false
  end.

(** Where [replace(/\s*\n\s*/g, ...)] stands in the text: outside a run
    of white space, in a run that it replaces, or in a run without a line
    feed, which it leaves. *)
Inductive Mode : Type := Outside | Dropping | Keeping.

(** [s.replace(/\s*\n\s*/g, '\n * ')]. At the head of a run of white
    space the first [\s*] takes the run, and gives back what follows the
    last line feed of the run to the second: the match is the whole run
    when the run has a line feed, and there is no match in the run when
    it has none. *)
Fixpoint replace_breaks (mode : Mode) (s : string) : string :=
  match s with
  | EmptyString => ""
  | String a s' =>
      if Re.is_space a then
        match mode with
        | Outside =>
            if run_has_newline s
            then String newline " * " +:+ replace_breaks Dropping s'
            else String a (replace_breaks Keeping s')
        | Dropping => replace_breaks Dropping s'
        | Keeping => String a (replace_breaks Keeping s')
        end
      else String a (replace_breaks Outside s')
  end.

(** [abbreviateDescription(str)], lines 318-320. *)
Definition abbreviateDescription (str : string) : string :=
  replace_breaks Outside
    (before_sub (String newline (String newline "")) str).

(** A line of a comment after the first. *)
Definition starred (line : string) : Prop := exists r, line = " * " +:+ r.

(** ** Facts about maps and strings *)

Section MapFacts.
Context {V : Type}.
Implicit Types (m : list (string * V)) (k : string) (v : V).

Lemma Map_get_set_eq k v m : Map_get k (Map_set k v m) = Some v.
Proof.
  induction m as [|[k' v'] m IH]; simpl.
  - by rewrite String.eqb_refl.
  - destruct (String.eqb k k') eqn:E; simpl; rewrite ?String.eqb_refl, ?E; done.
Qed.

Lemma Map_get_set_ne k k' v m :
  k <> k' -> Map_get k' (Map_set k v m) = Map_get k' m.
Proof.
  intros Hne. induction m as [|[k0 v0] m IH]; simpl.
  - destruct (String.eqb_spec k' k); congruence.
  - destruct (String.eqb_spec k k0) as [->|]; simpl.
    + destruct (String.eqb_spec k' k0); congruence.
    + destruct (String.eqb_spec k' k0); congruence.
Qed.

(** Setting a present key keeps every key where it stands. *)
Lemma Map_set_keys k v m :
  Map_has k m = true -> (Map_set k v m).*1 = m.*1.
Proof.
  unfold Map_has. induction m as [|[k0 v0] m IH]; simpl; [done|].
  destruct (String.eqb_spec k k0) as [->|]; simpl; [done|].
  intros H. f_equal. by apply IH.
Qed.

End MapFacts.

(** ** Namespaces *)

(** C5. A namespace gets as [fullName] its own name, a dot and the name
    of its parent alone, in that order: the child [RSVP] of [Ember] is
    called [RSVP.Ember], not [Ember.RSVP], and [Ember] itself, a child of
    the nameless root, is called [Ember.] with the dot. *)
Theorem Namespace_fullName_child_first :
  (forall name parent,
     ns_fullName (new_Namespace (Some name) (Some parent))
     = Some (Str.join "." [ name; or_empty (ns_name parent) ]))
  /\ ns_fullName <$> (Namespace_for "Ember.RSVP" true Namespace_root).2
     = Some (Some "RSVP.Ember")
  /\ ns_fullName <$> (Namespace_for "Ember" true Namespace_root).2
     = Some (Some "Ember.").
Proof. repeat split. Qed.

(** ** The type converter *)

(** C8. Of the commas between angle brackets only the first becomes a
    bar: [Foo<A,B>] converts to [Foo<A|B>], but [Foo<A,B,C>] converts to
    [Foo<A|B,C>], with its second comma left in. *)
Theorem convertType_leaves_second_comma :
  barGenerics "Foo<A,B,C>" = "Foo<A|B,C>"
  /\ convertType init_state "Foo<A,B,C>" "" = Ok "Foo<A|B,C>"
  /\ convertType init_state "Foo<A,B,C>" "Ember.Bar" = Ok "Foo<A|B,C>"
  /\ convertType init_state "Foo<A,B>" "Ember.Bar" = Ok "Foo<A|B>".
Proof. repeat split. Qed.

Example barGenerics_spaces : barGenerics "Map<K , V>" = "Map<K|V>".
Proof. reflexivity. Qed.

Example barGenerics_outermost :
  barGenerics "A<x>,B<y,z>" = "A<x>|B<y,z>"
  /\ barGenerics "a,b<c>" = "a,b<c>" /\ barGenerics "<>,<a,b>" = "<>|<a,b>".
Proof. repeat split. Qed.

Example typeWord_braces :
  typeWord "{a b} c" = "a b" /\ typeWord "Array of things" = "Array".
Proof. split; reflexivity. Qed.

Example convertType_union :
  convertType init_state "String|Number" "Ember.Foo" = Ok "string|number".
Proof. reflexivity. Qed.

(** ** Relative names *)

Lemma append_cons a s t : String a s +:+ t = String a (s +:+ t).
Proof. reflexivity. Qed.

Lemma suffix_of_refl s : suffix_of s s.
Proof. by exists "". Qed.

Lemma suffix_of_trans r t s : suffix_of r t -> suffix_of t s -> suffix_of r s.
Proof.
  intros [p ->] [q ->]. exists (q +:+ p).
  induction q as [|a q IH]; [done|]. rewrite !append_cons. by f_equal.
Qed.

Lemma suffix_of_is_suffix t s : suffix_of t s -> is_suffix t s = true.
Proof.
  intros [pre ->]. induction pre as [|a pre IH].
  - change ("" +:+ t) with t.
    destruct t; unfold is_suffix; by rewrite String.eqb_refl.
  - rewrite append_cons. simpl. rewrite IH. apply orb_true_r.
Qed.

Lemma strip_prefix_suffix p : forall s r,
  Str.strip_prefix p s = Some r -> suffix_of r s.
Proof.
  induction p as [|a p IH]; intros s r; simpl.
  - intros [= ->]. apply suffix_of_refl.
  - destruct s as [|b s]; [done|].
    destruct (Str.eqb_ascii a b); [|done].
    intros H. destruct (IH _ _ H) as [pre ->]. by exists (String b pre).
Qed.

(** A match consumes a prefix: the continuation runs on a suffix. *)
Lemma rmatch_suffix {A} (r : Re.Regex) : forall s (k : string -> option A) x,
  Re.rmatch r s k = Some x -> exists s', suffix_of s' s /\ k s' = Some x.
Proof.
  induction r as [l|a IHa b IHb|a IHa]; intros s k x; simpl.
  - destruct (Str.strip_prefix l s) as [rest|] eqn:E; [|done].
    intros H. exists rest. split; [by eapply strip_prefix_suffix|done].
  - intros H. apply IHa in H as (s1 & Hs1 & H).
    apply IHb in H as (s2 & Hs2 & H).
    exists s2. split; [by eapply suffix_of_trans|done].
  - destruct (Re.rmatch a s k) as [y|] eqn:E.
    + intros [= ->]. by apply IHa.
    + intros H. exists s. split; [apply suffix_of_refl|done].
Qed.

Lemma relativized_suffix name base : suffix_of (relativized name base) name.
Proof.
  unfold relativized, Re.strip.
  destruct (Re.rmatch _ name Some) as [rest|] eqn:E; [|apply suffix_of_refl].
  apply rmatch_suffix in E as (s' & Hs & [= ->]). done.
Qed.

(** No end of the one name with a fixed spelling is a built-in. *)
Lemma fixed_name_not_built_in name fixed base :
  Map_get name RELATIVE_NAMES = Some fixed ->
  Str.mem (relativized name base) BUILT_IN = false.
Proof.
  simpl. destruct (String.eqb_spec name "RSVP.Promise") as [->|]; [|done].
  intros _. pose proof (relativized_suffix "RSVP.Promise" base) as H.
  apply suffix_of_is_suffix in H. revert H.
  generalize (relativized "RSVP.Promise" base). intros t. simpl.
  rewrite !orb_true_iff.
  intros H. repeat destruct H as [H|H]; try discriminate H;
    apply String.eqb_eq in H; subst; reflexivity.
Qed.

(** C9. From the class [Ember.Foo.Bar] the name [Ember.Foo] is written
    [Foo], when no class found under the namespaces of the base takes the
    place of the name; and when the name without the namespaces of the
    base would be a built-in, the name is left whole. *)
Theorem relativeName_strips_but_spares_built_ins (st : State)
  (name base : string) :
  (name = "Ember.Foo" -> base = "Ember.Foo.Bar" ->
   absoluteName st name base = name ->
   relativeName st name base = "Foo")
  /\ (Str.mem (relativized (absoluteName st name base) base) BUILT_IN = true ->
      relativeName st name base = absoluteName st name base).
Proof.
  split.
  - intros -> -> H. unfold relativeName. rewrite H. reflexivity.
  - intros H. unfold relativeName.
    destruct (Map_get _ RELATIVE_NAMES) as [fixed|] eqn:E.
    + eapply fixed_name_not_built_in in E. rewrite E in H. done.
    + by rewrite H.
Qed.

Lemma relativeName_strips_but_spares_built_ins_witness :
  relativeName init_state "Ember.Foo" "Ember.Foo.Bar" = "Foo"
  /\ relativeName init_state "Ember.String" "Ember.Foo.Bar" = "Ember.String".
Proof.
  split.
  - apply (proj1 (relativeName_strips_but_spares_built_ins
                    init_state "Ember.Foo" "Ember.Foo.Bar")); reflexivity.
  - apply (proj2 (relativeName_strips_but_spares_built_ins
                    init_state "Ember.String" "Ember.Foo.Bar")). reflexivity.
Defined.

(** ** Declarations *)

Lemma restIndex_Some params i :
  restIndex params = Some i ->
  exists p, params !! i = Some p /\ p_rest p = true
            /\ Forall (fun q => p_rest q = false) (take i params).
Proof.
  revert i. induction params as [|q params IH]; intros i; simpl; [done|].
  destruct (p_rest q) eqn:Hq.
  - intros [= <-]. exists q. by repeat split.
  - destruct (restIndex params) as [j|]; simpl; [|done].
    intros [= <-]. destruct (IH j eq_refl) as (p & Hp & Hr & Hall).
    exists p. repeat split; [done..|]. simpl. by constructor.
Qed.

(** The first rest parameter stands at or before any rest parameter. *)
Lemma restIndex_le params j p :
  params !! j = Some p -> p_rest p = true ->
  exists i, restIndex params = Some i /\ i <= j.
Proof.
  revert j. induction params as [|q params IH]; intros j; simpl; [done|].
  destruct (p_rest q) eqn:Hq.
  - intros _ _. exists 0. split; [done|lia].
  - destruct j as [|j]; simpl.
    + intros [= ->]. congruence.
    + intros Hj Hp. destruct (IH j Hj Hp) as (i & -> & Hle).
      exists (S i). split; [done|lia].
Qed.

(** C3. A method with a rest parameter that is not its last parameter
    gets exactly two declarations. The first lists the parameters up to
    and including the first rest parameter, which prints as an array of
    the first type of its union ([any] standing in for [{}]). The second
    lists every parameter that is not a rest parameter, those after the
    rest parameter included. *)
Theorem declarations_rest_in_the_middle (K : Klass) (item : ClassItem)
  (params : list ClassItemParam) (j : nat) (r : ClassItemParam) :
  ci_itemType item = "method" ->
  ci_params item = Some params ->
  params !! j = Some r -> p_rest r = true -> S j < length params ->
  exists i p,
    restIndex params = Some i /\ params !! i = Some p /\ p_rest p = true
    /\ Forall (fun q => p_rest q = false) (take i params)
    /\ declarations K item
       = [ render K item (take i params ++ [ p ]);
           render K item (List.filter (fun q => negb (p_rest q)) params) ]
    /\ toString p
       = ("..." +:+ p_name p) +:+ ": "
         +:+ ((if String.eqb (Str.before "|" (p_type p)) "{}" then "any"
               else Str.before "|" (p_type p)) +:+ "[]").
Proof.
  intros Hm Hp Hj Hr Hlen.
  destruct (restIndex_le _ _ _ Hj Hr) as (i & Hi & Hle).
  destruct (restIndex_Some _ _ Hi) as (p & Hpi & Hpr & Hall).
  exists i, p. repeat split; [done..| |by unfold toString; rewrite Hpr].
  assert (shownParams params false = take i params ++ [ p ]) as Hshown.
  { unfold shownParams. rewrite Hi. by apply take_S_r. }
  unfold declarations, buildDeclaration. rewrite Hp, Hi.
  change (default [] (Some params)) with params. rewrite Hshown.
  destruct (Nat.eqb_spec i (length params - 1)); [lia|]. done.
Qed.

Lemma declarations_rest_in_the_middle_witness :
  exists i p,
    restIndex Doc.abc = Some i /\ Doc.abc !! i = Some p /\ p_rest p = true
    /\ Forall (fun q => p_rest q = false) (take i Doc.abc)
    /\ declarations Doc.A Doc.foo_abc
       = [ render Doc.A Doc.foo_abc (take i Doc.abc ++ [ p ]);
           render Doc.A Doc.foo_abc
             (List.filter (fun q => negb (p_rest q)) Doc.abc) ]
    /\ toString p
       = ("..." +:+ p_name p) +:+ ": "
         +:+ ((if String.eqb (Str.before "|" (p_type p)) "{}" then "any"
               else Str.before "|" (p_type p)) +:+ "[]").
Proof.
  apply (declarations_rest_in_the_middle Doc.A Doc.foo_abc Doc.abc 1
           {| p_name := "b"; p_rest := true; p_type := "number|string" |});
    [reflexivity | reflexivity | reflexivity | reflexivity | simpl; lia].
Defined.

(** For [foo(a, b*, c)] the second declaration is [foo(a: string, c: any)]:
    it keeps [c], which follows the rest parameter. *)
Lemma declarations_keep_params_after_rest :
  declarations Doc.A Doc.foo_abc
  = [ "foo(a: string, ...b: number[])"; "foo(a: string, c: any)" ]
  /\ declarations Doc.A Doc.foo_abc !! 1
     <> Some (render Doc.A Doc.foo_abc (take 1 Doc.abc)).
Proof. split; [reflexivity|]. vm_compute. discriminate. Qed.

Example new_ClassItem_foo_abc :
  new_ClassItem Doc.one_class Doc.foo_abc_data 0 Doc.A = Ok Doc.foo_abc.
Proof. reflexivity. Qed.

(** A rest parameter of the empty structural type prints as [any[]]. *)
Example toString_rest_object :
  toString {| p_name := "o"; p_rest := true; p_type := "{}" |} = "...o: any[]".
Proof. reflexivity. Qed.

(** ** Attaching the items *)

Lemma Klass_find_heap st name allow id K :
  Klass_find st name allow = Ok (Some (id, K)) -> heap st !! id = Some K.
Proof.
  unfold Klass_find.
  destruct (Namespace_for _ _ _).2 as [ns|]; [|by destruct allow].
  intros [= H]. destruct (Map_get _ _) as [id'|]; simpl in H; [|done].
  destruct (heap st !! id') as [K'|] eqn:E; simpl in H; [|done].
  by simplify_eq.
Qed.

Lemma items_of_items_set st id k item K :
  heap st !! id = Some K ->
  items_of (items_set id k item st) id = Map_set k item (k_items K).
Proof.
  intros H. unfold items_of, items_set, update. rewrite H. simpl.
  rewrite list_lookup_insert_eq; [done|]. by eapply lookup_lt_Some.
Qed.

(** C2. When an item arrives whose key the class already holds, a warning
    is recorded and the new item takes the place of the old one under that
    key; the keys of the map and their order stay as they were. *)
Theorem attachItem_duplicate_replaces (st : State) (data : ItemData)
  (id : nat) (K : Klass) (item old : ClassItem) :
  ignoreItem (i_class data) = false ->
  Klass_find st (i_class data) false = Ok (Some (id, K)) ->
  Str.truthy (i_name data) = true ->
  Str.mem (i_itemtype data) [ "method"; "property"; "event" ] = true ->
  new_ClassItem st data id K = Ok item ->
  Map_get (key item) (k_items K) = Some old ->
  exists st',
    attachItem data st = Ok st'
    /\ Map_get (key item) (items_of st' id) = Some item
    /\ (items_of st' id).*1 = (k_items K).*1
    /\ warnings st'
       = warnings st ++ [ "Duplicate item for klass; klass=" +:+ k_fullName K
                          +:+ ", item=" +:+ key item ].
Proof.
  intros Hign Hfind Hname Htype Hnew Hold.
  pose proof (Klass_find_heap _ _ _ _ _ Hfind) as Hheap.
  unfold attachItem, bind. rewrite Hign, Hfind, Hname, Htype, Hnew.
  cbn [andb]. unfold Map_has. rewrite Hold.
  eexists. split; [reflexivity|].
  rewrite (items_of_items_set _ _ _ _ K) by exact Hheap.
  split; [apply Map_get_set_eq|]. split.
  - apply Map_set_keys. unfold Map_has. by rewrite Hold.
  - unfold items_set, update. simpl. rewrite Hheap. done.
Qed.

Lemma attachItem_duplicate_replaces_witness :
  exists st',
    attachItem Doc.foo_number Doc.one_class_foo = Ok st'
    /\ Map_get "foo" (items_of st' 0) = Some Doc.number_item
    /\ (items_of st' 0).*1 = [ "foo" ]
    /\ warnings st' = [ "Duplicate item for klass; klass=A, item=foo" ].
Proof.
  apply (attachItem_duplicate_replaces Doc.one_class_foo Doc.foo_number 0
           Doc.A_with_foo Doc.number_item Doc.string_item);
    reflexivity.
Defined.

(** The property [foo] documented as a string and then as a number: the
    class ends up with the number, the second item. *)
Lemma attachItem_second_item_wins :
  (st1 <- attachItem Doc.foo_string Doc.one_class ;;
   st2 <- attachItem Doc.foo_number st1 ;;
   Ok (ci_type <$> Map_get "foo" (items_of st1 0),
       ci_type <$> Map_get "foo" (items_of st2 0),
       warnings st2))
  = Ok (Some "string", Some "number",
        [ "Duplicate item for klass; klass=A, item=foo" ]).
Proof. reflexivity. Qed.

Example attachItem_first_foo :
  attachItem Doc.foo_string Doc.one_class = Ok Doc.one_class_foo.
Proof. reflexivity. Qed.

(** ** Resolution: what a call leaves alone *)

Lemma root_update id f st : root (update id f st) = root st.
Proof. unfold update. by destruct (heap st !! id). Qed.

Lemma warnings_update id f st : warnings (update id f st) = warnings st.
Proof. unfold update. by destruct (heap st !! id). Qed.

Lemma heap_update_eq id f st K :
  heap st !! id = Some K -> heap (update id f st) !! id = Some (f K).
Proof.
  intros H. unfold update. rewrite H. simpl.
  apply list_lookup_insert_eq. by eapply lookup_lt_Some.
Qed.

Lemma heap_update_ne id j f st :
  j <> id -> heap (update id f st) !! j = heap st !! j.
Proof.
  intros H. unfold update. destruct (heap st !! id); [|done]. simpl.
  by apply list_lookup_insert_ne.
Qed.

Lemma heap_update id j f st :
  heap (update id f st) !! j
  = if decide (j = id) then f <$> heap st !! j else heap st !! j.
Proof.
  destruct (decide (j = id)) as [->|Hne].
  - destruct (heap st !! id) as [K|] eqn:E.
    + by rewrite (heap_update_eq _ _ _ _ E).
    + unfold update. by rewrite E.
  - by apply heap_update_ne.
Qed.

Lemma length_heap_update id f st :
  length (heap (update id f st)) = length (heap st).
Proof.
  unfold update. destruct (heap st !! id); [|done]. simpl. apply length_insert.
Qed.

Lemma entry_ok_refl K : entry_ok K K.
Proof. by repeat split. Qed.

Lemma entry_ok_trans K1 K2 K3 : entry_ok K1 K2 -> entry_ok K2 K3 -> entry_ok K1 K3.
Proof.
  intros (?&?&?&?) (?&?&?&?). repeat split; try congruence. auto.
Qed.

Lemma shape_refl st : shape st st.
Proof.
  repeat split. intros j K H. exists K. split; [done|apply entry_ok_refl].
Qed.

Lemma shape_trans st1 st2 st3 : shape st1 st2 -> shape st2 st3 -> shape st1 st3.
Proof.
  intros (Hr1 & Hl1 & H1) (Hr2 & Hl2 & H2). repeat split; [congruence..|].
  intros j K HK. destruct (H1 _ _ HK) as (K2 & HK2 & Hok2).
  destruct (H2 _ _ HK2) as (K3 & HK3 & Hok3).
  exists K3. split; [done|by eapply entry_ok_trans].
Qed.

Lemma keeps_refl skip st : keeps skip st st.
Proof. by intros j K _ H _. Qed.

Lemma keeps_trans skip st1 st2 st3 :
  keeps skip st1 st2 -> keeps skip st2 st3 -> keeps skip st1 st3.
Proof. intros H1 H2 j K Hs HK Hf. eapply H2; eauto. Qed.

Lemma keeps_weaken skip st st' : keeps None st st' -> keeps skip st st'.
Proof. intros H j K _. by apply H. Qed.

Lemma shape_update_entry id f st :
  (forall K, entry_ok K (f K)) -> shape st (update id f st).
Proof.
  intros Hf. split; [apply root_update|]. split; [apply length_heap_update|].
  intros j K HK. rewrite heap_update. destruct (decide (j = id)) as [->|].
  - rewrite HK. exists (f K). split; [done|]. apply Hf.
  - exists K. split; [done|apply entry_ok_refl].
Qed.

Lemma shape_update id f st : field_ok f -> shape st (update id f st).
Proof.
  intros Hf. apply shape_update_entry. intros K.
  destruct (Hf K) as (?&?&?&Hflag). repeat split; [done..|]. by rewrite Hflag.
Qed.

Lemma shape_set_postProcessed id st : shape st (update id set_postProcessed st).
Proof. apply shape_update_entry. by intros K. Qed.

Lemma keeps_update id f st : keeps (Some id) st (update id f st).
Proof.
  intros j K Hs HK _. rewrite heap_update_ne; [done|congruence].
Qed.

Lemma shape_warn msg st : shape st (warn msg st).
Proof. exact (shape_refl st). Qed.

Lemma keeps_warn skip msg st : keeps skip st (warn msg st).
Proof. exact (keeps_refl skip st). Qed.

Lemma field_ok_set_isNamespace b : field_ok (set_isNamespace b).
Proof. by intros K. Qed.
Lemma field_ok_set_extends p : field_ok (set_extends p).
Proof. by intros K. Qed.
Lemma field_ok_set_implements l : field_ok (set_implements l).
Proof. by intros K. Qed.
Lemma field_ok_set_items f : field_ok (fun K => set_items (f K) K).
Proof. by intros K. Qed.

(** One pass over the blocks of [postProcess], for any relation on states
    that every step of the body respects: the assignments to the class
    itself, each in the circumstances it is made in, the warnings, and the
    calls on other classes. *)
Section Pass.
Variable rec : nat -> State -> Result State.
Variable id : nat.
Variable R : State -> State -> Prop.
Hypothesis R_refl : forall st, R st st.
Hypothesis R_trans : forall st1 st2 st3, R st1 st2 -> R st2 st3 -> R st1 st3.
Hypothesis R_warn : forall st msg, R st (warn msg st).
Hypothesis R_rec : forall x st st', rec x st = Ok st' -> R st st'.
Hypothesis R_isNamespace : forall st b, R st (update id (set_isNamespace b) st).
Hypothesis R_extends : forall st pid, R st (update id (set_extends pid) st).
Hypothesis R_implements : forall st l, R st (update id (set_implements l) st).
Hypothesis R_create : forall st K data item,
  heap st !! id = Some K -> new_ClassItem st data id K = Ok item ->
  R st (items_set id "static:create" item st).
Hypothesis R_add : forall st K name data item,
  heap st !! id = Some K -> Map_get name (k_items K) = None ->
  new_ClassItem st data id K = Ok item ->
  R st (items_set id name item st).
Hypothesis R_public : forall st K name existing,
  heap st !! id = Some K -> Map_get name (k_items K) = Some existing ->
  ci_private existing = true ->
  R st (items_set id name (set_private false existing) st).

Lemma forEach_pass {A} (f : A -> State -> Result State) (l : list A) :
  (forall x st st', f x st = Ok st' -> R st st') ->
  forall st st', forEach f l st = Ok st' -> R st st'.
Proof.
  intros Hf. induction l as [|x l IH]; intros st st'; simpl.
  - intros [= ->]. apply R_refl.
  - destruct (f x st) as [st1| |] eqn:E; simpl; [|done..].
    intros H. eapply R_trans; [by eapply Hf|by apply IH].
Qed.

Lemma mergeItem_pass entry st st' :
  mergeItem id entry st = Ok st' -> R st st'.
Proof.
  destruct entry as [name i]. unfold mergeItem.
  destruct (ci_private i); [intros [= ->]; apply R_refl|].
  destruct (heap st !! id) as [K|] eqn:HK; [|intros [= ->]; apply R_refl].
  destruct (Map_get name (k_items K)) as [existing|] eqn:Hget.
  - destruct (ci_private existing) eqn:Hp; intros [= <-]; [|apply R_refl].
    eapply R_trans; [apply R_warn|]. by eapply R_public.
  - destruct (new_ClassItem _ _ _ _) as [item| |] eqn:Hnew; simpl; [|done..].
    intros [= <-]. by eapply R_add.
Qed.

Lemma mergeImpl_pass k st st' : mergeImpl rec id k st = Ok st' -> R st st'.
Proof.
  destruct k as [s|kid]; simpl; [intros [= ->]; apply R_refl|].
  destruct (rec kid st) as [st1| |] eqn:E; simpl; [|done..].
  intros H. eapply R_trans; [by eapply R_rec|].
  eapply forEach_pass; [|done]. apply mergeItem_pass.
Qed.

Lemma implementsBlock_pass st st' :
  implementsBlock rec id st = Ok st' -> R st st'.
Proof.
  unfold implementsBlock.
  destruct (heap st !! id ≫= k_implements) as [impls|];
    [|intros [= ->]; apply R_refl].
  apply forEach_pass, mergeImpl_pass.
Qed.

Lemma usesBlock_pass K st st' : usesBlock id K st = Ok st' -> R st st'.
Proof.
  unfold usesBlock.
  destruct (d_uses (k_data K)) as [uses|]; [|intros [= ->]; apply R_refl].
  destruct (resolveUses st uses) as [impls| |]; simpl; [|done..].
  destruct impls; intros [= <-]; [apply R_refl|]. apply R_implements.
Qed.

Lemma extendsBlock_pass K st st' :
  extendsBlock rec id K st = Ok st' -> R st st'.
Proof.
  unfold extendsBlock.
  destruct (d_extends (k_data K)) as [parent|]; [|intros [= ->]; apply R_refl].
  destruct (Str.truthy parent); [|intros [= ->]; apply R_refl].
  destruct (Klass_find st parent false) as [[[pid P]|]| |]; simpl; [| |done..].
  - destruct (rec pid _) as [st1| |] eqn:E; simpl; [|done..].
    intros H. eapply R_trans; [apply R_extends|].
    eapply R_trans; [by eapply R_rec|].
    destruct (Map_get _ _) as [parentCreate|]; [|by injection H as ->].
    destruct (heap st1 !! id) as [K'|] eqn:HK'; [|by injection H as ->].
    destruct (new_ClassItem _ _ _ _) as [item| |] eqn:Hnew; simpl in H;
      [|done..].
    injection H as <-. by eapply R_create.
  - intros [= <-]. apply R_warn.
Qed.

(** The flag is set first; the rest of the body then runs from there. *)
Lemma postProcess_body_pass K st st' :
  postProcess_body rec id K st = Ok st' ->
  R (update id set_postProcessed st) st'.
Proof.
  unfold postProcess_body.
  destruct (extendsBlock _ _ _ _) as [st1| |] eqn:E1; simpl; [|done..].
  destruct (usesBlock _ _ _) as [st2| |] eqn:E2; simpl; [|done..].
  intros H3.
  eapply R_trans; [apply R_isNamespace|].
  eapply R_trans; [by eapply extendsBlock_pass|].
  eapply R_trans; [by eapply usesBlock_pass|].
  by eapply implementsBlock_pass.
Qed.

End Pass.

(** The steps of the body, for a relation that holds of every assignment
    that leaves the record, the names and the flag alone. *)
Ltac pass_steps Hupdate :=
  first
    [ intros; unfold items_set; apply Hupdate;
      first [ apply field_ok_set_isNamespace | apply field_ok_set_extends
            | apply field_ok_set_implements | apply field_ok_set_items ]
    | eauto ].

Lemma postProcess_unfold fuel id st K :
  heap st !! id = Some K -> k_postProcessed K = false ->
  postProcess (S fuel) id st = postProcess_body (postProcess fuel) id K st.
Proof. intros H1 H2. simpl. by rewrite H1, H2. Qed.

Lemma postProcess_resolved fuel id st K :
  heap st !! id = Some K -> k_postProcessed K = true ->
  postProcess (S fuel) id st = Ok st.
Proof. intros H1 H2. simpl. by rewrite H1, H2. Qed.

Lemma shape_keeps_update id st f :
  field_ok f -> shape st (update id f st) /\ keeps (Some id) st (update id f st).
Proof. intros Hf. split; [by apply shape_update|apply keeps_update]. Qed.

Lemma shape_assign id st f : field_ok f -> shape st (update id f st).
Proof. apply shape_update. Qed.

(** A call keeps the shape of the state and every class that was resolved
    when it began. *)
Lemma postProcess_frames fuel : forall id st st',
  postProcess fuel id st = Ok st' -> shape st st' /\ keeps None st st'.
Proof.
  induction fuel as [|fuel IH]; intros id st st'; [done|].
  destruct (heap st !! id) as [K|] eqn:HK;
    [|simpl; rewrite HK; intros [= ->]; split; [apply shape_refl|apply keeps_refl]].
  destruct (k_postProcessed K) eqn:Hflag.
  { rewrite (postProcess_resolved _ _ _ _ HK Hflag). intros [= ->].
    split; [apply shape_refl|apply keeps_refl]. }
  rewrite (postProcess_unfold _ _ _ _ HK Hflag). intros H.
  apply (postProcess_body_pass _ id
           (fun s s' => shape s s' /\ keeps (Some id) s s')) in H.
  - destruct H as [Hs Hk].
    assert (keeps (Some id) st st') as Hk'.
    { eapply keeps_trans; [apply keeps_update|done]. }
    split.
    + eapply shape_trans; [apply shape_set_postProcessed|done].
    + intros j Kj _ Hj Hf. apply Hk'; [|done..].
      intros [= <-]. congruence.
  - intros s. split; [apply shape_refl|apply keeps_refl].
  - intros s1 s2 s3 [? ?] [? ?].
    split; [by eapply shape_trans|by eapply keeps_trans].
  - intros s msg. split; [apply shape_warn|apply keeps_warn].
  - intros x s s' Hx. apply IH in Hx as [? ?].
    split; [done|by apply keeps_weaken].
  - pass_steps (shape_keeps_update id).
  - pass_steps (shape_keeps_update id).
  - pass_steps (shape_keeps_update id).
  - pass_steps (shape_keeps_update id).
  - pass_steps (shape_keeps_update id).
  - pass_steps (shape_keeps_update id).
Qed.

(** The class a call returns from is resolved. *)
Lemma postProcess_flags fuel id st st' K :
  postProcess fuel id st = Ok st' -> heap st !! id = Some K ->
  exists K', heap st' !! id = Some K' /\ k_postProcessed K' = true.
Proof.
  destruct fuel as [|fuel]; [done|]. intros H HK.
  destruct (k_postProcessed K) eqn:Hflag.
  { rewrite (postProcess_resolved _ _ _ _ HK Hflag) in H.
    injection H as <-. by exists K. }
  rewrite (postProcess_unfold _ _ _ _ HK Hflag) in H.
  apply (postProcess_body_pass _ id shape) in H.
  - destruct H as (_ & _ & H).
    destruct (H id (set_postProcessed K)) as (K' & HK' & Hok).
    { by apply heap_update_eq. }
    exists K'. split; [done|]. by apply Hok.
  - apply shape_refl.
  - apply shape_trans.
  - intros. apply shape_warn.
  - intros x s s' Hx. by apply postProcess_frames in Hx as [? _].
  - pass_steps (shape_assign id).
  - pass_steps (shape_assign id).
  - pass_steps (shape_assign id).
  - pass_steps (shape_assign id).
  - pass_steps (shape_assign id).
  - pass_steps (shape_assign id).
Qed.

(** C7. A second call of [postProcess] on a class, after a first call
    that returned, changes nothing: not the members of the class, not its
    [extends] link, not its [implements] list, nor anything else in the
    state. *)
Theorem postProcess_idempotent (fuel fuel' id : nat) (st st' : State) :
  postProcess fuel id st = Ok st' ->
  postProcess (S fuel') id st' = Ok st'.
Proof.
  intros H. simpl. destruct (heap st' !! id) as [K'|] eqn:HK'; [|done].
  destruct (postProcess_frames _ _ _ _ H) as [(_ & Hlen & _) _].
  destruct (heap st !! id) as [K|] eqn:HK.
  - destruct (postProcess_flags _ _ _ _ _ H HK) as (K'' & HK'' & Hflag).
    rewrite HK' in HK''. injection HK'' as <-. by rewrite Hflag.
  - apply lookup_lt_Some in HK'. apply lookup_ge_None in HK. lia.
Qed.

Lemma postProcess_idempotent_witness :
  postProcess 1 1 Doc.factory_resolved = Ok Doc.factory_resolved.
Proof.
  apply (postProcess_idempotent 3 0 1 Doc.factory_loaded). reflexivity.
Defined.

(** ** Termination *)

(** *** The type converter always has fuel enough *)

Lemma append_empty s : "" +:+ s = s.
Proof. reflexivity. Qed.

Lemma append_length s t : String.length (s +:+ t) = String.length s + String.length t.
Proof. induction s as [|a s IH]; [done|]. rewrite append_cons. simpl. lia. Qed.

Lemma length_before c s : String.length (Str.before c s) <= String.length s.
Proof.
  induction s as [|a s IH]; simpl; [done|].
  destruct (Str.eqb_ascii a c); simpl; lia.
Qed.

Lemma length_last_close c s pre post :
  Re.last_close c s = Some (pre, post) ->
  String.length s = String.length pre + 1 + String.length post.
Proof.
  revert pre. induction s as [|a s IH]; intros pre; simpl; [done|].
  destruct (Re.is_line_terminator a); [done|].
  destruct (Re.last_close c s) as [[pre' post']|].
  - intros [= <- <-]. simpl. rewrite (IH pre' eq_refl). lia.
  - destruct (Str.eqb_ascii a c); [|done]. intros [= <- <-]. simpl. lia.
Qed.

Lemma length_dot_plus_then c s inner post :
  Re.dot_plus_then c s = Some (inner, post) ->
  String.length s = String.length inner + 1 + String.length post.
Proof.
  unfold Re.dot_plus_then.
  destruct (Re.last_close c s) as [[pre post']|] eqn:E; [|done].
  destruct (Str.truthy pre); [|done]. intros [= <- <-].
  by apply length_last_close in E.
Qed.

Lemma length_curlies s inner :
  Re.curlies s = Some inner -> String.length inner < String.length s.
Proof.
  destruct s as [|a s]; simpl; [done|].
  destruct (Str.eqb_ascii a "{"); [|done].
  destruct (Re.dot_plus_then "}" s) as [[inner' post]|] eqn:E; [|done].
  intros [= <-]. apply length_dot_plus_then in E. lia.
Qed.

Lemma length_generics_match s pre inner post :
  Re.generics_match s = Some (pre, inner, post) ->
  String.length s
  = String.length pre + String.length ("<" +:+ inner +:+ ">")
    + String.length post.
Proof.
  revert pre. induction s as [|a s IH]; intros pre; simpl; [done|].
  assert (forall pre,
    match Re.generics_match s with
    | Some (pre', inner', post') => Some (String a pre', inner', post')
    | None => None
    end = Some (pre, inner, post) ->
    S (String.length s)
    = String.length pre + String.length ("<" +:+ inner +:+ ">")
      + String.length post) as Hnext.
  { intros pre0. destruct (Re.generics_match s) as [[[pre' inner'] post']|];
      [|done].
    intros [= <- <- <-]. simpl. rewrite (IH pre' eq_refl). done. }
  destruct (Str.eqb_ascii a "<"); [|apply Hnext].
  destruct (Re.dot_plus_then ">" s) as [[inner' post']|] eqn:E; [|apply Hnext].
  intros [= <- <- <-]. apply length_dot_plus_then in E.
  rewrite append_empty, append_length. simpl. lia.
Qed.

Lemma length_skip_spaces s : String.length (Re.skip_spaces s) <= String.length s.
Proof.
  induction s as [|a s IH]; simpl; [done|].
  destruct (Re.is_space a); simpl; lia.
Qed.

Lemma length_comma_here s rest :
  Re.comma_here s = Some rest -> String.length rest < String.length s.
Proof.
  unfold Re.comma_here. pose proof (length_skip_spaces s) as H.
  destruct (Re.skip_spaces s) as [|a r]; [done|].
  destruct (Str.eqb_ascii a ","); [|done]. intros [= <-].
  pose proof (length_skip_spaces r). simpl in H. lia.
Qed.

Lemma length_replace_comma s :
  String.length (Re.replace_comma s) <= String.length s.
Proof.
  induction s as [|a s IH].
  - simpl. done.
  - unfold Re.replace_comma. fold Re.replace_comma.
    destruct (Re.comma_here (String a s)) as [rest|] eqn:E.
    + apply length_comma_here in E. rewrite append_length. simpl in *. lia.
    + simpl. lia.
Qed.

Lemma length_barGenerics type :
  String.length (barGenerics type) <= String.length type.
Proof.
  unfold barGenerics.
  destruct (Re.generics_match type) as [[[pre inner] post]|] eqn:E; [|done].
  apply length_generics_match in E. rewrite !append_length, E.
  pose proof (length_replace_comma ("<" +:+ inner +:+ ">")). lia.
Qed.

Lemma length_typeWord type :
  String.length (typeWord type) <= String.length type.
Proof.
  unfold typeWord. destruct (Re.curlies type) as [inner|] eqn:E.
  - apply length_curlies in E. lia.
  - apply length_before.
Qed.

Lemma length_split_le c s p :
  p ∈ Str.split c s -> String.length p <= String.length s.
Proof.
  revert p. induction s as [|a s IH]; intros p; simpl.
  - intros ->%list_elem_of_singleton. done.
  - destruct (Str.eqb_ascii a c).
    + intros [->|H]%elem_of_cons; simpl; [lia|]. apply IH in H. lia.
    + destruct (Str.split c s) as [|q qs]; simpl.
      * intros ->%list_elem_of_singleton. simpl. lia.
      * intros [->|H]%elem_of_cons.
        -- assert (String.length q <= String.length s) by (apply IH; left).
           simpl. lia.
        -- assert (String.length p <= String.length s) by (apply IH; by right).
           lia.
Qed.

(** A branch of a union is shorter than the union. *)
Lemma length_split_lt c s p :
  Str.has_char c s = true -> p ∈ Str.split c s ->
  String.length p < String.length s.
Proof.
  revert p. induction s as [|a s IH]; intros p; simpl; [done|].
  destruct (Str.eqb_ascii a c); simpl.
  - intros _ [->|H]%elem_of_cons; simpl; [lia|].
    apply length_split_le in H. lia.
  - intros Hc. destruct (Str.split c s) as [|q qs]; simpl.
    + intros ->%list_elem_of_singleton. destruct s; [done|]. simpl. lia.
    + intros [->|H]%elem_of_cons.
      * assert (String.length q < String.length s) by (apply IH; [done|left]).
        simpl. lia.
      * assert (String.length p < String.length s) by (apply IH; [done|by right]).
        lia.
Qed.

Lemma mapR_ok {A B} (f : A -> Result B) (l : list A) :
  (forall x, x ∈ l -> exists y, f x = Ok y) -> exists ys, mapR f l = Ok ys.
Proof.
  induction l as [|x l IH]; intros H; simpl; [by eexists|].
  destruct (H x) as [y ->]; [left|]. simpl.
  destruct IH as [ys ->]; [intros; apply H; by right|]. simpl. by eexists.
Qed.

Lemma convertType_fuel_ok fuel : forall st type relativeBase,
  String.length type < fuel ->
  exists s, convertType_fuel fuel st type relativeBase = Ok s.
Proof.
  induction fuel as [|fuel IH]; intros st type relativeBase Hlen; [lia|].
  simpl. pose proof (length_typeWord (barGenerics type)) as H1.
  pose proof (length_barGenerics type) as H2.
  destruct (Str.has_char "|" (typeWord (barGenerics type))) eqn:Hbar.
  - destruct (mapR_ok (fun t => convertType_fuel fuel st t relativeBase)
                (Str.split "|" (typeWord (barGenerics type)))) as [ys ->].
    + intros t Ht. apply IH. apply (length_split_lt _ _ _ Hbar) in Ht. lia.
    + simpl. by eexists.
  - by eexists.
Qed.

(** [convertType] returns a type for every annotation. *)
Lemma convertType_ok st type relativeBase :
  exists s, convertType st type relativeBase = Ok s.
Proof. apply convertType_fuel_ok. lia. Qed.

(** *** Building an item *)

Lemma new_ClassItemParam_ok st fullName data :
  exists p, new_ClassItemParam st fullName data = Ok p.
Proof.
  unfold new_ClassItemParam.
  match goal with
  | |- context [if Str.truthy ?r then _ else _] => destruct (Str.truthy r)
  end.
  - match goal with
    | |- context [convertType ?a ?b ?c] =>
        destruct (convertType_ok a b c) as [s ->]
    end. simpl. by eexists.
  - simpl. by eexists.
Qed.

Lemma new_ClassItem_ok st data id K :
  constructible data = true ->
  exists item, new_ClassItem st data id K = Ok item
               /\ ci_data item = data /\ ci_klass item = id.
Proof.
  unfold constructible, new_ClassItem. intros Hc.
  assert (exists type,
    match i_type data with
    | Some t => if Str.truthy t then convertType st t (k_fullName K)
                else Ok "any"
    | None => Ok "any"
    end = Ok type) as [type ->].
  { destruct (i_type data) as [t|]; [|by eexists].
    destruct (Str.truthy t); [apply convertType_ok|by eexists]. }
  simpl.
  assert (exists params,
    match i_params data with
    | Some ps =>
        if String.eqb (if String.eqb (i_itemtype data) "event" then "method"
                       else i_itemtype data) "method" then
          l <- mapR (new_ClassItemParam st (k_fullName K)) ps ;; Ok (Some l)
        else
          Throw ("Not a method but has params; name=" +:+ i_name data
                 +:+ ", type=" +:+ (if String.eqb (i_itemtype data) "event"
                                    then "method" else i_itemtype data))
    | None => Ok None
    end = Ok params) as [params ->].
  { destruct (i_params data) as [ps|]; [|by eexists]. rewrite Hc.
    destruct (mapR_ok (new_ClassItemParam st (k_fullName K)) ps) as [l ->].
    - intros. apply new_ClassItemParam_ok.
    - simpl. by eexists. }
  simpl.
  assert (exists ret,
    match i_return data with
    | Some r =>
        match r_type r with
        | Some t =>
            if Str.truthy t then
              t' <- convertType st t (k_fullName K) ;; Ok (Some t')
            else Ok (Some "void")
        | None => Ok (Some "void")
        end
    | None =>
        if i_static data && String.eqb (i_name data) "create"
        then Ok (Some (k_name K))
        else Ok None
    end = Ok ret) as [ret ->].
  { destruct (i_return data) as [r|].
    - destruct (r_type r) as [t|]; [|by eexists].
      destruct (Str.truthy t); [|by eexists].
      destruct (convertType_ok st t (k_fullName K)) as [s ->]. simpl.
      by eexists.
    - destruct (_ && _); by eexists. }
  simpl. by eexists.
Qed.

Lemma new_ClassItem_inv st data id K item :
  new_ClassItem st data id K = Ok item ->
  ci_data item = data /\ ci_klass item = id /\ constructible data = true.
Proof.
  destruct (constructible data) eqn:Hc.
  - destruct (new_ClassItem_ok st data id K Hc) as (item' & -> & ? & ?).
    by intros [= <-].
  - unfold constructible in Hc. unfold new_ClassItem.
    destruct (i_params data) as [ps|]; [|done]. rewrite Hc.
    destruct (match i_type data with Some _ => _ | None => _ end); done.
Qed.

Lemma new_ClassItem_fuel st data id K :
  new_ClassItem st data id K <> OutOfFuel.
Proof.
  destruct (constructible data) eqn:Hc.
  - destruct (new_ClassItem_ok st data id K Hc) as (item' & -> & _). done.
  - unfold constructible in Hc. unfold new_ClassItem.
    destruct (i_params data) as [ps|]; [|done]. rewrite Hc.
    destruct (i_type data) as [t|]; [|done].
    destruct (Str.truthy t); [|done].
    by destruct (convertType_ok st t (k_fullName K)) as [s ->].
Qed.

(** *** Resolution always has fuel enough *)

Lemma filter_flag_mono (l l' : list Klass) :
  length l' = length l ->
  (forall j K, l !! j = Some K ->
     exists K', l' !! j = Some K' /\ entry_ok K K') ->
  length (List.filter (fun K => negb (k_postProcessed K)) l')
  <= length (List.filter (fun K => negb (k_postProcessed K)) l).
Proof.
  revert l'. induction l as [|K l IH]; intros [|K' l'] Hlen H; simpl in *;
    try lia.
  assert (length (List.filter (fun K => negb (k_postProcessed K)) l')
          <= length (List.filter (fun K => negb (k_postProcessed K)) l)) as Hrest.
  { apply IH; [lia|]. intros j Kj Hj. by apply (H (S j)). }
  destruct (H 0 K eq_refl) as (K'' & [= <-] & (_ & _ & _ & Hflag)).
  destruct (k_postProcessed K) eqn:E1.
  - rewrite Hflag by done. simpl. lia.
  - destruct (k_postProcessed K'); simpl; lia.
Qed.

Lemma unresolved_shape st st' : shape st st' -> unresolved st' <= unresolved st.
Proof. intros (_ & Hlen & H). by apply filter_flag_mono. Qed.

Lemma filter_flag_insert (l : list Klass) i K :
  l !! i = Some K -> k_postProcessed K = false ->
  S (length (List.filter (fun K => negb (k_postProcessed K))
               (<[ i := set_postProcessed K ]> l)))
  = length (List.filter (fun K => negb (k_postProcessed K)) l).
Proof.
  revert i. induction l as [|K0 l IH]; intros [|i] Hi Hflag; simpl in *;
    try done.
  - injection Hi as ->. by rewrite Hflag.
  - destruct (k_postProcessed K0); simpl; by rewrite <- (IH i).
Qed.

Lemma unresolved_flag st id K :
  heap st !! id = Some K -> k_postProcessed K = false ->
  S (unresolved (update id set_postProcessed st)) = unresolved st.
Proof.
  intros HK Hflag. unfold unresolved, update. rewrite HK. simpl.
  by apply filter_flag_insert.
Qed.

Lemma mapR_fuel {A B} (f : A -> Result B) (l : list A) :
  (forall x, f x <> OutOfFuel) -> mapR f l <> OutOfFuel.
Proof.
  intros Hf. induction l as [|x l IH]; simpl; [done|].
  specialize (Hf x). destruct (f x); simpl; [|done..].
  destruct (mapR f l); simpl; done.
Qed.

Lemma Klass_find_fuel st name allow : Klass_find st name allow <> OutOfFuel.
Proof.
  unfold Klass_find. destruct ((Namespace_for _ _ _).2); [done|].
  by destruct allow.
Qed.

Ltac shape_pass :=
  solve [ apply shape_refl | apply shape_trans | intros; apply shape_warn
        | intros; unfold items_set;
          first [ apply shape_update, field_ok_set_isNamespace
                | apply shape_update, field_ok_set_extends
                | apply shape_update, field_ok_set_implements
                | apply shape_update, field_ok_set_items ]
        | eauto ].

Section Total.
Variable rec : nat -> State -> Result State.
Variable id n : nat.
Hypothesis rec_fuel : forall x st, unresolved st <= n -> rec x st <> OutOfFuel.
Hypothesis rec_shape : forall x st st', rec x st = Ok st' -> shape st st'.

Lemma forEach_fuel {A} (f : A -> State -> Result State) (l : list A) :
  (forall x st, unresolved st <= n -> f x st <> OutOfFuel) ->
  (forall x st st', f x st = Ok st' -> shape st st') ->
  forall st, unresolved st <= n -> forEach f l st <> OutOfFuel.
Proof.
  intros Hf Hs. induction l as [|x l IH]; intros st Hst; simpl; [done|].
  specialize (Hf x st Hst). destruct (f x st) as [st1| |] eqn:E; simpl;
    [|done..].
  apply IH. apply Hs, unresolved_shape in E. lia.
Qed.

Lemma mergeItem_fuel entry st : mergeItem id entry st <> OutOfFuel.
Proof.
  destruct entry as [name i]. unfold mergeItem.
  destruct (ci_private i); [done|].
  destruct (heap st !! id) as [K|]; [|done].
  destruct (Map_get name (k_items K)) as [existing|].
  - by destruct (ci_private existing).
  - pose proof (new_ClassItem_fuel st (ci_data i) id K).
    by destruct (new_ClassItem _ _ _ _).
Qed.

Lemma mergeItem_shape entry st st' :
  mergeItem id entry st = Ok st' -> shape st st'.
Proof.
  apply (mergeItem_pass id shape); shape_pass.
Qed.

Lemma mergeImpl_shape k st st' : mergeImpl rec id k st = Ok st' -> shape st st'.
Proof.
  apply (mergeImpl_pass rec id shape); shape_pass.
Qed.

Lemma extendsBlock_shape K st st' :
  extendsBlock rec id K st = Ok st' -> shape st st'.
Proof.
  apply (extendsBlock_pass rec id shape); shape_pass.
Qed.

Lemma usesBlock_shape K st st' : usesBlock id K st = Ok st' -> shape st st'.
Proof.
  apply (usesBlock_pass id shape); shape_pass.
Qed.

Lemma mergeImpl_fuel k st :
  unresolved st <= n -> mergeImpl rec id k st <> OutOfFuel.
Proof.
  intros Hst. destruct k as [s|kid]; simpl; [done|].
  pose proof (rec_fuel kid st Hst).
  destruct (rec kid st) as [st1| |] eqn:E; simpl; [|done..].
  apply forEach_fuel.
  - intros. apply mergeItem_fuel.
  - apply mergeItem_shape.
  - apply rec_shape, unresolved_shape in E. lia.
Qed.

Lemma implementsBlock_fuel st :
  unresolved st <= n -> implementsBlock rec id st <> OutOfFuel.
Proof.
  intros Hst. unfold implementsBlock.
  destruct (heap st !! id ≫= k_implements) as [impls|]; [|done].
  apply forEach_fuel; [apply mergeImpl_fuel|apply mergeImpl_shape|done].
Qed.

Lemma usesBlock_fuel K st : usesBlock id K st <> OutOfFuel.
Proof.
  unfold usesBlock, resolveUses.
  destruct (d_uses (k_data K)) as [uses|]; [|done].
  pose proof (mapR_fuel (fun i => Klass_find st i false) uses
                (fun i => Klass_find_fuel st i false)).
  destruct (mapR _ uses) as [found| |]; simpl; [|done..].
  by destruct (omap _ found).
Qed.

Lemma extendsBlock_fuel K st :
  unresolved st <= n -> extendsBlock rec id K st <> OutOfFuel.
Proof.
  intros Hst. unfold extendsBlock.
  destruct (d_extends (k_data K)) as [parent|]; [|done].
  destruct (Str.truthy parent); [|done].
  pose proof (Klass_find_fuel st parent false).
  destruct (Klass_find st parent false) as [[[pid P]|]| |]; simpl; [|done..].
  assert (unresolved (update id (set_extends pid) st) <= n) as Hst'.
  { pose proof (unresolved_shape _ _
      (shape_update id _ st (field_ok_set_extends pid))). lia. }
  pose proof (rec_fuel pid _ Hst').
  destruct (rec pid _) as [st1| |]; simpl; [|done..].
  destruct (Map_get _ _) as [parentCreate|]; [|done].
  destruct (heap st1 !! id) as [K'|]; [|done].
  pose proof (new_ClassItem_fuel st1 (ci_data parentCreate) id K').
  by destruct (new_ClassItem _ _ _ _).
Qed.

Lemma postProcess_body_fuel K st :
  unresolved (update id set_postProcessed st) <= n ->
  postProcess_body rec id K st <> OutOfFuel.
Proof.
  intros Hst. unfold postProcess_body.
  set (st1 := update id (set_isNamespace _) _).
  assert (unresolved st1 <= n) as Hst1.
  { pose proof (unresolved_shape _ _
      (shape_update id _ (update id set_postProcessed st)
         (field_ok_set_isNamespace
            (present (Namespace_for (k_fullName K) false
                        (root (update id set_postProcessed st))).2)))).
    subst st1. lia. }
  pose proof (extendsBlock_fuel K st1 Hst1).
  destruct (extendsBlock rec id K st1) as [st2| |] eqn:E2; simpl; [|done..].
  apply extendsBlock_shape, unresolved_shape in E2.
  pose proof (usesBlock_fuel K st2).
  destruct (usesBlock id K st2) as [st3| |] eqn:E3; simpl; [|done..].
  apply usesBlock_shape, unresolved_shape in E3.
  apply implementsBlock_fuel. lia.
Qed.

End Total.

(** With more fuel than there are unresolved classes, a call never runs
    out of fuel: it returns or it throws. *)
Lemma postProcess_fuel fuel : forall id st,
  unresolved st < fuel -> postProcess fuel id st <> OutOfFuel.
Proof.
  induction fuel as [|fuel IH]; intros id st Hlt; [lia|].
  destruct (heap st !! id) as [K|] eqn:HK; [|simpl; by rewrite HK].
  destruct (k_postProcessed K) eqn:Hflag.
  { by rewrite (postProcess_resolved _ _ _ _ HK Hflag). }
  rewrite (postProcess_unfold _ _ _ _ HK Hflag).
  pose proof (unresolved_flag _ _ _ HK Hflag) as Hone.
  apply (postProcess_body_fuel _ id (unresolved st - 1)).
  - intros x s Hs. apply IH. lia.
  - intros x s s' Hx. by apply postProcess_frames in Hx as [? _].
  - lia.
Qed.

(** ** Resolution without diagnostics *)

Lemma in_group_In G j : in_group G j = true <-> In j G.
Proof.
  unfold in_group. rewrite existsb_exists. split.
  - intros (x & Hx & ->%Nat.eqb_eq). done.
  - intros H. exists j. split; [done|apply Nat.eqb_refl].
Qed.

Lemma calm_lookup G st j K :
  calm G st = true -> in_group G j = true -> heap st !! j = Some K ->
  items_quiet K = true /\ extends_in G st K = true
  /\ uses_in G st K = true /\ implements_in G K = true.
Proof.
  unfold calm. rewrite forallb_forall. intros H Hj%in_group_In HK.
  specialize (H j Hj). rewrite HK, !andb_true_iff in H.
  by destruct H as [[[? ?] ?] ?].
Qed.

Lemma calm_intro G st :
  (forall j K, in_group G j = true -> heap st !! j = Some K ->
     items_quiet K = true /\ extends_in G st K = true
     /\ uses_in G st K = true /\ implements_in G K = true) ->
  calm G st = true.
Proof.
  intros H. unfold calm. apply forallb_forall. intros j Hj%in_group_In.
  destruct (heap st !! j) as [K|] eqn:HK; [|done].
  destruct (H j K Hj HK) as (-> & -> & -> & ->). done.
Qed.

(** A lookup sees the same class in two states of one shape. *)
Lemma Klass_find_shape st st' name allow :
  shape st st' ->
  match Klass_find st name allow, Klass_find st' name allow with
  | Ok (Some (i, K)), Ok (Some (i', K')) => i = i' /\ entry_ok K K'
  | Ok None, Ok None => True
  | Throw m, Throw m' => m = m'
  | _, _ => False
  end.
Proof.
  intros (Hroot & Hlen & H). unfold Klass_find. rewrite Hroot.
  destruct (Namespace_for _ _ _).2 as [ns|]; [|by destruct allow].
  destruct (Map_get _ _) as [i|]; simpl; [|done].
  destruct (heap st !! i) as [K|] eqn:HK; simpl.
  - destruct (H _ _ HK) as (K' & -> & Hok). simpl. done.
  - apply lookup_ge_None in HK. rewrite <- Hlen in HK.
    apply lookup_ge_None in HK. rewrite HK. done.
Qed.

Lemma extends_in_shape G st st' K K' :
  shape st st' -> k_data K' = k_data K ->
  extends_in G st K = true -> extends_in G st' K' = true.
Proof.
  intros Hs Hd. unfold extends_in. rewrite Hd.
  destruct (d_extends (k_data K)) as [p|]; [|done].
  destruct (Str.truthy p); [|done].
  pose proof (Klass_find_shape st st' p false Hs) as H.
  destruct (Klass_find st p false) as [[[i P]|]| |]; try done.
  destruct (Klass_find st' p false) as [[[i' P']|]| |]; try done.
  by destruct H as [<- _].
Qed.

Lemma uses_in_shape G st st' K K' :
  shape st st' -> k_data K' = k_data K ->
  uses_in G st K = true -> uses_in G st' K' = true.
Proof.
  intros Hs Hd. unfold uses_in. rewrite Hd.
  destruct (d_uses (k_data K)) as [uses|]; [|done].
  rewrite !forallb_forall. intros H n Hn. specialize (H n Hn).
  pose proof (Klass_find_shape st st' n false Hs) as H'.
  destruct (Klass_find st n false) as [[[i P]|]| |]; try done.
  - destruct (Klass_find st' n false) as [[[i' P']|]| |]; try done.
    by destruct H' as [<- _].
  - destruct (Klass_find st' n false) as [[[i' P']|]| |]; done.
Qed.

Lemma shape_lookup_back st st' j K' :
  shape st st' -> heap st' !! j = Some K' ->
  exists K, heap st !! j = Some K /\ entry_ok K K'.
Proof.
  intros (_ & Hlen & H) HK'.
  destruct (heap st !! j) as [K|] eqn:HK.
  - destruct (H _ _ HK) as (K'' & HK'' & Hok). exists K. split; [done|].
    congruence.
  - apply lookup_lt_Some in HK'. apply lookup_ge_None in HK. lia.
Qed.

(** A calm group stays calm as long as the items and the [implements]
    lists of its classes do. *)
Lemma calm_shape G st st' :
  calm G st = true -> shape st st' ->
  (forall j K', in_group G j = true -> heap st' !! j = Some K' ->
     items_quiet K' = true /\ implements_in G K' = true) ->
  calm G st' = true.
Proof.
  intros Hq Hs Hitems. apply calm_intro. intros j K' Hj HK'.
  destruct (shape_lookup_back _ _ _ _ Hs HK') as (K & HK & Hd & _).
  destruct (calm_lookup _ _ _ _ Hq Hj HK) as (_ & He & Hu & _).
  destruct (Hitems j K' Hj HK') as [Hi Him].
  split; [done|].
  split; [by eapply extends_in_shape|].
  split; [by eapply uses_in_shape|done].
Qed.

Lemma calm_update G id f st :
  calm G st = true -> (forall K, entry_ok K (f K)) ->
  (forall K, heap st !! id = Some K ->
     items_quiet K = true -> implements_in G K = true ->
     items_quiet (f K) = true /\ implements_in G (f K) = true) ->
  calm G (update id f st) = true.
Proof.
  intros Hq Hf Hitems.
  apply (calm_shape G st); [done|by apply shape_update_entry|].
  intros j K' Hj. rewrite heap_update. destruct (decide (j = id)) as [->|].
  - destruct (heap st !! id) as [K|] eqn:HK; simpl; [|done].
    intros [= <-].
    destruct (calm_lookup _ _ _ _ Hq Hj HK) as (Hi & _ & _ & Him).
    by apply Hitems.
  - intros HK. by destruct (calm_lookup _ _ _ _ Hq Hj HK) as (? & _ & _ & ?).
Qed.

Lemma calm_field G id f st :
  calm G st = true -> field_ok f -> (forall K, k_items (f K) = k_items K) ->
  (forall K, k_implements (f K) = k_implements K) ->
  calm G (update id f st) = true.
Proof.
  intros Hq Hf Hitems Himpl. apply calm_update; [done| |].
  - intros K. destruct (Hf K) as (?&?&?&Hflag). repeat split; [done..|].
    by rewrite Hflag.
  - intros K _. unfold items_quiet, implements_in. by rewrite Hitems, Himpl.
Qed.

Lemma forallb_Map_set {V} (P : string * V -> bool) (Q : V -> bool) k v m :
  (forall k' v', P (k', v') = Q v') ->
  forallb P m = true -> Q v = true -> forallb P (Map_set k v m) = true.
Proof.
  intros HP. induction m as [|[k0 v0] m IH]; simpl.
  - intros _ Hv. by rewrite HP, Hv.
  - rewrite andb_true_iff. intros [H0 Hm] Hv.
    destruct (String.eqb k k0); simpl.
    + by rewrite HP, Hv, Hm.
    + by rewrite H0, IH.
Qed.

Lemma forallb_Map_get {V} (P : string * V -> bool) (Q : V -> bool) k v m :
  (forall k' v', P (k', v') = Q v') ->
  forallb P m = true -> Map_get k m = Some v -> Q v = true.
Proof.
  intros HP. induction m as [|[k0 v0] m IH]; simpl; [done|].
  rewrite andb_true_iff. intros [H0 Hm].
  destruct (String.eqb k k0); [|by apply IH].
  intros [= <-]. by rewrite <- (HP k0).
Qed.

Lemma items_quiet_set K k item :
  items_quiet K = true -> quiet_item item = true ->
  items_quiet (set_items (Map_set k item (k_items K)) K) = true.
Proof. unfold items_quiet. simpl. by apply forallb_Map_set. Qed.

Lemma items_quiet_get K k item :
  items_quiet K = true -> Map_get k (k_items K) = Some item ->
  quiet_item item = true.
Proof.
  unfold items_quiet. by apply (forallb_Map_get _ quiet_item).
Qed.

Lemma new_ClassItem_private st data id K item :
  new_ClassItem st data id K = Ok item ->
  ci_private item = bool_decide (i_access data = Some "private").
Proof.
  unfold new_ClassItem.
  destruct (match i_type data with Some _ => _ | None => _ end);
    simpl; [|done..].
  destruct (match i_params data with Some _ => _ | None => _ end);
    simpl; [|done..].
  destruct (match i_return data with Some _ => _ | None => _ end);
    simpl; [|done..].
  by intros [= <-].
Qed.

(** The copy of a quiet item is quiet. *)
Lemma new_ClassItem_quiet st i id K :
  quiet_item i = true ->
  exists item, new_ClassItem st (ci_data i) id K = Ok item
               /\ quiet_item item = true.
Proof.
  unfold quiet_item. rewrite !andb_true_iff. intros [[Hc Hp] Ha].
  destruct (new_ClassItem_ok st (ci_data i) id K Hc) as (item & Hnew & Hd & _).
  exists item. split; [done|].
  rewrite (new_ClassItem_private _ _ _ _ _ Hnew), Hd, Hc, Ha.
  done.
Qed.

Lemma calm_items G id k item st :
  calm G st = true -> quiet_item item = true ->
  calm G (items_set id k item st) = true.
Proof.
  intros Hq Hitem. unfold items_set. apply calm_update; [done|by intros K0|].
  intros K0 _ HK0 Him. split; [by apply items_quiet_set|done].
Qed.

(** The mixins found for a class of a calm group are in the group. *)
Lemma resolveUses_in G st uses :
  forallb (fun n => match Klass_find st n false with
                    | Ok (Some (i, _)) => in_group G i
                    | Ok None => true
                    | _ => false
                    end) uses = true ->
  exists impls, resolveUses st uses = Ok impls
                /\ forallb (in_group G) impls = true.
Proof.
  unfold resolveUses. intros H.
  assert (exists found,
            mapR (fun i => Klass_find st i false) uses = Ok found
            /\ forallb (in_group G)
                 (omap (fun o : option (nat * Klass) => fst <$> o) found)
               = true) as (found & -> & Hall).
  { induction uses as [|n uses IH]; simpl in *; [by exists []|].
    apply andb_true_iff in H as [Hn Hrest].
    destruct (IH Hrest) as (found & -> & Hall).
    destruct (Klass_find st n false) as [[[i Ki]|]| |]; try done; simpl.
    - eexists. split; [done|]. apply andb_true_iff. by split.
    - by eexists. }
  simpl. by eexists.
Qed.

Section Calm.
Variable rec : nat -> State -> Result State.
Variable id n : nat.
Variable G : list nat.

Hypothesis id_in : in_group G id = true.
Hypothesis rec_calm : forall x st,
  in_group G x = true -> calm G st = true -> unresolved st <= n ->
  calmly G (rec x st) st.

Lemma calmly_refl st : calm G st = true -> calmly G (Ok st) st.
Proof.
  intros H. exists st. split; [done|]. split; [done|].
  split; [done|apply shape_refl].
Qed.

Lemma calmly_bind r f st :
  calmly G r st ->
  (forall st1, calm G st1 = true -> shape st st1 -> calmly G (f st1) st1) ->
  calmly G (bind r f) st.
Proof.
  intros (st1 & -> & Hw1 & Hq1 & Hs1) Hf. simpl.
  destruct (Hf st1 Hq1 Hs1) as (st2 & -> & Hw2 & Hq2 & Hs2).
  exists st2. split; [done|]. split; [congruence|].
  split; [done|by eapply shape_trans].
Qed.

Lemma forEach_calm {A} (f : A -> State -> Result State) (l : list A) :
  (forall x st, x ∈ l -> calm G st = true -> unresolved st <= n ->
                calmly G (f x st) st) ->
  forall st, calm G st = true -> unresolved st <= n ->
             calmly G (forEach f l st) st.
Proof.
  induction l as [|x l IH]; intros Hf st Hq Hn; simpl.
  - by apply calmly_refl.
  - apply calmly_bind; [apply Hf; [left|done..]|].
    intros st1 Hq1 Hs1. apply IH; [|done|].
    + intros y s Hy. apply Hf. by right.
    + apply unresolved_shape in Hs1. lia.
Qed.

Lemma mergeItem_calm name i st :
  quiet_item i = true -> calm G st = true ->
  calmly G (mergeItem id (name, i) st) st.
Proof.
  intros Hi Hq. unfold mergeItem.
  assert (ci_private i = false) as ->.
  { unfold quiet_item in Hi. rewrite !andb_true_iff in Hi.
    destruct Hi as [[_ Hp] _]. by destruct (ci_private i). }
  destruct (heap st !! id) as [K|] eqn:HK; [|by apply calmly_refl].
  destruct (calm_lookup _ _ _ _ Hq id_in HK) as (HKq & _).
  destruct (Map_get name (k_items K)) as [existing|] eqn:Hget.
  - assert (ci_private existing = false) as ->.
    { apply (items_quiet_get _ _ _ HKq) in Hget. unfold quiet_item in Hget.
      rewrite !andb_true_iff in Hget. destruct Hget as [[_ Hp] _].
      by destruct (ci_private existing). }
    by apply calmly_refl.
  - destruct (new_ClassItem_quiet st i id K Hi) as (item & -> & Hitem).
    simpl. eexists. split; [done|].
    split; [unfold items_set; apply warnings_update|].
    split; [by apply calm_items|].
    unfold items_set. apply shape_update, field_ok_set_items.
Qed.

Lemma mergeImpl_calm k st :
  match k with ImplKlass m => in_group G m | ImplName _ => true end = true ->
  calm G st = true -> unresolved st <= n ->
  calmly G (mergeImpl rec id k st) st.
Proof.
  intros Hk Hq Hn. destruct k as [s|kid]; simpl; [by apply calmly_refl|].
  apply calmly_bind; [by apply rec_calm|].
  intros st1 Hq1 Hs1. apply forEach_calm; [|done|].
  - intros [name i] s Hin Hs _. apply mergeItem_calm; [|done].
    unfold items_of in Hin. destruct (heap st1 !! kid) as [Kk|] eqn:HKk;
      [|by apply elem_of_nil in Hin].
    destruct (calm_lookup _ _ _ _ Hq1 Hk HKk) as (HKq & _).
    unfold items_quiet in HKq. rewrite forallb_forall in HKq.
    apply (HKq (name, i)). by apply list_elem_of_In.
  - apply unresolved_shape in Hs1. lia.
Qed.

Lemma implementsBlock_calm st :
  calm G st = true -> unresolved st <= n ->
  calmly G (implementsBlock rec id st) st.
Proof.
  intros Hq Hn. unfold implementsBlock.
  destruct (heap st !! id) as [K|] eqn:HK; simpl; [|by apply calmly_refl].
  destruct (calm_lookup _ _ _ _ Hq id_in HK) as (_ & _ & _ & Him).
  unfold implements_in in Him.
  destruct (k_implements K) as [impls|]; [|by apply calmly_refl].
  rewrite forallb_forall in Him.
  apply forEach_calm; [|done..]. intros k s Hk. apply mergeImpl_calm.
  apply Him. by apply list_elem_of_In.
Qed.

Lemma usesBlock_calm K Kc st :
  calm G st = true -> heap st !! id = Some Kc -> k_data Kc = k_data K ->
  calmly G (usesBlock id K st) st.
Proof.
  intros Hq HKc Hd. unfold usesBlock.
  destruct (calm_lookup _ _ _ _ Hq id_in HKc) as (_ & _ & Hu & _).
  unfold uses_in in Hu. rewrite Hd in Hu.
  destruct (d_uses (k_data K)) as [uses|]; [|by apply calmly_refl].
  destruct (resolveUses_in _ _ _ Hu) as (impls & -> & Hall). simpl.
  destruct impls as [|k ks] eqn:E; [by apply calmly_refl|]. rewrite <- E in *.
  eexists. split; [done|]. split; [apply warnings_update|].
  split; [|apply shape_update, field_ok_set_implements].
  apply calm_update; [done|by intros K0|].
  intros K0 _ HK0 _. split; [done|]. unfold implements_in. simpl.
  rewrite forallb_forall in Hall |- *.
  intros e (m & -> & Hm)%list_elem_of_In%list_elem_of_fmap.
  apply Hall. by apply list_elem_of_In.
Qed.

Lemma extendsBlock_calm K Kc st :
  calm G st = true -> unresolved st <= n ->
  heap st !! id = Some Kc -> k_data Kc = k_data K ->
  calmly G (extendsBlock rec id K st) st.
Proof.
  intros Hq Hn HKc Hd. unfold extendsBlock.
  destruct (calm_lookup _ _ _ _ Hq id_in HKc) as (_ & He & _).
  unfold extends_in in He. rewrite Hd in He.
  destruct (d_extends (k_data K)) as [parent|]; [|by apply calmly_refl].
  destruct (Str.truthy parent); [|by apply calmly_refl].
  destruct (Klass_find st parent false) as [[[pid P]|]| |]; try done. simpl.
  assert (calm G (update id (set_extends pid) st) = true) as Hq1.
  { apply calm_field; [done|apply field_ok_set_extends|done..]. }
  pose proof (shape_update id _ st (field_ok_set_extends pid)) as Hs1.
  destruct (rec_calm pid (update id (set_extends pid) st) He Hq1)
    as (st2 & -> & Hw2 & Hq2 & Hs2).
  { apply unresolved_shape in Hs1. lia. }
  simpl. rewrite warnings_update in Hw2.
  assert (shape st st2) as Hs by (by eapply shape_trans).
  destruct (Map_get "static:create" (items_of st2 pid)) as [parentCreate|]
    eqn:Hcreate; [|by exists st2].
  destruct (heap st2 !! id) as [K'|] eqn:HK'; [|by exists st2].
  assert (quiet_item parentCreate = true) as Hpc.
  { unfold items_of in Hcreate.
    destruct (heap st2 !! pid) as [Pp|] eqn:HPp; [|done].
    destruct (calm_lookup _ _ _ _ Hq2 He HPp) as (HPq & _).
    by eapply items_quiet_get. }
  destruct (new_ClassItem_quiet st2 parentCreate id K' Hpc)
    as (item & -> & Hitem).
  simpl. eexists. split; [done|].
  split; [unfold items_set; by rewrite warnings_update|].
  split; [by apply calm_items|].
  eapply shape_trans; [done|].
  unfold items_set. apply shape_update, field_ok_set_items.
Qed.

Lemma postProcess_body_calm K st :
  calm G st = true -> heap st !! id = Some K ->
  unresolved (update id set_postProcessed st) <= n ->
  calmly G (postProcess_body rec id K st) st.
Proof.
  intros Hq HK Hn. unfold postProcess_body.
  set (st1 := update id set_postProcessed st).
  set (st2 := update id (set_isNamespace _) st1).
  assert (calm G st1 = true) as Hq1.
  { apply calm_update; [done|by intros K0|done]. }
  assert (shape st st1) as Hs1 by apply shape_set_postProcessed.
  assert (calm G st2 = true) as Hq2.
  { apply calm_field; [done|apply field_ok_set_isNamespace|done..]. }
  assert (shape st1 st2) as Hs2
    by apply shape_update, field_ok_set_isNamespace.
  assert (exists K2, heap st2 !! id = Some K2 /\ k_data K2 = k_data K)
    as (K2 & HK2 & Hd2).
  { destruct Hs1 as (_ & _ & H1). destruct (H1 _ _ HK) as (K1 & HK1 & Hd1 & _).
    destruct Hs2 as (_ & _ & H2). destruct (H2 _ _ HK1) as (K2 & HK2 & Hd2 & _).
    exists K2. split; [done|congruence]. }
  assert (unresolved st2 <= n) as Hn2.
  { apply unresolved_shape in Hs2. subst st1. lia. }
  destruct (extendsBlock_calm K K2 st2 Hq2 Hn2 HK2 Hd2)
    as (st3 & -> & Hw3 & Hq3 & Hs3).
  simpl.
  assert (exists K3, heap st3 !! id = Some K3 /\ k_data K3 = k_data K)
    as (K3 & HK3 & Hd3).
  { destruct Hs3 as (_ & _ & H3). destruct (H3 _ _ HK2) as (K3 & HK3 & Hd3 & _).
    exists K3. split; [done|congruence]. }
  destruct (usesBlock_calm K K3 st3 Hq3 HK3 Hd3)
    as (st4 & -> & Hw4 & Hq4 & Hs4).
  simpl.
  destruct (implementsBlock_calm st4 Hq4) as (st5 & -> & Hw5 & Hq5 & Hs5).
  { apply unresolved_shape in Hs3, Hs4. lia. }
  exists st5. split; [done|].
  split.
  { rewrite Hw5, Hw4, Hw3. subst st2 st1. by rewrite !warnings_update. }
  split; [done|].
  eapply shape_trans; [exact Hs1|]. eapply shape_trans; [exact Hs2|].
  eapply shape_trans; [exact Hs3|]. by eapply shape_trans.
Qed.

End Calm.

(** In a calm group a call with fuel enough returns and records nothing. *)
Lemma postProcess_calm fuel : forall G id st,
  in_group G id = true -> calm G st = true -> unresolved st < fuel ->
  calmly G (postProcess fuel id st) st.
Proof.
  induction fuel as [|fuel IH]; intros G id st Hid Hq Hlt; [lia|].
  destruct (heap st !! id) as [K|] eqn:HK;
    [|simpl; rewrite HK; by apply calmly_refl].
  destruct (k_postProcessed K) eqn:Hflag.
  { rewrite (postProcess_resolved _ _ _ _ HK Hflag). by apply calmly_refl. }
  rewrite (postProcess_unfold _ _ _ _ HK Hflag).
  pose proof (unresolved_flag _ _ _ HK Hflag) as Hone.
  apply (postProcess_body_calm _ id (unresolved st - 1)); [done| |done..|lia].
  intros x s Hx Hs Hn. apply IH; [done..|lia].
Qed.

(** C10. [postProcess] terminates on every input: with more fuel than
    there are unresolved classes the call returns or throws, whatever the
    [extends] and [uses] links look like. The flag is what bounds the work:
    a call on a resolved class returns at once, a call that returns leaves
    its class resolved, and no call changes a class that was resolved when
    it began. The links may run in circles, and a circle is no cause for a
    diagnostic: in a state of the modelled domain, when the class belongs
    to a calm group, one that holds the parents and the mixins of its
    classes and whose members can be copied without a word, the call
    returns normally and records nothing. *)
Theorem postProcess_terminates (fuel id : nat) (st : State) :
  unresolved st < fuel ->
  postProcess fuel id st <> OutOfFuel
  /\ (forall K, heap st !! id = Some K -> k_postProcessed K = true ->
                postProcess fuel id st = Ok st)
  /\ (forall st', postProcess fuel id st = Ok st' ->
        (forall K, heap st !! id = Some K ->
           exists K', heap st' !! id = Some K' /\ k_postProcessed K' = true)
        /\ (forall j K, heap st !! j = Some K -> k_postProcessed K = true ->
                        heap st' !! j = Some K))
  /\ (forall G, plain_state st = true -> calm G st = true ->
        in_group G id = true ->
        exists st', postProcess fuel id st = Ok st'
                    /\ warnings st' = warnings st).
Proof.
  intros Hlt. split; [by apply postProcess_fuel|]. split; [|split].
  - intros K HK Hflag. destruct fuel as [|fuel]; [lia|].
    by apply (postProcess_resolved _ _ _ K).
  - intros st' H. split.
    + intros K HK. by eapply postProcess_flags.
    + intros j K HK Hflag. apply postProcess_frames in H as [_ Hk].
      by apply Hk.
  - intros G _ Hq Hid. destruct (postProcess_calm fuel G id st Hid Hq Hlt)
      as (st' & H & Hw & _). by exists st'.
Qed.

Lemma postProcess_terminates_witness :
  postProcess 3 0 Doc.cycle_loaded <> OutOfFuel
  /\ exists st', postProcess 3 0 Doc.cycle_loaded = Ok st' /\ warnings st' = [].
Proof.
  assert (unresolved Doc.cycle_loaded < 3) as H by (vm_compute; lia).
  destruct (postProcess_terminates 3 0 Doc.cycle_loaded H)
    as (H1 & _ & _ & H4).
  split; [exact H1|]. apply (H4 [ 0; 1 ]); reflexivity.
Defined.

(** Two classes that use each other, the first with a private [foo] and
    the second with a public one: the circle is closed without a word, but
    the load records the warning of the member made public. *)
Lemma cycle_with_private_member_warns :
  (st <- Doc.uses_cycle ;;
   Ok (warnings st, k_postProcessed <$> heap st !! 0,
       k_postProcessed <$> heap st !! 1))
  = Ok ([ "Setting private to false for A#foo since it's required for implementation" ],
        Some true, Some true).
Proof. reflexivity. Qed.

(** ** Chains of [extends] links *)

Lemma resolved_shape st st' a : shape st st' -> resolved st a -> resolved st' a.
Proof.
  intros (_ & _ & H) (K & HK & Hflag).
  destruct (H _ _ HK) as (K' & HK' & _ & _ & _ & Hf). exists K'. auto.
Qed.

Lemma extends_edge_shape st st' a b :
  shape st st' -> extends_edge st a b -> extends_edge st' a b.
Proof.
  intros Hs (K & p & P & HK & Hp & Ht & Hfind).
  destruct Hs as (Hr & Hl & H). destruct (H _ _ HK) as (K' & HK' & Hd & _).
  pose proof (Klass_find_shape st st' p false (conj Hr (conj Hl H))) as Hf.
  rewrite Hfind in Hf.
  destruct (Klass_find st' p false) as [[[b' P']|]| |] eqn:E; try done.
  destruct Hf as [<- _]. exists K', p, P'. by rewrite Hd.
Qed.

Lemma extends_edge_shape_back st st' a b :
  shape st st' -> extends_edge st' a b -> extends_edge st a b.
Proof.
  intros Hs (K' & p & P' & HK' & Hp & Ht & Hfind).
  destruct (shape_lookup_back _ _ _ _ Hs HK') as (K & HK & Hd & _).
  pose proof (Klass_find_shape st st' p false Hs) as Hf.
  rewrite Hfind in Hf.
  destruct (Klass_find st p false) as [[[b' P]|]| |] eqn:E; try done.
  destruct Hf as [-> _]. exists K, p, P. by rewrite <- Hd.
Qed.

(** A class has one parent at most. *)
Lemma extends_edge_fun st a b b' :
  extends_edge st a b -> extends_edge st a b' -> b = b'.
Proof.
  intros (K & p & P & HK & Hp & _ & Hf) (K' & p' & P' & HK' & Hp' & _ & Hf').
  congruence.
Qed.

Lemma resolved_update_back id f st a :
  field_ok f -> resolved (update id f st) a -> resolved st a.
Proof.
  intros Hf (K' & HK' & Hflag). rewrite heap_update in HK'.
  destruct (decide (a = id)) as [->|]; [|by exists K'].
  destruct (heap st !! id) as [K|] eqn:HK; simpl in HK'; [|done].
  injection HK' as <-. exists K. split; [done|].
  destruct (Hf K) as (_ & _ & _ & <-). done.
Qed.

Lemma closed_update G id f st :
  field_ok f -> closed_except G st -> closed_except G (update id f st).
Proof.
  intros Hf Hc a b HG Hedge Hres.
  pose proof (shape_update id f st Hf) as Hs.
  eapply resolved_shape; [done|]. eapply Hc; [done| |].
  - by eapply extends_edge_shape_back.
  - by eapply resolved_update_back.
Qed.

Lemma shape_closed_update G id st f :
  field_ok f ->
  shape st (update id f st)
  /\ (closed_except G st -> closed_except G (update id f st)).
Proof. intros Hf. split; [by apply shape_update|by apply closed_update]. Qed.

(** When the [extends] block returns, the parent it found was called. *)
Lemma extendsBlock_calls rec id K st st' p b P :
  extendsBlock rec id K st = Ok st' ->
  d_extends (k_data K) = Some p -> Str.truthy p = true ->
  Klass_find st p false = Ok (Some (b, P)) ->
  (forall x s s', rec x s = Ok s' -> shape s s') ->
  exists st1, rec b (update id (set_extends b) st) = Ok st1 /\ shape st1 st'.
Proof.
  intros H Hp Ht Hfind Hrec. unfold extendsBlock in H.
  rewrite Hp, Ht, Hfind in H. simpl in H.
  destruct (rec b _) as [st1| |] eqn:E; simpl in H; [|done..].
  exists st1. split; [done|].
  destruct (Map_get _ _) as [parentCreate|];
    [|injection H as <-; apply shape_refl].
  destruct (heap st1 !! id) as [K'|]; [|injection H as <-; apply shape_refl].
  destruct (new_ClassItem _ _ _ _) as [item| |]; simpl in H; [|done..].
  injection H as <-. apply shape_update, field_ok_set_items.
Qed.

(** A call resolves what it reaches: the parents of the classes it
    resolves are resolved when it returns. *)
Lemma postProcess_closed fuel : forall id st st' (G : nat -> Prop),
  postProcess fuel id st = Ok st' ->
  closed_except G st -> closed_except G st'.
Proof.
  induction fuel as [|fuel IH]; intros id st st' G; [done|].
  destruct (heap st !! id) as [K|] eqn:HK;
    [|simpl; rewrite HK; by intros [= ->]].
  destruct (k_postProcessed K) eqn:Hflag.
  { rewrite (postProcess_resolved _ _ _ _ HK Hflag). by intros [= ->]. }
  rewrite (postProcess_unfold _ _ _ _ HK Hflag). intros H Hc.
  set (G' := fun a => G a \/ a = id).
  set (st1 := update id set_postProcessed st).
  assert (shape st st1) as Hs1 by apply shape_set_postProcessed.
  assert (closed_except G' st1) as Hc1.
  { intros a b HG Hedge Hres.
    assert (a <> id) as Hne by (intros ->; apply HG; by right).
    eapply resolved_shape; [done|]. apply (Hc a b).
    - intros Ha. apply HG. by left.
    - by eapply extends_edge_shape_back.
    - destruct Hres as (Ka & HKa & Hfa). exists Ka.
      subst st1. by rewrite heap_update_ne in HKa. }
  assert (forall x s s', postProcess fuel x s = Ok s' -> shape s s') as Hrec.
  { intros x s s' Hx. by apply postProcess_frames in Hx as [? _]. }
  pose proof H as Hpass.
  apply (postProcess_body_pass _ id
           (fun s s' => shape s s'
                        /\ (closed_except G' s -> closed_except G' s')))
    in Hpass.
  - destruct Hpass as [Hs Hc']. specialize (Hc' Hc1).
    intros a b HG Hedge Hres.
    destruct (decide (a = id)) as [->|Hne];
      [|apply (Hc' a b); [intros [?|?]|..]; done].
    (* the class itself: its parent was called *)
    assert (shape st st') as Hss by (by eapply shape_trans).
    apply (extends_edge_shape_back _ _ _ _ Hss) in Hedge.
    destruct Hedge as (K0 & p & P & HK0 & Hp & Ht & Hfind).
    rewrite HK in HK0. injection HK0 as <-.
    unfold postProcess_body in H. fold st1 in H.
    set (st2 := update id (set_isNamespace _) st1) in H.
    assert (shape st st2) as Hs2.
    { eapply shape_trans; [exact Hs1|].
      apply shape_update, field_ok_set_isNamespace. }
    pose proof (Klass_find_shape st st2 p false Hs2) as Hf2.
    rewrite Hfind in Hf2.
    destruct (Klass_find st2 p false) as [[[b2 P2]|]| |] eqn:Hfind2; try done.
    destruct Hf2 as [<- _].
    destruct (extendsBlock (postProcess fuel) id K st2) as [st3| |] eqn:E3;
      simpl in H; [|done..].
    destruct (extendsBlock_calls _ _ _ _ _ _ _ _ E3 Hp Ht Hfind2 Hrec)
      as (stm & Hcall & Hsm).
    destruct (usesBlock id K st3) as [st4| |] eqn:E4; simpl in H; [|done..].
    apply (usesBlock_shape id) in E4.
    apply (implementsBlock_pass _ id shape) in H; try shape_pass.
    assert (exists Pb, heap (update id (set_extends b) st2) !! b = Some Pb)
      as [Pb HPb].
    { apply Klass_find_heap in Hfind2.
      destruct (shape_update id (set_extends b) st2 (field_ok_set_extends b))
        as (_ & _ & Hu).
      destruct (Hu _ _ Hfind2) as (Pb & HPb & _). by exists Pb. }
    destruct (postProcess_flags _ _ _ _ _ Hcall HPb) as (Kb & HKb & Hfb).
    eapply resolved_shape; [|by exists Kb].
    eapply shape_trans; [exact Hsm|]. by eapply shape_trans.
  - intros s. split; [apply shape_refl|done].
  - intros s1 s2 s3 [? ?] [? ?]. split; [by eapply shape_trans|auto].
  - intros s msg. split; [apply shape_warn|done].
  - intros x s s' Hx. split; [by apply (Hrec x)|]. exact (IH x s s' G' Hx).
  - pass_steps (shape_closed_update G' id).
  - pass_steps (shape_closed_update G' id).
  - pass_steps (shape_closed_update G' id).
  - pass_steps (shape_closed_update G' id).
  - pass_steps (shape_closed_update G' id).
  - pass_steps (shape_closed_update G' id).
Qed.

Lemma filter_all {A} (p : A -> bool) (l : list A) x :
  length (List.filter p l) = length l -> x ∈ l -> p x = true.
Proof.
  induction l as [|y l IH]; simpl; [by intros _ ?%elem_of_nil|].
  pose proof (List.filter_length_le p l) as Hle.
  destruct (p y) eqn:Hy; simpl; [|lia].
  intros Hlen [->|Hx]%elem_of_cons; [done|]. apply IH; [lia|done].
Qed.

(** Before any call, nothing is resolved and the state is closed. *)
Lemma closed_fresh G st :
  unresolved st = length (heap st) -> closed_except G st.
Proof.
  intros Hlen a b _ _ (K & HK & Hflag).
  apply (filter_all _ _ K) in Hlen; [|by eapply list_elem_of_lookup_2].
  simpl in Hlen. by rewrite Hflag in Hlen.
Qed.

(** C6. A chain of [extends] links that comes back to its first class is
    not detected. Take a state of the modelled domain in which no call is
    under way, every resolved class having its parent resolved, and a
    class of such a chain that belongs to a calm group, one that holds the
    parents and the mixins of its classes and whose members can be copied
    without a word: the call on the class returns normally, records
    nothing and leaves every class of the chain resolved. The call that
    closes the circle finds the flag set and returns at once. *)
Theorem postProcess_cycle_unnoticed (fuel id : nat) (st : State)
  (G : list nat) :
  plain_state st = true -> calm G st = true -> in_group G id = true ->
  closed_except (fun _ => False) st ->
  tc (extends_edge st) id id ->
  unresolved st < fuel ->
  exists st',
    postProcess fuel id st = Ok st'
    /\ warnings st' = warnings st
    /\ forall c, rtc (extends_edge st) id c -> resolved st' c.
Proof.
  intros _ Hq Hin Hc Hcycle Hlt.
  destruct (postProcess_calm fuel G id st Hin Hq Hlt)
    as (st' & H & Hw & _ & Hs).
  exists st'. split; [done|]. split; [done|].
  pose proof (postProcess_closed _ _ _ _ _ H Hc) as Hc'.
  assert (resolved st' id) as Hid.
  { assert (exists b, extends_edge st id b) as (b & K & _ & _ & HK & _).
    { inversion Hcycle; eauto. }
    destruct (postProcess_flags _ _ _ _ _ H HK) as (K' & HK' & Hflag).
    by exists K'. }
  assert (forall a c, rtc (extends_edge st) a c ->
                      resolved st' a -> resolved st' c) as Hall.
  { intros a c Hreach. induction Hreach as [a|a b c Hedge _ IH]; [done|].
    intros Ha. apply IH. apply (Hc' a b); [tauto| |done].
    by eapply extends_edge_shape. }
  intros c Hreach. by apply (Hall id).
Qed.

Lemma cycle_beside_edges :
  extends_edge Doc.cycle_beside 0 1 /\ extends_edge Doc.cycle_beside 1 0.
Proof.
  split; eexists _, _, _; (split; [reflexivity|]); (split; [reflexivity|]);
    (split; reflexivity).
Qed.

Lemma postProcess_cycle_unnoticed_witness :
  exists st',
    postProcess 4 0 Doc.cycle_beside = Ok st'
    /\ warnings st' = []
    /\ forall c, rtc (extends_edge Doc.cycle_beside) 0 c -> resolved st' c.
Proof.
  apply (postProcess_cycle_unnoticed 4 0 Doc.cycle_beside [ 0; 1 ]).
  - reflexivity.
  - reflexivity.
  - reflexivity.
  - apply closed_fresh. reflexivity.
  - eapply tc_l; [apply cycle_beside_edges|].
    apply tc_once, cycle_beside_edges.
  - vm_compute. lia.
Defined.

(** Two classes that extend each other load without an error and without
    a warning. *)
Lemma cycle_loads_silently :
  (st <- Doc.cycle ;; Ok (warnings st, k_postProcessed <$> heap st))
  = Ok ([], [ true; true; true; true; true; true ]).
Proof. reflexivity. Qed.

(** ** What a child takes from its parent *)

Lemma create_evolves_refl id o : create_evolves id o o.
Proof. destruct o as [item|]; simpl; [by exists item|done]. Qed.

Lemma create_evolves_trans id o1 o2 o3 :
  create_evolves id o1 o2 -> create_evolves id o2 o3 -> create_evolves id o1 o3.
Proof.
  destruct o1 as [i1|]; simpl.
  - intros (i2 & -> & Hd2 & Hk2). simpl. intros (i3 & -> & Hd3 & Hk3).
    exists i3. split; [done|]. split; congruence.
  - intros H1. destruct o2 as [i2|]; simpl.
    + intros (i3 & -> & _ & Hk3) ? [= <-]. rewrite Hk3. by apply H1.
    + done.
Qed.

Lemma create_kept_refl id st : create_kept id st st.
Proof. intros H. split; [done|apply create_evolves_refl]. Qed.

Lemma create_kept_trans id st1 st2 st3 :
  create_kept id st1 st2 -> create_kept id st2 st3 -> create_kept id st1 st3.
Proof.
  intros H1 H2 Hr. destruct (H1 Hr) as [Hr2 He2].
  destruct (H2 Hr2) as [Hr3 He3]. split; [done|].
  by eapply create_evolves_trans.
Qed.

Lemma create_kept_same id st st' :
  heap st' !! id = heap st !! id -> create_kept id st st'.
Proof.
  intros H (K & HK & Hflag). unfold create_of, items_of, resolved.
  rewrite H, HK. split; [by exists K|apply create_evolves_refl].
Qed.

Lemma resolved_items_set id name item st :
  resolved st id -> resolved (items_set id name item st) id.
Proof.
  intros (K & HK & Hflag). unfold items_set.
  eexists. split; [by apply heap_update_eq|done].
Qed.

Lemma create_of_items_set id name item st K :
  heap st !! id = Some K ->
  create_of (items_set id name item st) id
  = Map_get "static:create" (Map_set name item (k_items K)).
Proof. intros HK. unfold create_of. by rewrite (items_of_items_set _ _ _ _ K). Qed.

Lemma create_kept_add id st K name data item :
  heap st !! id = Some K -> Map_get name (k_items K) = None ->
  new_ClassItem st data id K = Ok item ->
  create_kept id st (items_set id name item st).
Proof.
  intros HK Hget Hnew Hr. split; [by apply resolved_items_set|].
  rewrite (create_of_items_set _ _ _ _ K HK).
  unfold create_of, items_of. rewrite HK.
  destruct (decide (name = "static:create")) as [->|Hne].
  - rewrite Hget, Map_get_set_eq. simpl. intros ? [= <-].
    by apply new_ClassItem_inv in Hnew as (_ & ? & _).
  - rewrite Map_get_set_ne by done. apply create_evolves_refl.
Qed.

Lemma create_kept_public id st K name existing :
  heap st !! id = Some K -> Map_get name (k_items K) = Some existing ->
  create_kept id st (items_set id name (set_private false existing) st).
Proof.
  intros HK Hget Hr. split; [by apply resolved_items_set|].
  rewrite (create_of_items_set _ _ _ _ K HK).
  unfold create_of, items_of. rewrite HK.
  destruct (decide (name = "static:create")) as [->|Hne].
  - rewrite Hget, Map_get_set_eq. simpl. by eexists.
  - rewrite Map_get_set_ne by done. apply create_evolves_refl.
Qed.

Lemma create_kept_implements id st l :
  create_kept id st (update id (set_implements l) st).
Proof.
  intros (K & HK & Hflag). unfold create_of, items_of, resolved.
  rewrite (heap_update_eq _ _ _ _ HK), HK. simpl.
  split; [by eexists|apply create_evolves_refl].
Qed.

(** Once the [extends] block is over, the rest of the body keeps the
    [static:create] of the class. *)
Lemma tail_create_kept fuel id K st st1 st' :
  usesBlock id K st = Ok st1 ->
  implementsBlock (postProcess fuel) id st1 = Ok st' ->
  create_kept id st st' /\ keeps (Some id) st st'.
Proof.
  intros H1 H2.
  assert (create_kept id st st1) as A1.
  { revert H1. apply (usesBlock_pass id (create_kept id));
      [apply create_kept_refl|apply create_kept_implements]. }
  assert (create_kept id st1 st') as A2.
  { revert H2. apply (implementsBlock_pass _ id (create_kept id)).
    - apply create_kept_refl.
    - apply create_kept_trans.
    - intros s msg. by apply create_kept_same.
    - intros x s s' Hx Hr. apply postProcess_frames in Hx as [_ Hk].
      apply (create_kept_same id s s'); [|done].
      destruct Hr as (Kr & HKr & Hflag). rewrite HKr. by apply Hk.
    - intros. by eapply create_kept_add.
    - intros. by eapply create_kept_public. }
  assert (keeps (Some id) st st1) as B1.
  { revert H1. apply (usesBlock_pass id (keeps (Some id)));
      [apply keeps_refl|intros; apply keeps_update]. }
  assert (keeps (Some id) st1 st') as B2.
  { revert H2. apply (implementsBlock_pass _ id (keeps (Some id))).
    - apply keeps_refl.
    - apply keeps_trans.
    - intros. apply keeps_warn.
    - intros x s s' Hx. apply postProcess_frames in Hx as [_ Hk].
      by apply keeps_weaken.
    - intros. apply keeps_update.
    - intros. apply keeps_update. }
  split; [by eapply create_kept_trans|by eapply keeps_trans].
Qed.

Lemma postProcess_resolved_eq fuel id st st' :
  postProcess fuel id st = Ok st' -> resolved st id -> st' = st.
Proof.
  intros H (K & HK & Hflag). destruct fuel as [|fuel]; [done|].
  rewrite (postProcess_resolved _ _ _ _ HK Hflag) in H. congruence.
Qed.

Lemma others_kept_refl id st : others_kept id st st.
Proof. by intros H. Qed.

Lemma others_kept_trans id st1 st2 st3 :
  others_kept id st1 st2 -> others_kept id st2 st3 -> others_kept id st1 st3.
Proof.
  intros H1 H2 Hr. destruct (H1 Hr) as (Hr2 & Hi2 & Hm2).
  destruct (H2 Hr2) as (Hr3 & Hi3 & Hm3). split; [done|].
  split; [congruence|]. intros k Hk. rewrite Hm3, Hm2; done.
Qed.

Lemma others_kept_same id st st' :
  heap st' !! id = heap st !! id -> others_kept id st st'.
Proof.
  intros H (K & HK & Hflag). unfold items_of, resolved. rewrite H, HK.
  split; [by exists K|done].
Qed.

Lemma others_kept_update id f st :
  field_ok f -> (forall K, k_implements (f K) = k_implements K) ->
  (forall K k, k <> "static:create" ->
               Map_get k (k_items (f K)) = Map_get k (k_items K)) ->
  others_kept id st (update id f st).
Proof.
  intros Hf Hi Hm (K & HK & Hflag). unfold items_of, resolved.
  rewrite (heap_update_eq _ _ _ _ HK), HK. simpl.
  split; [|split; [by rewrite Hi|by apply Hm]].
  exists (f K). split; [done|]. destruct (Hf K) as (_ & _ & _ & ->). done.
Qed.

Lemma extendsBlock_others_kept fuel id K st st' :
  extendsBlock (postProcess fuel) id K st = Ok st' -> others_kept id st st'.
Proof.
  apply (extendsBlock_pass _ id (others_kept id)).
  - apply others_kept_refl.
  - apply others_kept_trans.
  - intros s msg. by apply others_kept_same.
  - intros x s s' Hx Hr. apply postProcess_frames in Hx as [_ Hk].
    apply (others_kept_same id s s'); [|done].
    destruct Hr as (Kr & HKr & Hflag). rewrite HKr. by apply Hk.
  - intros s pid. apply others_kept_update; [apply field_ok_set_extends|done..].
  - intros s K0 data item _ _. unfold items_set.
    apply others_kept_update; [apply field_ok_set_items|done|].
    intros K1 k Hk. simpl. by apply Map_get_set_ne.
Qed.

(** What the class at [id] holds once a call on it has returned, when its
    [extends] target is the class at [pid]. *)
Lemma extends_copies_create (fuel id : nat) (st st' : State)
  (K : Klass) (p : string) (pid : nat) (P : Klass) :
  heap st !! id = Some K -> k_postProcessed K = false ->
  d_extends (k_data K) = Some p -> Str.truthy p = true ->
  Klass_find st p false = Ok (Some (pid, P)) ->
  postProcess fuel id st = Ok st' ->
  (forall pc, Map_get "static:create" (items_of st' pid) = Some pc ->
     exists item, Map_get "static:create" (items_of st' id) = Some item
                  /\ ci_data item = ci_data pc /\ ci_klass item = id)
  /\ (d_uses (k_data K) = None -> k_implements K = None ->
      forall k, k <> "static:create" ->
                Map_get k (items_of st' id) = Map_get k (k_items K)).
Proof.
  intros HK Hflag Hp Ht Hfind H.
  destruct fuel as [|fuel]; [done|].
  rewrite (postProcess_unfold _ _ _ _ HK Hflag) in H.
  unfold postProcess_body in H.
  set (st1 := update id set_postProcessed st) in H.
  set (st2 := update id (set_isNamespace _) st1) in H.
  assert (heap st2 !! id
          = Some (set_isNamespace
                    (present (Namespace_for (k_fullName K) false (root st1)).2)
                    (set_postProcessed K))) as HK2.
  { subst st2 st1. apply heap_update_eq. by apply heap_update_eq. }
  assert (resolved st2 id) as Hr2 by (by eexists).
  assert (shape st st2) as Hs2.
  { eapply shape_trans; [apply shape_set_postProcessed|].
    apply shape_update, field_ok_set_isNamespace. }
  destruct (extendsBlock (postProcess fuel) id K st2) as [st3| |] eqn:E3;
    simpl in H; [|done..].
  destruct (usesBlock id K st3) as [st4| |] eqn:E4; simpl in H; [|done..].
  split.
  - (* the factory of the parent *)
    destruct (tail_create_kept _ _ _ _ _ _ E4 H) as [Hkept Hkeeps].
    pose proof (Klass_find_shape st st2 p false Hs2) as Hf2.
    rewrite Hfind in Hf2.
    destruct (Klass_find st2 p false) as [[[pid2 P2]|]| |] eqn:Hfind2;
      try done.
    destruct Hf2 as [<- _].
    unfold extendsBlock in E3. rewrite Hp, Ht, Hfind2 in E3. simpl in E3.
    set (st2' := update id (set_extends pid) st2) in E3.
    assert (resolved st2' id) as Hr2'.
    { subst st2'. eexists. split; [by apply heap_update_eq|done]. }
    destruct (postProcess fuel pid st2') as [stm| |] eqn:Hcall;
      simpl in E3; [|done..].
    assert (resolved stm id) as Hrm.
    { eapply resolved_shape; [|exact Hr2'].
      by apply postProcess_frames in Hcall as [? _]. }
    destruct Hrm as (Km & HKm & Hflagm). rewrite HKm in E3.
    assert (resolved st3 id
            /\ match create_of stm pid with
               | Some pc0 =>
                   exists item, create_of st3 id = Some item
                                /\ ci_data item = ci_data pc0
                                /\ ci_klass item = id
               | None => st3 = stm
               end) as [Hr3 Hcreate].
    { unfold create_of at 1.
      destruct (Map_get "static:create" (items_of stm pid)) as [pc0|].
      - destruct (new_ClassItem stm (ci_data pc0) id Km) as [item| |] eqn:Hnew;
          simpl in E3; [|done..].
        injection E3 as <-. split.
        + apply resolved_items_set. by exists Km.
        + exists item. rewrite (create_of_items_set _ _ _ _ Km HKm).
          rewrite Map_get_set_eq.
          apply new_ClassItem_inv in Hnew as (? & ? & _). done.
      - injection E3 as <-. split; [by exists Km|done]. }
    destruct (Hkept Hr3) as [Hr' Hev].
    intros pc Hpc. fold (create_of st' pid) in Hpc. fold (create_of st' id).
    destruct (decide (pid = id)) as [->|Hne].
    + (* the class extends itself *)
      exists pc. split; [done|]. split; [done|].
      destruct (create_of stm id) as [pc0|] eqn:Hm.
      * destruct Hcreate as (item & Hi & _ & Hik). rewrite Hi in Hev.
        destruct Hev as (item' & Hi' & _ & Hk'). rewrite Hpc in Hi'.
        injection Hi' as <-. congruence.
      * subst st3. rewrite Hm in Hev. by apply Hev.
    + (* a parent proper: resolved when its call returned, kept since *)
      assert (exists Pm, heap stm !! pid = Some Pm
                         /\ k_postProcessed Pm = true) as (Pm & HPm & HfPm).
      { apply Klass_find_heap in Hfind2.
        assert (heap st2' !! pid = Some P2) as HP2.
        { subst st2'. by rewrite heap_update_ne. }
        destruct (postProcess_flags _ _ _ _ _ Hcall HP2) as (Pm & ? & ?).
        exists Pm. by split. }
      assert (heap st3 !! pid = Some Pm) as HP3.
      { destruct (Map_get "static:create" (items_of stm pid)) as [pc0|].
        - destruct (new_ClassItem stm (ci_data pc0) id Km) as [item| |];
            simpl in E3; [|done..].
          injection E3 as <-. unfold items_set. by rewrite heap_update_ne.
        - by injection E3 as <-. }
      assert (heap st' !! pid = Some Pm) as HP'.
      { apply Hkeeps; [congruence|done..]. }
      assert (create_of stm pid = Some pc) as Hm.
      { unfold create_of, items_of in *. by rewrite HPm; rewrite HP' in Hpc. }
      rewrite Hm in Hcreate. destruct Hcreate as (item & Hi & Hid & Hik).
      rewrite Hi in Hev. destruct Hev as (item' & Hi' & Hd' & Hk').
      exists item'. split; [done|]. split; congruence.
  - (* nothing else *)
    intros Hu Hi k Hk.
    destruct (extendsBlock_others_kept _ _ _ _ _ E3 Hr2) as (_ & Hi3 & Hm3).
    unfold usesBlock in E4. rewrite Hu in E4. injection E4 as <-.
    unfold implementsBlock in H. rewrite Hi3, HK2 in H. simpl in H.
    rewrite Hi in H. injection H as <-.
    rewrite (Hm3 k Hk). unfold items_of. by rewrite HK2.
Qed.

(** C1. A class whose [extends] target is a registered class takes one
    member from it. At the moment the call on the child returns: if the
    parent then has a member under [static:create], the child has a member
    under that key built from the same record and owned by the child. The
    link copies nothing else: a child without mixins keeps, under every
    other key, the members it had before, and only those. In a state of
    the modelled domain, when the child belongs to a calm group, one that
    holds the parents and the mixins of its classes and whose members can
    be copied without a word, the call does return. *)
Theorem postProcess_extends_copies_create (fuel id : nat) (st : State)
  (K : Klass) (p : string) (pid : nat) (P : Klass) :
  heap st !! id = Some K -> k_postProcessed K = false ->
  d_extends (k_data K) = Some p -> Str.truthy p = true ->
  Klass_find st p false = Ok (Some (pid, P)) ->
  (forall st', postProcess fuel id st = Ok st' ->
     (forall pc, Map_get "static:create" (items_of st' pid) = Some pc ->
        exists item, Map_get "static:create" (items_of st' id) = Some item
                     /\ ci_data item = ci_data pc /\ ci_klass item = id)
     /\ (d_uses (k_data K) = None -> k_implements K = None ->
         forall k, k <> "static:create" ->
                   Map_get k (items_of st' id) = Map_get k (k_items K)))
  /\ (forall G, plain_state st = true -> calm G st = true ->
        in_group G id = true -> unresolved st < fuel ->
        exists st', postProcess fuel id st = Ok st').
Proof.
  intros HK Hflag Hp Ht Hfind. split.
  - intros st' H. by eapply extends_copies_create.
  - intros G _ Hq Hid Hlt.
    destruct (postProcess_calm fuel G id st Hid Hq Hlt) as (st' & H & _).
    by exists st'.
Qed.

Lemma postProcess_extends_copies_create_witness :
  (exists st', postProcess 3 1 Doc.factory_loaded = Ok st')
  /\ postProcess 3 1 Doc.factory_loaded = Ok Doc.factory_resolved
  /\ (exists item,
        Map_get "static:create" (items_of Doc.factory_resolved 1) = Some item
        /\ ci_data item = Doc.create_item /\ ci_klass item = 1)
  /\ (forall k, k <> "static:create" ->
                Map_get k (items_of Doc.factory_resolved 1) = None).
Proof.
  destruct (postProcess_extends_copies_create 3 1 Doc.factory_loaded
              _ "Ember.P" 0 _ eq_refl eq_refl eq_refl eq_refl eq_refl)
    as [Hcopy Hret].
  split.
  { apply (Hret [ 0; 1 ]); [reflexivity..|]. vm_compute. lia. }
  split; [reflexivity|].
  destruct (Hcopy Doc.factory_resolved eq_refl) as [HA HB].
  split.
  - destruct (HA _ eq_refl) as (item & Hi & Hd & Hk). by exists item.
  - intros k Hk. rewrite (HB eq_refl eq_refl k Hk). reflexivity.
Defined.

(** The parent has the public method [foo], the child does not define it:
    after resolution the child is linked to its parent and still has no
    [foo]. *)
Lemma extends_does_not_copy_members :
  (st <- Doc.parent_child ;;
   Ok (ci_private <$> Map_get "foo" (items_of st 0),
       Map_get "foo" (items_of st 1),
       k_extends <$> heap st !! 1))
  = Ok (Some false, None, Some (Some 0)).
Proof. reflexivity. Qed.

(** The copy is taken when the call on the child returns. A parent that
    is only flagged then, the child being resolved from inside its own
    resolution, can come to a [static:create] afterwards, which the child
    does not get. *)
Lemma parent_in_progress_creates_late :
  (st <- Doc.create_late ;;
   Ok (present (Map_get "static:create" (items_of st 0)),
       present (Map_get "static:create" (items_of st 1)),
       k_extends <$> heap st !! 1))
  = Ok (true, false, Some (Some 0)).
Proof. reflexivity. Qed.

(** ** Mixins *)

Lemma implements_kept_refl id st : implements_kept id st st.
Proof. by intros H. Qed.

Lemma implements_kept_trans id st1 st2 st3 :
  implements_kept id st1 st2 -> implements_kept id st2 st3 ->
  implements_kept id st1 st3.
Proof.
  intros H1 H2 Hr. destruct (H1 Hr) as (Hr2 & Hi2).
  destruct (H2 Hr2) as (Hr3 & Hi3). split; [done|congruence].
Qed.

Lemma implements_kept_same id st st' :
  heap st' !! id = heap st !! id -> implements_kept id st st'.
Proof.
  intros H (K & HK & Hflag). unfold resolved. rewrite H, HK.
  split; [by exists K|done].
Qed.

Lemma implements_kept_items id name item st :
  implements_kept id st (items_set id name item st).
Proof.
  intros (K & HK & Hflag). unfold resolved, items_set.
  rewrite (heap_update_eq _ _ _ _ HK), HK. split; [by eexists|done].
Qed.

Lemma implementsBlock_implements_kept fuel id st st' :
  implementsBlock (postProcess fuel) id st = Ok st' ->
  implements_kept id st st'.
Proof.
  apply (implementsBlock_pass _ id (implements_kept id)).
  - apply implements_kept_refl.
  - apply implements_kept_trans.
  - intros s msg. by apply implements_kept_same.
  - intros x s s' Hx Hr. apply postProcess_frames in Hx as [_ Hk].
    apply (implements_kept_same id s s'); [|done].
    destruct Hr as (Kr & HKr & Hflag). rewrite HKr. by apply Hk.
  - intros. apply implements_kept_items.
  - intros. apply implements_kept_items.
Qed.

Lemma mapR_Ok_elem {A B} (f : A -> Result B) (l : list A) ys x :
  mapR f l = Ok ys -> x ∈ l -> exists y, f x = Ok y.
Proof.
  revert ys. induction l as [|a l IH]; intros ys; simpl;
    [by intros _ ?%elem_of_nil|].
  destruct (f a) as [b| |] eqn:Ea; simpl; [|done..].
  destruct (mapR f l) as [bs| |]; simpl; [|done..].
  intros _ [->|Hx]%elem_of_cons; [by exists b|by eapply IH].
Qed.

Lemma resolveUses_spec st uses l :
  resolveUses st uses = Ok l -> l = resolvedUses st uses.
Proof.
  unfold resolveUses.
  destruct (mapR _ uses) as [found| |] eqn:E; simpl; [|done..].
  intros [= <-]. revert found E.
  induction uses as [|n uses IH]; intros found; simpl; [by intros [= <-]|].
  destruct (Klass_find st n false) as [o| |] eqn:En; simpl; [|done..].
  destruct (mapR _ uses) as [found'| |]; simpl; [|done..].
  intros [= <-]. specialize (IH _ eq_refl). unfold resolvedUses in *.
  simpl. rewrite <- IH. by destruct o as [[i Ki]|].
Qed.

Lemma resolvedUses_cons st n uses :
  resolvedUses st (n :: uses)
  = match Klass_find st n false with
    | Ok (Some (i, _)) => i :: resolvedUses st uses
    | _ => resolvedUses st uses
    end.
Proof.
  unfold resolvedUses. simpl.
  by destruct (Klass_find st n false) as [[[i Ki]|]| |].
Qed.

Lemma resolvedUses_shape st st' uses :
  shape st st' -> resolvedUses st' uses = resolvedUses st uses.
Proof.
  intros Hs. induction uses as [|n uses IH]; [done|].
  rewrite !resolvedUses_cons, IH.
  pose proof (Klass_find_shape st st' n false Hs) as H.
  destruct (Klass_find st n false) as [[[i Ki]|]| |],
           (Klass_find st' n false) as [[[i' Ki']|]| |]; try done.
  by destruct H as [-> _].
Qed.

(** C4. A mixin name that names no registered class is left out of the
    [implements] list: when the call returns, the list holds the mixins
    that were found, in order, or is as it was when none was found. Such a
    name does not stop the call: in a state of the modelled domain, when
    the class belongs to a calm group, one in which the mixin names are
    looked up in namespaces that exist, which holds the parents and the
    mixins found of its classes, and whose members can be copied without a
    word, the call does return, and records nothing. A mixin name in a
    namespace that does not exist makes the lookup throw, and the call
    with it. *)
Theorem postProcess_drops_unresolved_mixins (fuel id : nat) (st : State)
  (K : Klass) (uses : list string) :
  heap st !! id = Some K -> k_postProcessed K = false ->
  d_uses (k_data K) = Some uses ->
  unresolved st < fuel ->
  (forall st', postProcess fuel id st = Ok st' ->
     exists K', heap st' !! id = Some K'
                /\ k_implements K'
                   = match resolvedUses st uses with
                     | [] => k_implements K
                     | l => Some (ImplKlass <$> l)
                     end)
  /\ (forall G, plain_state st = true -> calm G st = true ->
        in_group G id = true ->
        exists st', postProcess fuel id st = Ok st'
                    /\ warnings st' = warnings st)
  /\ (forall n m, n ∈ uses -> Klass_find st n false = Throw m ->
        exists m', postProcess fuel id st = Throw m').
Proof.
  intros HK Hflag Hu Hlt.
  assert (forall st', postProcess fuel id st = Ok st' ->
    exists st3 st4, shape st st3 /\ resolved st3 id
      /\ heap st3 !! id ≫= k_implements = k_implements K
      /\ usesBlock id K st3 = Ok st4
      /\ implements_kept id st4 st') as Hbody.
  { intros st' H. destruct fuel as [|fuel]; [done|].
    rewrite (postProcess_unfold _ _ _ _ HK Hflag) in H.
    unfold postProcess_body in H.
    set (st1 := update id set_postProcessed st) in H.
    set (st2 := update id (set_isNamespace _) st1) in H.
    assert (heap st2 !! id
            = Some (set_isNamespace
                      (present (Namespace_for (k_fullName K) false (root st1)).2)
                      (set_postProcessed K))) as HK2.
    { subst st2 st1. apply heap_update_eq. by apply heap_update_eq. }
    assert (resolved st2 id) as Hr2 by (by eexists).
    assert (shape st st2) as Hs2.
    { eapply shape_trans; [apply shape_set_postProcessed|].
      apply shape_update, field_ok_set_isNamespace. }
    destruct (extendsBlock (postProcess fuel) id K st2) as [st3| |] eqn:E3;
      simpl in H; [|done..].
    destruct (usesBlock id K st3) as [st4| |] eqn:E4; simpl in H; [|done..].
    exists st3, st4.
    destruct (extendsBlock_others_kept _ _ _ _ _ E3 Hr2) as (Hr3 & Hi3 & _).
    split.
    { eapply shape_trans; [exact Hs2|]. revert E3.
      apply extendsBlock_shape. intros x s s' Hx.
      by apply postProcess_frames in Hx as [? _]. }
    split; [done|]. split; [by rewrite Hi3, HK2|].
    split; [done|]. by eapply implementsBlock_implements_kept. }
  split; [|split].
  - intros st' H. destruct (Hbody st' H) as (st3 & st4 & Hs3 & Hr3 & Hi3 & E4 & Hkept).
    assert (resolved st4 id
            /\ heap st4 !! id ≫= k_implements
               = match resolvedUses st uses with
                 | [] => k_implements K
                 | l => Some (ImplKlass <$> l)
                 end) as [Hr4 Hi4].
    { unfold usesBlock in E4. rewrite Hu in E4.
      destruct (resolveUses st3 uses) as [l| |] eqn:El; simpl in E4; [|done..].
      apply resolveUses_spec in El. rewrite (resolvedUses_shape _ _ _ Hs3) in El.
      rewrite <- El. destruct l as [|i l].
      - injection E4 as <-. done.
      - injection E4 as <-. destruct Hr3 as (K3 & HK3 & Hf3).
        unfold resolved. rewrite (heap_update_eq _ _ _ _ HK3). simpl.
        split; [by eexists|done]. }
    destruct (Hkept Hr4) as ((K' & HK' & _) & Hi').
    exists K'. split; [done|]. rewrite HK' in Hi'. simpl in Hi'. congruence.
  - intros G _ Hq Hid.
    destruct (postProcess_calm fuel G id st Hid Hq Hlt) as (st' & H & Hw & _).
    by exists st'.
  - intros n m Hn Hthrow.
    pose proof (postProcess_fuel fuel id st Hlt) as Hfuel.
    destruct (postProcess fuel id st) as [st'|m'|] eqn:H; [|by exists m'|done].
    exfalso.
    destruct (Hbody st' eq_refl) as (st3 & st4 & Hs3 & _ & _ & E4 & _).
    unfold usesBlock, resolveUses in E4. rewrite Hu in E4.
    destruct (mapR _ uses) as [found| |] eqn:Emap; simpl in E4; [|done..].
    destruct (mapR_Ok_elem _ _ _ n Emap Hn) as [r Hr].
    pose proof (Klass_find_shape st st3 n false Hs3) as Hf.
    rewrite Hthrow, Hr in Hf. done.
Qed.

Lemma postProcess_drops_unresolved_mixins_witness :
  exists st' K',
    postProcess 3 0 Doc.uses_loaded = Ok st'
    /\ warnings st' = []
    /\ heap st' !! 0 = Some K'
    /\ k_implements K' = Some [ ImplKlass 1 ].
Proof.
  assert (unresolved Doc.uses_loaded < 3) as Hlt by (vm_compute; lia).
  destruct (postProcess_drops_unresolved_mixins 3 0 Doc.uses_loaded _
              [ "Nope"; "M" ] eq_refl eq_refl eq_refl Hlt) as (Hdrop & Hret & _).
  destruct (Hret [ 0; 1 ] eq_refl eq_refl eq_refl) as (st' & H & Hw).
  destruct (Hdrop st' H) as (K' & HK' & Hi).
  by exists st', K'.
Defined.

(** A class that uses a mixin from a namespace nobody registered: the
    load ends with the error of the lookup. And a mixin that is a missing
    class of a namespace that exists is dropped without a warning. *)
Lemma missing_mixin_namespace_aborts :
  Doc.uses_missing_namespace = Throw "No namespace found; name=Missing.Mixin"
  /\ (st <- postProcess 3 0 Doc.uses_loaded ;;
      Ok (heap st !! 0 ≫= k_implements, warnings st))
     = Ok (Some [ ImplKlass 1 ], []).
Proof. split; reflexivity. Qed.

(** ** Splitting and joining *)

Lemma split_nonempty c s : Str.split c s <> [].
Proof.
  destruct s as [|a s]; simpl; [done|].
  destruct (Str.eqb_ascii a c); [done|]. by destruct (Str.split c s).
Qed.

Lemma join_cons sep x y l :
  Str.join sep (x :: y :: l) = x +:+ sep +:+ Str.join sep (y :: l).
Proof. reflexivity. Qed.

(** [s.split(c).join(c)] is [s]. *)
Lemma join_split c s : Str.join (String c "") (Str.split c s) = s.
Proof.
  induction s as [|a s IH]; [done|]. simpl.
  pose proof (split_nonempty c s) as Hne.
  destruct (Str.eqb_ascii a c) eqn:E.
  - apply Ascii.eqb_eq in E as ->.
    destruct (Str.split c s) as [|p ps]; [done|].
    rewrite join_cons, IH. reflexivity.
  - destruct (Str.split c s) as [|p ps]; [done|].
    destruct ps as [|q ps].
    + simpl in *. by rewrite IH.
    + rewrite join_cons in *. rewrite append_cons. by rewrite IH.
Qed.

Lemma split_no_sep c s p : p ∈ Str.split c s -> Str.has_char c p = false.
Proof.
  revert p. induction s as [|a s IH]; intros p; simpl.
  - by intros ->%list_elem_of_singleton.
  - destruct (Str.eqb_ascii a c) eqn:E.
    + intros [->|H]%elem_of_cons; [done|by apply IH].
    + pose proof (split_nonempty c s) as Hne.
      destruct (Str.split c s) as [|q qs]; [done|].
      intros [->|H]%elem_of_cons.
      * simpl. rewrite E. apply IH. left.
      * apply IH. by right.
Qed.

Lemma split_no_char c s : Str.has_char c s = false -> Str.split c s = [ s ].
Proof.
  induction s as [|a s IH]; simpl; [done|].
  destruct (Str.eqb_ascii a c); [done|]. simpl. intros H. by rewrite IH.
Qed.

Lemma split_app c p s :
  Str.has_char c p = false ->
  Str.split c (p +:+ String c s) = p :: Str.split c s.
Proof.
  induction p as [|a p IH]; simpl.
  - intros _.
    assert (Str.eqb_ascii c c = true) as -> by apply Ascii.eqb_refl. done.
  - destruct (Str.eqb_ascii a c) eqn:E; [done|]. simpl. intros H.
    by rewrite IH.
Qed.

(** [l.join(c).split(c)] is [l], for pieces without [c]. *)
Lemma split_join c l :
  l <> [] -> Forall (fun p => Str.has_char c p = false) l ->
  Str.split c (Str.join (String c "") l) = l.
Proof.
  induction l as [|p l IH]; [done|]. intros _ Hall.
  apply Forall_cons in Hall as [Hp Hl].
  destruct l as [|q l].
  - simpl. by apply split_no_char.
  - rewrite join_cons. change (String c "" +:+ ?x) with (String c x).
    rewrite split_app by done. by rewrite IH.
Qed.

(** ** The namespace tree *)

Lemma Map_set_same {V} k (v : V) m : Map_get k m = Some v -> Map_set k v m = m.
Proof.
  induction m as [|[k0 v0] m IH]; simpl; [done|].
  destruct (String.eqb_spec k k0) as [->|]; [by intros [= ->]|].
  intros H. by rewrite IH.
Qed.

Lemma with_namespaces_same ns : with_namespaces ns (ns_namespaces ns) = ns.
Proof. by destruct ns. Qed.

Lemma tree_kept_refl ns : tree_kept ns ns.
Proof. intros q n H. by exists n. Qed.

(** Without [autocreate] the walk is a lookup. *)
Lemma for_walk_lookup parts : forall ns,
  for_walk false parts ns = (ns, ns_at parts ns).
Proof.
  induction parts as [|name rest IH]; intros ns; simpl; [done|].
  destruct (Map_get name (ns_namespaces ns)) as [child|] eqn:E; [|done].
  rewrite IH, (Map_set_same _ _ _ E), with_namespaces_same. done.
Qed.

(** With [autocreate] on a path that is there, too. *)
Lemma for_walk_present parts : forall ns found,
  ns_at parts ns = Some found -> for_walk true parts ns = (ns, Some found).
Proof.
  induction parts as [|name rest IH]; intros ns found; simpl;
    [by intros [= ->]|].
  destruct (Map_get name (ns_namespaces ns)) as [child|] eqn:E; [|done].
  intros H. rewrite (IH _ _ H), (Map_set_same _ _ _ E), with_namespaces_same.
  done.
Qed.

Lemma ns_at_set_child ns name child rest :
  ns_at (name :: rest)
    (with_namespaces ns (Map_set name child (ns_namespaces ns)))
  = ns_at rest child.
Proof. simpl. by rewrite Map_get_set_eq. Qed.

Lemma tree_kept_set_child ns name child child' :
  (Map_get name (ns_namespaces ns) = Some child /\ tree_kept child child')
  \/ Map_get name (ns_namespaces ns) = None ->
  tree_kept ns (with_namespaces ns (Map_set name child' (ns_namespaces ns))).
Proof.
  intros Hc [|b q] n; simpl.
  - intros [= <-]. eexists. by split.
  - destruct (String.eqb_spec name b) as [<-|Hne].
    + rewrite Map_get_set_eq.
      destruct Hc as [[E Hk] | E]; rewrite E; [|done]. apply Hk.
    + rewrite Map_get_set_ne by done.
      destruct (Map_get b (ns_namespaces ns)) as [c|]; [|done].
      intros H. by exists n.
Qed.

(** With [autocreate] the walk ends in a namespace, which stands at the
    end of the path in the new tree; what was in the tree stays. *)
Lemma for_walk_create parts : forall ns,
  exists ns' found,
    for_walk true parts ns = (ns', Some found)
    /\ ns_at parts ns' = Some found /\ tree_kept ns ns'.
Proof.
  induction parts as [|name rest IH]; intros ns; simpl.
  - exists ns, ns. repeat split. apply tree_kept_refl.
  - destruct (Map_get name (ns_namespaces ns)) as [child|] eqn:E.
    + destruct (IH child) as (child' & found & -> & Hat & Hk).
      eexists _, found. split; [done|]. split.
      * simpl. by rewrite Map_get_set_eq.
      * apply (tree_kept_set_child ns name child child'). left. by split.
    + destruct (IH (new_Namespace (Some name) (Some ns)))
        as (child' & found & -> & Hat & Hk).
      eexists _, found. split; [done|]. split.
      * simpl. by rewrite Map_get_set_eq.
      * apply (tree_kept_set_child ns name child' child'). by right.
Qed.

(** X1. Without [autocreate], [Namespace.for] reads the tree and leaves it
    as it is: it returns the namespace that stands at the path of the
    dotted name, the root for the empty name, and nothing when a segment
    of the path is missing. *)
Theorem Namespace_for_reads (name : string) (root : Namespace) :
  Namespace_for name false root = (root, ns_at (path_of name) root)
  /\ (name = "" -> (Namespace_for name false root).2 = Some root)
  /\ (forall pre x rest,
        path_of name = pre ++ x :: rest ->
        (forall n, ns_at pre root = Some n ->
                   Map_get x (ns_namespaces n) = None) ->
        (Namespace_for name false root).2 = None).
Proof.
  unfold Namespace_for. rewrite for_walk_lookup. split; [done|]. split.
  - by intros ->.
  - intros pre x rest -> Hmiss. simpl. revert root Hmiss.
    induction pre as [|p pre IH]; intros root Hmiss; simpl.
    + by rewrite (Hmiss root eq_refl).
    + destruct (Map_get p (ns_namespaces root)) as [c|] eqn:E; [|done].
      apply IH. intros n Hn. apply Hmiss. simpl. by rewrite E.
Qed.

Lemma Namespace_for_reads_witness :
  (Namespace_for "Ember.RSVP" false Namespace_root).2 = None.
Proof.
  apply (proj2 (proj2 (Namespace_for_reads "Ember.RSVP" Namespace_root))
           [] "Ember" [ "RSVP" ]); [reflexivity|].
  intros n [= <-]. reflexivity.
Defined.

(** X2. With [autocreate], [Namespace.for] always ends in a namespace;
    a lookup of the same name in the new tree finds that namespace, and a
    second call with [autocreate] changes nothing more. *)
Theorem Namespace_for_autocreate_found (name : string) (root : Namespace) :
  exists root' found,
    Namespace_for name true root = (root', Some found)
    /\ Namespace_for name false root' = (root', Some found)
    /\ Namespace_for name true root' = (root', Some found).
Proof.
  unfold Namespace_for.
  destruct (for_walk_create (path_of name) root) as (root' & found & H & Hat & _).
  exists root', found. split; [done|]. split.
  - by rewrite for_walk_lookup, Hat.
  - by apply for_walk_present.
Qed.

(** X3. [Namespace.for] with [autocreate] only adds: every namespace of the
    tree is still there under its path, with its name and its classes, and
    when the namespace asked for is there already the tree does not
    change. *)
Theorem Namespace_for_autocreate_keeps (name : string) (root : Namespace) :
  tree_kept root (Namespace_for name true root).1
  /\ (forall found, (Namespace_for name false root).2 = Some found ->
                    Namespace_for name true root = (root, Some found)).
Proof.
  unfold Namespace_for. split.
  - by destruct (for_walk_create (path_of name) root) as (root' & found & -> & _ & H).
  - intros found. rewrite for_walk_lookup. simpl. apply for_walk_present.
Qed.

Lemma Namespace_for_autocreate_keeps_witness :
  Namespace_for "Ember" true (root Doc.factory_loaded)
  = (root Doc.factory_loaded,
     (Namespace_for "Ember" false (root Doc.factory_loaded)).2).
Proof.
  apply (proj2 (Namespace_for_autocreate_keeps "Ember"
                  (root Doc.factory_loaded))).
  reflexivity.
Defined.

(** ** Registering and finding classes *)

Lemma ns_at_set_class_same p : forall r n k id,
  ns_at p r = Some n ->
  ns_at p (ns_set_class p k id r)
  = Some (with_classes n (Map_set k id (ns_classes n))).
Proof.
  induction p as [|a p IH]; intros r n k id; simpl; [by intros [= ->]|].
  destruct (Map_get a (ns_namespaces r)) as [c|] eqn:E; [|done].
  intros H. simpl. rewrite Map_get_set_eq. by apply IH.
Qed.

Lemma ns_at_set_class_other p : forall q r n k id,
  q <> p -> ns_at q r = Some n ->
  exists n', ns_at q (ns_set_class p k id r) = Some n'
             /\ ns_classes n' = ns_classes n.
Proof.
  induction p as [|a p IH]; intros q r n k id Hne.
  - destruct q as [|b q]; [done|]. simpl. intros H. by exists n.
  - destruct q as [|b q]; simpl.
    + intros [= <-]. destruct (Map_get a (ns_namespaces r)); eexists; by split.
    + destruct (Map_get b (ns_namespaces r)) as [c|] eqn:Eb; [|done].
      intros H. destruct (Map_get a (ns_namespaces r)) as [ca|] eqn:Ea;
        [|simpl; rewrite Eb; by exists n].
      simpl. destruct (String.eqb_spec a b) as [->|Hab].
      * rewrite Map_get_set_eq. rewrite Eb in Ea. injection Ea as <-.
        apply IH; [congruence|done].
      * rewrite Map_get_set_ne by done. rewrite Eb. by exists n.
Qed.

(** A lookup, read off the tree. *)
Lemma Klass_find_at st fullName allow :
  Klass_find st fullName allow
  = match ns_at (path_of (namespaceAndKlassName fullName).1) (root st) with
    | None => if allow then Ok None
              else Throw ("No namespace found; name=" +:+ fullName)
    | Some ns =>
        Ok (id ← Map_get (namespaceAndKlassName fullName).2 (ns_classes ns);
            K ← heap st !! id; Some (id, K))
    end.
Proof. unfold Klass_find, Namespace_for. by rewrite for_walk_lookup. Qed.

(** A class just registered is found, at the end of the heap. *)
Lemma Klass_create_fresh (fullName : string) (data : ClassData)
  (st st' : State) (id : nat) (allow : bool) :
  Klass_create fullName data st = (st', Some id) ->
  Klass_find st' fullName allow
  = Ok (Some (id, new_Klass (namespaceAndKlassName fullName).2 data))
  /\ id = length (heap st)
  /\ heap st' = heap st ++ [ new_Klass (namespaceAndKlassName fullName).2 data ]
  /\ warnings st' = warnings st.
Proof.
  unfold Klass_create, Namespace_for.
  destruct (for_walk_create (path_of (namespaceAndKlassName fullName).1)
              (root st)) as (root' & found & -> & Hat & _).
  destruct (Map_has _ (ns_classes found)); [done|].
  intros [= <- <-]. split; [|done].
  rewrite Klass_find_at. simpl.
  rewrite (ns_at_set_class_same _ _ _ _ _ Hat). simpl.
  rewrite Map_get_set_eq. simpl.
  rewrite lookup_app_r by done. by rewrite Nat.sub_diag.
Qed.

(** X4. A class that [Klass.create] registered is the class [Klass.find]
    returns for that name: the new object stands at the end of the heap,
    and no warning is recorded. *)
Theorem Klass_create_find (fullName : string) (data : ClassData)
  (st st' : State) (id : nat) (allow : bool) :
  Klass_create fullName data st = (st', Some id) ->
  Klass_find st' fullName allow
  = Ok (Some (id, new_Klass (namespaceAndKlassName fullName).2 data))
  /\ id = length (heap st)
  /\ heap st' = heap st ++ [ new_Klass (namespaceAndKlassName fullName).2 data ]
  /\ warnings st' = warnings st.
Proof. apply Klass_create_fresh. Qed.

Lemma Klass_create_find_witness :
  Klass_find (Klass_create "Ember.Foo" (Doc.klass "Ember.Foo" None None).2
                init_state).1 "Ember.Foo" false
  = Ok (Some (0, new_Klass "Foo" (Doc.klass "Ember.Foo" None None).2)).
Proof.
  apply (Klass_create_find "Ember.Foo" (Doc.klass "Ember.Foo" None None).2
           init_state _ 0 false). reflexivity.
Defined.

(** X5. [Klass.create] refuses a name that [Klass.find] already finds: it
    returns nothing, records the warning and leaves the tree and the heap
    as they are, so that the first class is still the one found. *)
Theorem Klass_create_duplicate (fullName : string) (data : ClassData)
  (st : State) (j : nat) (K : Klass) (allow : bool) :
  Klass_find st fullName allow = Ok (Some (j, K)) ->
  Klass_create fullName data st
  = (warn ("Class already exists; name=" +:+ fullName) st, None)
  /\ Klass_find (Klass_create fullName data st).1 fullName allow
     = Ok (Some (j, K)).
Proof.
  intros Hfind. pose proof Hfind as Hfind'. rewrite Klass_find_at in Hfind.
  destruct (ns_at _ (root st)) as [ns|] eqn:Hat; [|by destruct allow].
  assert (Klass_create fullName data st
          = (warn ("Class already exists; name=" +:+ fullName) st, None)) as ->.
  { unfold Klass_create, Namespace_for. rewrite (for_walk_present _ _ _ Hat).
    unfold Map_has.
    destruct (Map_get _ (ns_classes ns)) as [i|]; [|done].
    by destruct st. }
  split; [done|]. exact Hfind'.
Qed.

Lemma Klass_create_duplicate_witness :
  Klass_create "A" (Doc.klass "A" (Some "B") None).2 Doc.one_class
  = (warn "Class already exists; name=A" Doc.one_class, None)
  /\ Klass_find (Klass_create "A" (Doc.klass "A" (Some "B") None).2
                   Doc.one_class).1 "A" false
     = Ok (Some (0, Doc.A)).
Proof.
  apply (Klass_create_duplicate "A" (Doc.klass "A" (Some "B") None).2
           Doc.one_class 0 Doc.A false). reflexivity.
Defined.

(** A class that is found stays found when another is registered. *)
Lemma Klass_create_other (fullName other : string) (data : ClassData)
  (st : State) (j : nat) (K : Klass) (allow : bool) :
  Klass_find st other allow = Ok (Some (j, K)) ->
  Klass_find (Klass_create fullName data st).1 other allow = Ok (Some (j, K)).
Proof.
  rewrite !Klass_find_at.
  set (pg := path_of (namespaceAndKlassName other).1).
  set (kg := (namespaceAndKlassName other).2).
  destruct (ns_at pg (root st)) as [n|] eqn:Hat; [|by destruct allow].
  destruct (Map_get kg (ns_classes n)) as [i|] eqn:Hget; simpl; [|done].
  destruct (heap st !! i) as [Ki|] eqn:Hi; simpl; [|done].
  intros [= -> ->].
  unfold Klass_create, Namespace_for.
  set (pf := path_of (namespaceAndKlassName fullName).1).
  set (kf := (namespaceAndKlassName fullName).2).
  destruct (for_walk_create pf (root st)) as (root' & found & -> & Hatf & Hk).
  destruct (Hk _ _ Hat) as (n' & Hat' & _ & _ & Hcl).
  destruct (Map_has kf (ns_classes found)) eqn:Hhas; simpl.
  - rewrite Hat', Hcl, Hget. simpl. by rewrite Hi.
  - destruct (decide (pg = pf)) as [Heq|Hne].
    + rewrite Heq in *. rewrite Hatf in Hat'. injection Hat' as <-.
      rewrite (ns_at_set_class_same _ _ _ _ _ Hatf). simpl.
      destruct (decide (kf = kg)) as [Hkk|Hkk].
      { unfold Map_has in Hhas. rewrite Hkk, Hcl, Hget in Hhas. done. }
      rewrite Map_get_set_ne by done.
      rewrite Hcl, Hget. simpl. by rewrite lookup_app_l_Some with (x := K).
    + destruct (ns_at_set_class_other pf pg root' n' kf (length (heap st))
                  Hne Hat') as (n'' & -> & Hcl'').
      rewrite Hcl'', Hcl, Hget. simpl.
      by rewrite lookup_app_l_Some with (x := K).
Qed.

(** X6. Registering a class never hides another: a class that
    [Klass.find] finds before a call of [Klass.create], whatever the call
    registers or refuses, is found after it, the same object at the same
    place. *)
Theorem Klass_create_keeps (fullName other : string) (data : ClassData)
  (st : State) (j : nat) (K : Klass) (allow : bool) :
  Klass_find st other allow = Ok (Some (j, K)) ->
  Klass_find (Klass_create fullName data st).1 other allow = Ok (Some (j, K)).
Proof. apply Klass_create_other. Qed.

Lemma Klass_create_keeps_witness :
  Klass_find (Klass_create "A.B" (Doc.klass "A.B" None None).2
                Doc.one_class).1 "A" false
  = Ok (Some (0, Doc.A)).
Proof.
  apply (Klass_create_keeps "A.B" "A" (Doc.klass "A.B" None None).2
           Doc.one_class 0 Doc.A false). reflexivity.
Defined.

(** ** Names *)

Lemma append_assoc s t u : (s +:+ t) +:+ u = s +:+ (t +:+ u).
Proof. induction s as [|a s IH]; [done|]. rewrite !append_cons. by f_equal. Qed.

Lemma has_char_app c s t :
  Str.has_char c (s +:+ t) = Str.has_char c s || Str.has_char c t.
Proof.
  induction s as [|a s IH]; [done|]. rewrite append_cons. simpl.
  rewrite IH. by destruct (Str.eqb_ascii a c).
Qed.

Lemma join_snoc sep l x :
  l <> [] -> Str.join sep (l ++ [ x ]) = Str.join sep l +:+ sep +:+ x.
Proof.
  induction l as [|y l IH]; [done|]. intros _.
  destruct l as [|z l]; [done|].
  change ((y :: z :: l) ++ [ x ]) with (y :: (z :: l) ++ [ x ]).
  change ((z :: l) ++ [ x ]) with (z :: l ++ [ x ]) at 1.
  rewrite join_cons. change (z :: l ++ [ x ]) with ((z :: l) ++ [ x ]).
  rewrite IH by done. rewrite join_cons. by rewrite !append_assoc.
Qed.

(** X7. [namespaceAndKlassName] cuts a dotted name at its last dot: the
    class name has no dot, a name without a dot belongs to the root, and
    the namespace is the text before that dot, or what [NAMESPACE_MAP]
    gives for it. *)
Theorem namespaceAndKlassName_cuts_at_last_dot (fullName : string) :
  exists raw,
    (namespaceAndKlassName fullName).1 = lookup_or NAMESPACE_MAP raw
    /\ Str.has_char "." (namespaceAndKlassName fullName).2 = false
    /\ fullName
       = (if Str.has_char "." fullName
          then raw +:+ "." +:+ (namespaceAndKlassName fullName).2
          else (namespaceAndKlassName fullName).2)
    /\ (Str.has_char "." fullName = true \/ raw = "").
Proof.
  unfold namespaceAndKlassName, slice_init. simpl.
  pose proof (split_nonempty "." fullName) as Hne.
  pose proof (join_split "." fullName) as Hjoin.
  pose proof (split_no_sep "." fullName) as Hsep.
  pose proof (app_removelast_last "" Hne) as Hparts.
  set (parts := Str.split "." fullName) in *.
  exists (Str.join "." (removelast parts)). split; [done|].
  assert (Str.has_char "." (List.last parts "") = false) as Hlast.
  { apply Hsep. rewrite Hparts at 2. apply elem_of_app. right. left. }
  split; [done|].
  destruct (removelast parts) as [|p l] eqn:Hinit.
  - simpl in Hparts. rewrite Hparts in Hjoin. simpl in Hjoin.
    rewrite Hjoin in Hlast |- *. rewrite Hlast. split; [done|by right].
  - rewrite Hparts, join_snoc in Hjoin by done.
    assert (Str.has_char "." fullName = true) as ->.
    { rewrite <- Hjoin, !has_char_app. simpl. apply orb_true_r. }
    split; [done|by left].
Qed.

(** ** Relative names, in general *)

Lemma strip_prefix_app p s : Str.strip_prefix p (p +:+ s) = Some s.
Proof.
  induction p as [|a p IH]; [done|]. rewrite append_cons. simpl.
  assert (Str.eqb_ascii a a = true) as -> by apply Ascii.eqb_refl. done.
Qed.

Lemma strip_prefix_has_char c p s r :
  Str.strip_prefix p s = Some r -> Str.has_char c r = true ->
  Str.has_char c s = true.
Proof.
  revert s. induction p as [|a p IH]; intros s; simpl; [by intros [= ->]|].
  destruct s as [|b s]; [done|]. destruct (Str.eqb_ascii a b); [|done].
  intros H Hr. simpl. rewrite (IH _ H Hr). apply orb_true_r.
Qed.

Lemma strip_one_char c s r :
  Str.strip_prefix (String c "") s = Some r -> Str.has_char c s = true.
Proof.
  destruct s as [|a s]; simpl; [done|]. unfold Str.eqb_ascii.
  rewrite (Ascii.eqb_sym a c). by destruct (Ascii.eqb c a).
Qed.

(** The expression of [partsRegexp] takes the whole of the base when the
    name goes on below the base. *)
Lemma rmatch_parts {A} parts rest (k : string -> option A) x :
  parts <> [] -> k rest = Some x ->
  Re.rmatch (partsRegexp parts) (Str.join "." parts +:+ "." +:+ rest) k
  = Some x.
Proof.
  induction parts as [|p l IH]; [done|]. intros _ Hk.
  destruct l as [|q l].
  - simpl. rewrite strip_prefix_app. simpl. done.
  - rewrite join_cons, !append_assoc.
    change (partsRegexp (p :: q :: l))
      with (Re.Seq (Re.Seq (Re.Lit p) (Re.Lit "."))
              (Re.Opt (partsRegexp (q :: l)))).
    cbn [Re.rmatch]. rewrite strip_prefix_app.
    change ("." +:+ ?s) with (String "." s).
    cbn [Str.strip_prefix].
    assert (Str.eqb_ascii "." "." = true) as -> by done.
    rewrite IH by done. done.
Qed.

(** The expression of [partsRegexp] matches nothing without a dot. *)
Lemma rmatch_parts_dot {A} parts s (k : string -> option A) x :
  Re.rmatch (partsRegexp parts) s k = Some x -> Str.has_char "." s = true.
Proof.
  assert (forall p (k' : string -> option A),
            Re.rmatch (Re.Seq (Re.Lit p) (Re.Lit ".")) s k' = Some x ->
            Str.has_char "." s = true) as Hhead.
  { intros p k'. cbn [Re.rmatch].
    destruct (Str.strip_prefix p s) as [r|] eqn:E; [|done].
    destruct (Str.strip_prefix "." r) as [r'|] eqn:E'; [|done]. intros _.
    apply (strip_prefix_has_char _ _ _ _ E). by eapply strip_one_char. }
  destruct parts as [|p [|q l]].
  - apply Hhead.
  - apply Hhead.
  - change (partsRegexp (p :: q :: l))
      with (Re.Seq (Re.Seq (Re.Lit p) (Re.Lit "."))
              (Re.Opt (partsRegexp (q :: l)))).
    cbn [Re.rmatch]. intros H. eapply (Hhead p). simpl. exact H.
Qed.

(** X8. Seen from a class whose name is a dotted path of plain segments,
    a name that goes on below the name of the class loses the whole of
    that name, unless what is left is a built-in or the name has a fixed
    spelling; and a name without a dot, which is not a name that every
    object inherits, is not changed. The name meant is the one the first
    step of [relativeName] arrives at, [absoluteName]: the full name of
    the class found for the name under the base or a prefix of it, and
    the name itself when there is none. *)
Theorem relativeName_below_base (st : State) (name base rest : string) :
  plain_name base = true ->
  (absoluteName st name base = base +:+ "." +:+ rest ->
   Map_get (base +:+ "." +:+ rest) RELATIVE_NAMES = None ->
   Str.mem rest BUILT_IN = false ->
   relativeName st name base = rest)
  /\ (Str.has_char "." (absoluteName st name base) = false ->
      Str.mem (absoluteName st name base) INHERITED = false ->
      relativeName st name base = absoluteName st name base).
Proof.
  intros _. unfold relativeName, relativized, Re.strip. split.
  - intros -> -> Hrest.
    assert (Re.rmatch (partsRegexp (Str.split "." base))
              (base +:+ "." +:+ rest) Some = Some rest) as Hm.
    { rewrite <- (join_split "." base) at 2.
      by apply rmatch_parts; [apply split_nonempty|]. }
    by rewrite !Hm, Hrest.
  - intros Hdot _.
    destruct (Map_get _ RELATIVE_NAMES) as [fixed|] eqn:Hfix.
    { simpl in Hfix.
      destruct (String.eqb_spec (absoluteName st name base) "RSVP.Promise")
        as [Heq|]; [|done].
      rewrite Heq in Hdot. done. }
    destruct (Re.rmatch _ _ Some) as [r|] eqn:E.
    + apply rmatch_parts_dot in E. congruence.
    + by destruct (Str.mem _ BUILT_IN).
Qed.

Lemma relativeName_below_base_witness :
  relativeName init_state "Ember.Foo.Bar.Baz" "Ember.Foo.Bar" = "Baz"
  /\ relativeName init_state "Baz" "Ember.Foo.Bar" = "Baz".
Proof.
  split.
  - apply (proj1 (relativeName_below_base init_state "Ember.Foo.Bar.Baz"
                    "Ember.Foo.Bar" "Baz" eq_refl)); reflexivity.
  - apply (proj2 (relativeName_below_base init_state "Baz"
                    "Ember.Foo.Bar" "Baz" eq_refl)); reflexivity.
Defined.

(** ** The type converter, in general *)

Lemma mapR_ext {A B} (f g : A -> Result B) (l : list A) :
  (forall x, x ∈ l -> f x = g x) -> mapR f l = mapR g l.
Proof.
  induction l as [|x l IH]; intros H; simpl; [done|].
  rewrite (H x) by left. rewrite IH; [done|]. intros y Hy. apply H. by right.
Qed.

(** The fuel does not matter once it is above the length. *)
Lemma convertType_fuel_indep f1 : forall f2 st type relativeBase,
  String.length type < f1 -> String.length type < f2 ->
  convertType_fuel f1 st type relativeBase
  = convertType_fuel f2 st type relativeBase.
Proof.
  induction f1 as [|f1 IH]; intros f2 st type relativeBase H1 H2; [lia|].
  destruct f2 as [|f2]; [lia|]. simpl.
  pose proof (length_typeWord (barGenerics type)) as Hw.
  pose proof (length_barGenerics type) as Hb.
  destruct (Str.has_char "|" (typeWord (barGenerics type))) eqn:Hbar; [|done].
  rewrite (mapR_ext _ (fun t => convertType_fuel f2 st t relativeBase)); [done|].
  intros t Ht. apply (length_split_lt _ _ _ Hbar) in Ht. apply IH; lia.
Qed.

(** X9. [convertType] returns a type for every annotation of the
    modelled domain: seen from a class whose name is a dotted path of
    plain segments, in a state whose classes have such names, an
    annotation in which no inherited name occurs is converted without an
    error, and the recursion over the branches of a union comes to an
    end, however the bars, the angle brackets and the braces stand. The
    type does not depend on the depth allowed to the recursion, once that
    is above the length of the annotation. *)
Theorem convertType_returns (st : State) (type relativeBase : string) :
  plain_state st = true -> plain_name relativeBase = true ->
  plain_type type = true ->
  exists s,
    convertType st type relativeBase = Ok s
    /\ forall fuel, String.length type < fuel ->
                    convertType_fuel fuel st type relativeBase = Ok s.
Proof.
  intros _ _ _. destruct (convertType_ok st type relativeBase) as [s Hs].
  exists s. split; [done|]. intros fuel Hfuel. rewrite <- Hs.
  unfold convertType. apply convertType_fuel_indep; lia.
Qed.

Lemma convertType_returns_witness :
  exists s,
    convertType Doc.one_class "Array<String,Number>|Foo" "Ember.Foo" = Ok s
    /\ forall fuel, 24 < fuel ->
          convertType_fuel fuel Doc.one_class "Array<String,Number>|Foo"
            "Ember.Foo" = Ok s.
Proof.
  apply (convertType_returns Doc.one_class "Array<String,Number>|Foo"
           "Ember.Foo"); reflexivity.
Defined.

(** ** Members, in general *)

Lemma new_ClassItem_throws st data id K :
  constructible data = false ->
  new_ClassItem st data id K
  = Throw ("Not a method but has params; name=" +:+ i_name data
           +:+ ", type=" +:+ i_itemtype data).
Proof.
  intros Hc. unfold new_ClassItem, constructible in *.
  destruct (i_params data) as [ps|]; [|done]. rewrite Hc.
  assert (String.eqb (i_itemtype data) "event" = false) as He.
  { destruct (String.eqb (i_itemtype data) "event"); [done|done]. }
  rewrite He.
  destruct (i_type data) as [t|]; [|done].
  destruct (Str.truthy t); [|done].
  by destruct (convertType_ok st t (k_fullName K)) as [s ->].
Qed.

(** X10. In the modelled domain, where the class has a name that is a
    dotted path of plain segments, the classes of the state have such
    names and no inherited name occurs in the annotations of the record,
    [new ClassItem] fails in one case only, a record with [params] that is
    neither a method nor an event, and then with the message that names
    the item and its kind. In every other case it returns the item: an
    event is a method, the item belongs to the class it was built for,
    and it is private when its record says so. *)
Theorem new_ClassItem_outcome (st : State) (data : ItemData) (id : nat)
  (K : Klass) :
  plain_state st = true -> plain_name (k_fullName K) = true ->
  plain_item data = true ->
  if constructible data then
    exists item,
      new_ClassItem st data id K = Ok item
      /\ ci_data item = data /\ ci_name item = i_name data
      /\ ci_klass item = id
      /\ ci_itemType item
         = (if String.eqb (i_itemtype data) "event" then "method"
            else i_itemtype data)
      /\ ci_static item = i_static data
      /\ ci_private item = bool_decide (i_access data = Some "private")
      /\ (is_Some (ci_params item) <-> is_Some (i_params data))
  else
    new_ClassItem st data id K
    = Throw ("Not a method but has params; name=" +:+ i_name data
             +:+ ", type=" +:+ i_itemtype data).
Proof.
  intros _ _ _.
  destruct (constructible data) eqn:Hc; [|by apply new_ClassItem_throws].
  destruct (new_ClassItem_ok st data id K Hc) as (item & Hnew & Hd & Hk).
  exists item. split; [done|]. split; [done|].
  revert Hnew. unfold new_ClassItem, constructible in *.
  destruct (match i_type data with Some _ => _ | None => _ end);
    simpl; [|done..].
  destruct (i_params data) as [ps|] eqn:Hps.
  - rewrite Hc.
    destruct (mapR _ ps) as [l| |]; simpl; [|done..].
    destruct (match i_return data with Some _ => _ | None => _ end);
      simpl; [|done..].
    intros [= <-]. simpl. repeat split; eauto.
  - simpl.
    destruct (match i_return data with Some _ => _ | None => _ end);
      simpl; [|done..].
    intros [= <-]. simpl. repeat split; try done; by intros [? ?].
Qed.

Lemma new_ClassItem_outcome_witness :
  (exists item,
     new_ClassItem Doc.one_class Doc.foo_string 0 Doc.A = Ok item
     /\ ci_data item = Doc.foo_string /\ ci_name item = "foo"
     /\ ci_klass item = 0 /\ ci_itemType item = "property"
     /\ ci_static item = false /\ ci_private item = false
     /\ (is_Some (ci_params item) <-> is_Some (@None (list ParamData))))
  /\ new_ClassItem Doc.one_class Sample.stray 0 Doc.A
     = Throw "Not a method but has params; name=foo, type=attribute".
Proof.
  split.
  - apply (new_ClassItem_outcome Doc.one_class Doc.foo_string 0 Doc.A);
      reflexivity.
  - apply (new_ClassItem_outcome Doc.one_class Sample.stray 0 Doc.A);
      reflexivity.
Defined.

(** X11. A static member called [create] that documents no return value
    returns the class it belongs to, and is stored under [static:create],
    the key a child looks up in its parent. A documented return value
    without a type is [void]. *)
Theorem new_ClassItem_returnType (st : State) (data : ItemData) (id : nat)
  (K : Klass) (item : ClassItem) :
  new_ClassItem st data id K = Ok item ->
  (i_return data = None -> i_static data = true -> i_name data = "create" ->
   ci_returnType item = Some (k_name K) /\ key item = "static:create")
  /\ (i_return data = Some {| r_type := None |} ->
      ci_returnType item = Some "void")
  /\ (i_return data = None ->
      i_static data = false \/ i_name data <> "create" ->
      ci_returnType item = None).
Proof.
  unfold new_ClassItem.
  destruct (match i_type data with Some _ => _ | None => _ end);
    simpl; [|done..].
  destruct (match i_params data with Some _ => _ | None => _ end);
    simpl; [|done..].
  destruct (i_return data) as [r|] eqn:Hr.
  - destruct (match r_type r with Some _ => _ | None => _ end) eqn:Hrt;
      simpl; [|done..].
    intros [= <-]. simpl. split; [done|]. split; [|done].
    intros [= ->]. simpl in Hrt. by injection Hrt as <-.
  - destruct (i_static data && String.eqb (i_name data) "create") eqn:Hsc;
      simpl; intros [= <-]; simpl.
    + apply andb_true_iff in Hsc as [Hs Hn%String.eqb_eq].
      split; [|split; [done|]].
      * intros _ _ _. unfold key. simpl. by rewrite Hs, Hn.
      * intros _ [H|H]; congruence.
    + split; [|done]. intros _ Hs Hn. rewrite Hs, Hn in Hsc. done.
Qed.

Lemma new_ClassItem_returnType_witness :
  exists item,
    new_ClassItem Doc.factory_loaded Doc.create_item 0
      (new_Klass "P" (Doc.klass "Ember.P" None None).2) = Ok item
    /\ ci_returnType item = Some "P" /\ key item = "static:create".
Proof.
  eexists. split; [reflexivity|].
  apply (proj1 (new_ClassItem_returnType Doc.factory_loaded Doc.create_item 0
                  (new_Klass "P" (Doc.klass "Ember.P" None None).2) _
                  eq_refl)); reflexivity.
Defined.



(** ** Declarations, in general *)

Lemma restIndex_None params :
  restIndex params = None -> Forall (fun q => p_rest q = false) params.
Proof.
  induction params as [|q params IH]; simpl; [by constructor|].
  destruct (p_rest q) eqn:Hq; [done|].
  destruct (restIndex params); simpl; [done|]. intros _. constructor; auto.
Qed.

Lemma Forall_removelast {A} (P : A -> Prop) (l : list A) :
  Forall P l -> Forall P (removelast l).
Proof.
  induction 1 as [|x l Hx Hl IH]; simpl; [constructor|].
  destruct l; [constructor|]. by constructor.
Qed.

(** X13. In the parameter list of a declaration a rest parameter can only
    be the last one: the first declaration stops at the first rest
    parameter, the second one has none. *)
Theorem shownParams_rest_last (params : list ClassItemParam) :
  Forall (fun q => p_rest q = false) (removelast (shownParams params false))
  /\ Forall (fun q => p_rest q = false) (shownParams params true).
Proof.
  split; unfold shownParams.
  - destruct (restIndex params) as [i|] eqn:Hi.
    + destruct (restIndex_Some _ _ Hi) as (p & Hp & _ & Hall).
      rewrite (take_S_r _ _ _ Hp), removelast_last. exact Hall.
    + by apply Forall_removelast, restIndex_None.
  - apply List.Forall_forall. intros q [_ Hq]%filter_In.
    by destruct (p_rest q).
Qed.

(** X14. A member with no rest parameter, or whose only rest parameter is
    the last of its parameters, has one declaration, and that declaration
    lists every parameter. *)
Theorem declarations_once (K : Klass) (item : ClassItem) :
  (forall j p, default [] (ci_params item) !! j = Some p ->
               p_rest p = true ->
               S j = length (default [] (ci_params item))) ->
  declarations K item = [ render K item (default [] (ci_params item)) ].
Proof.
  intros Hlast. unfold declarations, buildDeclaration, shownParams.
  destruct (ci_params item) as [params|]; simpl in *; [|done].
  destruct (restIndex params) as [i|] eqn:Hi; [|done].
  destruct (restIndex_Some _ _ Hi) as (p & Hp & Hr & _).
  pose proof (Hlast i p Hp Hr) as Hlen.
  replace (length params - 1) with i by lia. rewrite Nat.eqb_refl. simpl.
  rewrite Hlen, firstn_all. done.
Qed.

Lemma declarations_once_witness :
  new_ClassItem Doc.one_class Sample.foo_ab_data 0 Doc.A = Ok Sample.foo_ab
  /\ declarations Doc.A Sample.foo_ab = [ "foo(a: string, ...b: number[])" ].
Proof.
  split; [reflexivity|].
  apply (declarations_once Doc.A Sample.foo_ab).
  intros [|[|j]] p; simpl; [intros [= <-]; discriminate|done|done].
Defined.

(** ** Attaching the items *)

Lemma strip_prefix_Some p s r : Str.strip_prefix p s = Some r -> s = p +:+ r.
Proof.
  revert s. induction p as [|a p IH]; intros s; simpl.
  - by intros [= ->].
  - destruct s as [|b s]; [done|].
    destruct (Str.eqb_ascii a b) eqn:E; [|done].
    intros H. apply IH in H as ->. rewrite append_cons. f_equal.
    symmetry. exact (proj1 (Ascii.eqb_eq a b) E).
Qed.

(** X15. [ignoreItem] holds of [Ember.Templates] and of the names below
    it, names that begin with [Ember.Templates.], and of no other name. *)
Theorem ignoreItem_below_templates (name : string) :
  ignoreItem name = true
  <-> name = "Ember.Templates"
      \/ exists rest, name = "Ember.Templates." +:+ rest.
Proof.
  unfold ignoreItem, IGNORE. cbn [existsb]. rewrite orb_false_r, orb_true_iff.
  split.
  - intros [H|H]; [left; by apply String.eqb_eq|right].
    destruct (Str.strip_prefix _ name) as [r|] eqn:E; [|done].
    exists r. by apply strip_prefix_Some in E.
  - intros [->|[rest ->]]; [by left|right].
    change ("Ember.Templates" +:+ ".") with "Ember.Templates.".
    by rewrite strip_prefix_app.
Qed.

Lemma ignoreItem_below_templates_witness :
  ignoreItem "Ember.Templates.helpers" = true.
Proof.
  apply (proj2 (ignoreItem_below_templates "Ember.Templates.helpers")).
  right. by exists "helpers".
Defined.

Lemma Map_set_fresh {V} k (v : V) m :
  Map_get k m = None -> Map_set k v m = m ++ [ (k, v) ].
Proof.
  induction m as [|[k' v'] m IH]; simpl; [done|].
  destruct (String.eqb k k'); [done|]. intros H. by rewrite IH.
Qed.

(** X16. The item of a record that is the first of its key goes to the end
    of the members of its class, with no warning: the members keep the
    order of the document. Nothing else in the state changes. *)
Theorem attachItem_appends (st : State) (data : ItemData)
  (id : nat) (K : Klass) (item : ClassItem) :
  ignoreItem (i_class data) = false ->
  Klass_find st (i_class data) false = Ok (Some (id, K)) ->
  Str.truthy (i_name data) = true ->
  Str.mem (i_itemtype data) [ "method"; "property"; "event" ] = true ->
  new_ClassItem st data id K = Ok item ->
  Map_get (key item) (k_items K) = None ->
  exists st',
    attachItem data st = Ok st'
    /\ items_of st' id = k_items K ++ [ (key item, item) ]
    /\ warnings st' = warnings st
    /\ root st' = root st
    /\ forall j, j <> id -> heap st' !! j = heap st !! j.
Proof.
  intros Hign Hfind Hname Htype Hnew Hold.
  pose proof (Klass_find_heap _ _ _ _ _ Hfind) as Hheap.
  unfold attachItem, bind. rewrite Hign, Hfind, Hname, Htype, Hnew.
  cbn [andb]. unfold Map_has. rewrite Hold.
  eexists. split; [reflexivity|].
  rewrite (items_of_items_set _ _ _ _ K) by exact Hheap.
  split; [by apply Map_set_fresh|].
  unfold items_set. rewrite warnings_update, root_update.
  split; [done|]. split; [done|]. intros j Hj. by apply heap_update_ne.
Qed.

Lemma attachItem_appends_witness :
  exists st',
    attachItem Doc.foo_string Doc.one_class = Ok st'
    /\ items_of st' 0 = [ ("foo", Doc.string_item) ]
    /\ warnings st' = [].
Proof.
  destruct (attachItem_appends Doc.one_class Doc.foo_string 0 Doc.A
              Doc.string_item eq_refl eq_refl eq_refl eq_refl eq_refl eq_refl)
    as (st' & H & Hi & Hw & _).
  by exists st'.
Defined.

(** X17. A record of an ignored class, a record without a name and a
    record that is not a method, a property or an event are passed over:
    the state stays as it is, and such a record may have [params] without
    the error of [new ClassItem]. *)
Theorem attachItem_passes_over (st : State) (data : ItemData) :
  ignoreItem (i_class data) = true
  \/ (exists id K,
        Klass_find st (i_class data) false = Ok (Some (id, K))
        /\ (i_name data = ""
            \/ Str.mem (i_itemtype data) [ "method"; "property"; "event" ]
               = false)) ->
  attachItem data st = Ok st.
Proof.
  unfold attachItem. intros [->|(id & K & -> & H)]; [done|].
  destruct (ignoreItem (i_class data)); [done|]. unfold bind.
  destruct H as [->| ->]; [done|]. by rewrite andb_false_r.
Qed.

Lemma attachItem_passes_over_witness :
  attachItem Sample.stray Doc.one_class = Ok Doc.one_class
  /\ constructible Sample.stray = false.
Proof.
  split; [|reflexivity].
  apply (attachItem_passes_over Doc.one_class Sample.stray).
  right. exists 0, Doc.A. split; [reflexivity|]. by right.
Defined.

(** X18. What [docs.classitems.forEach] can do with one record of the
    modelled domain, one whose class name is a dotted path of plain
    segments and in whose annotations no inherited name occurs, in a state
    whose classes have such names. When it returns, the namespaces and the
    classes are those of before, each class with its record, its names
    and its flag, the warnings of before are still there, and only the
    class of the record can differ. When it throws, it is the error of the
    lookup of the class, whose namespace is missing, or the error of
    [new ClassItem]. *)
Theorem attachItem_outcome (st : State) (data : ItemData) :
  plain_state st = true -> plain_name (i_class data) = true ->
  plain_item data = true ->
  match attachItem data st with
  | Ok st' =>
      shape st st'
      /\ (exists new, warnings st' = warnings st ++ new)
      /\ forall j, heap st' !! j = heap st !! j
                   \/ exists K, Klass_find st (i_class data) false
                                = Ok (Some (j, K))
  | Throw msg =>
      msg = "No namespace found; name=" +:+ i_class data
      \/ msg = "Not a method but has params; name=" +:+ i_name data
               +:+ ", type=" +:+ i_itemtype data
  | OutOfFuel => False
  end.
Proof.
  intros _ _ _. unfold attachItem.
  destruct (ignoreItem (i_class data)).
  { split; [apply shape_refl|]. split; [exists []; by rewrite app_nil_r|].
    by left. }
  destruct (Klass_find st (i_class data) false) as [[[id K]|]| |] eqn:Hfind;
    unfold bind.
  - destruct (Str.truthy (i_name data)
              && Str.mem (i_itemtype data) [ "method"; "property"; "event" ]).
    + destruct (constructible data) eqn:Hc.
      * destruct (new_ClassItem_ok st data id K Hc) as (item & -> & _).
        simpl. unfold items_set.
        split; [|split].
        -- eapply shape_trans; [|apply shape_update, field_ok_set_items].
           destruct (Map_has _ _); [apply shape_warn|apply shape_refl].
        -- rewrite warnings_update. destruct (Map_has _ _); simpl; eauto.
           exists []. by rewrite app_nil_r.
        -- intros j. destruct (decide (j = id)) as [->|Hj]; [right; eauto|].
           left. rewrite heap_update_ne by done. by destruct (Map_has _ _).
      * rewrite (new_ClassItem_throws _ _ _ _ Hc). simpl. by right.
    + split; [apply shape_refl|]. split; [exists []; by rewrite app_nil_r|].
      by left.
  - split; [apply shape_warn|]. split; [simpl; eauto|]. by left.
  - left. revert Hfind. unfold Klass_find.
    destruct (Namespace_for _ _ _).2; [done|]. by intros [= <-].
  - revert Hfind. unfold Klass_find. by destruct (Namespace_for _ _ _).2.
Qed.

Lemma attachItem_outcome_witness :
  match attachItem Doc.foo_number Doc.one_class_foo with
  | Ok st' =>
      shape Doc.one_class_foo st'
      /\ (exists new, warnings st' = warnings Doc.one_class_foo ++ new)
      /\ forall j, heap st' !! j = heap Doc.one_class_foo !! j
                   \/ exists K, Klass_find Doc.one_class_foo "A" false
                                = Ok (Some (j, K))
  | Throw msg =>
      msg = "No namespace found; name=A"
      \/ msg = "Not a method but has params; name=foo, type=property"
  | OutOfFuel => False
  end.
Proof.
  apply (attachItem_outcome Doc.one_class_foo Doc.foo_number); reflexivity.
Defined.

(** ** Resolution, in general *)

(** A call on an unresolved class runs the three blocks, one after the
    other, from the state [entered]. *)
Lemma postProcess_blocks fuel id st st' K :
  heap st !! id = Some K -> k_postProcessed K = false ->
  postProcess fuel id st = Ok st' ->
  exists fuel' st1 st2,
    fuel = S fuel'
    /\ extendsBlock (postProcess fuel') id K (entered id K st) = Ok st1
    /\ usesBlock id K st1 = Ok st2
    /\ implementsBlock (postProcess fuel') id st2 = Ok st'.
Proof.
  intros HK Hflag. destruct fuel as [|fuel]; [done|].
  rewrite (postProcess_unfold _ _ _ _ HK Hflag).
  unfold postProcess_body. fold (entered id K st).
  destruct (extendsBlock _ _ _ _) as [st1| |] eqn:E1; simpl; [|done..].
  destruct (usesBlock _ _ _) as [st2| |] eqn:E2; simpl; [|done..].
  intros H. by exists fuel, st1, st2.
Qed.

Lemma entered_shape id K st : shape st (entered id K st).
Proof.
  unfold entered. eapply shape_trans; [apply shape_set_postProcessed|].
  apply shape_update, field_ok_set_isNamespace.
Qed.

Lemma entered_lookup id K st :
  heap st !! id = Some K ->
  heap (entered id K st) !! id
  = Some (set_isNamespace
            (present (Namespace_for (k_fullName K) false (root st)).2)
            (set_postProcessed K)).
Proof.
  intros HK. unfold entered. rewrite root_update.
  apply heap_update_eq. by apply heap_update_eq.
Qed.

Lemma entered_warnings id K st : warnings (entered id K st) = warnings st.
Proof. unfold entered. by rewrite !warnings_update. Qed.

Lemma entered_resolved id K st :
  heap st !! id = Some K -> resolved (entered id K st) id.
Proof. intros HK. eexists. by rewrite (entered_lookup _ _ _ HK). Qed.

(** The warnings of before are the first warnings of after. *)
Lemma postProcess_warnings fuel : forall id st st',
  postProcess fuel id st = Ok st' -> warnings st `prefix_of` warnings st'.
Proof.
  induction fuel as [|fuel IH]; intros id st st'; [done|].
  destruct (heap st !! id) as [K|] eqn:HK;
    [|simpl; rewrite HK; by intros [= ->]].
  destruct (k_postProcessed K) eqn:Hflag.
  { rewrite (postProcess_resolved _ _ _ _ HK Hflag). by intros [= ->]. }
  rewrite (postProcess_unfold _ _ _ _ HK Hflag). intros H.
  apply (postProcess_body_pass _ id
           (fun s s' => warnings s `prefix_of` warnings s')) in H.
  - by rewrite warnings_update in H.
  - done.
  - intros s1 s2 s3 H1 H2. by etrans.
  - intros s msg. by apply prefix_app_r.
  - apply IH.
  - intros. by rewrite warnings_update.
  - intros. by rewrite warnings_update.
  - intros. by rewrite warnings_update.
  - intros. unfold items_set. by rewrite warnings_update.
  - intros. unfold items_set. by rewrite warnings_update.
  - intros. unfold items_set. by rewrite warnings_update.
Qed.

(** X19. What a call of [postProcess] that returns leaves in place: the
    namespaces, the number of classes, the record and the names of every
    class, every flag that was set, every class that was resolved when the
    call began, and the warnings of before, to which it can only add. The
    class it was called on is resolved when it returns. *)
Theorem postProcess_leaves_in_place (fuel id : nat) (st st' : State) :
  postProcess fuel id st = Ok st' ->
  shape st st' /\ keeps None st st'
  /\ warnings st `prefix_of` warnings st'
  /\ (is_Some (heap st !! id) -> resolved st' id).
Proof.
  intros H. destruct (postProcess_frames _ _ _ _ H) as [Hs Hk].
  split; [done|]. split; [done|].
  split; [by eapply postProcess_warnings|].
  intros [K HK]. by eapply postProcess_flags.
Qed.

Lemma postProcess_leaves_in_place_witness :
  shape Doc.factory_loaded Doc.factory_resolved
  /\ keeps None Doc.factory_loaded Doc.factory_resolved
  /\ warnings Doc.factory_loaded `prefix_of` warnings Doc.factory_resolved
  /\ (is_Some (heap Doc.factory_loaded !! 1) ->
      resolved Doc.factory_resolved 1).
Proof.
  apply (postProcess_leaves_in_place 3 1 Doc.factory_loaded
           Doc.factory_resolved).
  reflexivity.
Defined.

Lemma field_kept_refl {A} (f : Klass -> A) id st : field_kept f id st st.
Proof. by intros H. Qed.

Lemma field_kept_trans {A} (f : Klass -> A) id st1 st2 st3 :
  field_kept f id st1 st2 -> field_kept f id st2 st3 ->
  field_kept f id st1 st3.
Proof.
  intros H1 H2 Hr. destruct (H1 Hr) as (Hr2 & Hi2).
  destruct (H2 Hr2) as (Hr3 & Hi3). split; [done|congruence].
Qed.

Lemma field_kept_same {A} (f : Klass -> A) id st st' :
  heap st' !! id = heap st !! id -> field_kept f id st st'.
Proof.
  intros H (K & HK & Hflag). unfold resolved. rewrite H, HK.
  split; [by exists K|done].
Qed.

Lemma field_kept_update {A} (f : Klass -> A) id g st :
  field_ok g -> (forall K, f (g K) = f K) ->
  field_kept f id st (update id g st).
Proof.
  intros Hg Hf (K & HK & Hflag). unfold resolved.
  rewrite (heap_update_eq _ _ _ _ HK), HK. split.
  - eexists. split; [done|]. destruct (Hg K) as (_ & _ & _ & ->). done.
  - simpl. by rewrite Hf.
Qed.

Lemma field_kept_rec {A} (f : Klass -> A) fuel id x st st' :
  postProcess fuel x st = Ok st' -> field_kept f id st st'.
Proof.
  intros Hx Hr. apply postProcess_frames in Hx as [_ Hk].
  apply (field_kept_same f id st st'); [|done].
  destruct Hr as (Kr & HKr & Hflag). rewrite HKr. by apply Hk.
Qed.

(** The blocks after the first keep [isNamespace]. *)
Lemma blocks_isNamespace_kept fuel id K st st1 st2 st' :
  extendsBlock (postProcess fuel) id K st = Ok st1 ->
  usesBlock id K st1 = Ok st2 ->
  implementsBlock (postProcess fuel) id st2 = Ok st' ->
  field_kept k_isNamespace id st st'.
Proof.
  intros E1 E2 E3.
  apply (field_kept_trans _ _ _ st1); [|apply (field_kept_trans _ _ _ st2)].
  - revert E1. apply (extendsBlock_pass _ id (field_kept k_isNamespace id)).
    + apply field_kept_refl.
    + apply field_kept_trans.
    + intros s msg. by apply field_kept_same.
    + intros x s s'. apply field_kept_rec.
    + intros. by apply field_kept_update; [apply field_ok_set_extends|].
    + intros. by apply field_kept_update; [apply field_ok_set_items|].
  - revert E2. apply (usesBlock_pass id (field_kept k_isNamespace id)).
    + apply field_kept_refl.
    + intros. by apply field_kept_update; [apply field_ok_set_implements|].
  - revert E3. apply (implementsBlock_pass _ id (field_kept k_isNamespace id)).
    + apply field_kept_refl.
    + apply field_kept_trans.
    + intros s msg. by apply field_kept_same.
    + intros x s s'. apply field_kept_rec.
    + intros. by apply field_kept_update; [apply field_ok_set_items|].
    + intros. by apply field_kept_update; [apply field_ok_set_items|].
Qed.

(** X20. A class that [postProcess] has resolved is marked as a namespace
    exactly when a namespace stands at the path of its full name; nothing
    that the call does afterwards, in this class or in the classes it
    reaches, changes the mark. *)
Theorem postProcess_isNamespace (fuel id : nat) (st st' : State) (K : Klass) :
  heap st !! id = Some K -> k_postProcessed K = false ->
  postProcess fuel id st = Ok st' ->
  exists K',
    heap st' !! id = Some K'
    /\ k_isNamespace K'
       = Some (present (ns_at (path_of (k_fullName K)) (root st))).
Proof.
  intros HK Hflag H.
  destruct (postProcess_blocks _ _ _ _ _ HK Hflag H)
    as (fuel' & st1 & st2 & -> & E1 & E2 & E3).
  destruct (blocks_isNamespace_kept _ _ _ _ _ _ _ E1 E2 E3
              (entered_resolved _ _ _ HK)) as ((K' & HK' & _) & Hf).
  exists K'. split; [done|].
  rewrite HK', (entered_lookup _ _ _ HK) in Hf. simpl in Hf.
  injection Hf as ->. unfold Namespace_for. by rewrite for_walk_lookup.
Qed.

Lemma postProcess_isNamespace_witness :
  exists K',
    heap Doc.factory_resolved !! 1 = Some K'
    /\ k_isNamespace K' = Some false.
Proof.
  apply (postProcess_isNamespace 3 1 Doc.factory_loaded Doc.factory_resolved
           (new_Klass "C" (Doc.klass "Ember.C" (Some "Ember.P") None).2));
    reflexivity.
Defined.

Lemma Klass_find_entered id K st name allow :
  match Klass_find st name allow with
  | Ok (Some _) => True
  | r => Klass_find (entered id K st) name allow = r
  end.
Proof.
  pose proof (Klass_find_shape st (entered id K st) name allow
                (entered_shape id K st)) as H.
  destruct (Klass_find st name allow) as [[[i Ki]|]| |],
           (Klass_find (entered id K st) name allow) as [[[i' Ki']|]| |];
    try done.
  by rewrite H.
Qed.

(** The blocks after the first keep the [extends] link. *)
Lemma tail_extends_kept fuel id K st1 st2 st' :
  usesBlock id K st1 = Ok st2 ->
  implementsBlock (postProcess fuel) id st2 = Ok st' ->
  field_kept k_extends id st1 st'.
Proof.
  intros E2 E3. apply (field_kept_trans _ _ _ st2).
  - revert E2. apply (usesBlock_pass id (field_kept k_extends id)).
    + apply field_kept_refl.
    + intros. by apply field_kept_update; [apply field_ok_set_implements|].
  - revert E3. apply (implementsBlock_pass _ id (field_kept k_extends id)).
    + apply field_kept_refl.
    + apply field_kept_trans.
    + intros s msg. by apply field_kept_same.
    + intros x s s'. apply field_kept_rec.
    + intros. by apply field_kept_update; [apply field_ok_set_items|].
    + intros. by apply field_kept_update; [apply field_ok_set_items|].
Qed.

(** X21. An [extends] target that is no registered class, in a namespace
    that exists: the call records the warning, leaves the [extends] link
    of the class as it was and goes on; for a class without mixins it
    returns with that one warning. An [extends] target in a namespace that
    does not exist makes the lookup throw, and the call with it. *)
Theorem postProcess_missing_parent (fuel id : nat) (st : State) (K : Klass)
  (parent : string) :
  heap st !! id = Some K -> k_postProcessed K = false ->
  d_extends (k_data K) = Some parent -> Str.truthy parent = true ->
  (Klass_find st parent false = Ok None ->
   (forall st', postProcess fuel id st = Ok st' ->
      warnings st ++ [ missing_parent K parent ] `prefix_of` warnings st'
      /\ k_extends <$> heap st' !! id = Some (k_extends K))
   /\ (d_uses (k_data K) = None -> k_implements K = None ->
       exists st', postProcess (S fuel) id st = Ok st'
                   /\ warnings st' = warnings st ++ [ missing_parent K parent ]))
  /\ (forall msg, Klass_find st parent false = Throw msg ->
        postProcess (S fuel) id st = Throw msg).
Proof.
  intros HK Hflag Hext Hp. split.
  - intros Hfind.
    pose proof (Klass_find_entered id K st parent false) as Hfind'.
    rewrite Hfind in Hfind'. split.
    + intros st' H.
      destruct (postProcess_blocks _ _ _ _ _ HK Hflag H)
        as (fuel' & st1 & st2 & -> & E1 & E2 & E3).
      unfold extendsBlock in E1. rewrite Hext, Hp, Hfind' in E1.
      simpl in E1. injection E1 as <-.
      destruct (tail_extends_kept _ _ _ _ _ _ E2 E3) as [_ Hf].
      { apply (entered_resolved _ _ _ HK). }
      split.
      * assert (warnings (warn (missing_parent K parent) (entered id K st))
                `prefix_of` warnings st') as Hw.
        { trans (warnings st2).
          - revert E2. apply (usesBlock_pass id
              (fun s s' => warnings s `prefix_of` warnings s')); [done|].
            intros. by rewrite warnings_update.
          - revert E3. apply (implementsBlock_pass _ id
              (fun s s' => warnings s `prefix_of` warnings s')).
            + done.
            + intros s1 s2' s3 H1 H2. by etrans.
            + intros s msg. by apply prefix_app_r.
            + intros x s s'. apply postProcess_warnings.
            + intros. unfold items_set. by rewrite warnings_update.
            + intros. unfold items_set. by rewrite warnings_update. }
        simpl in Hw. by rewrite entered_warnings in Hw.
      * rewrite Hf. simpl. by rewrite (entered_lookup _ _ _ HK).
    + intros Hu Hi. rewrite (postProcess_unfold _ _ _ _ HK Hflag).
      unfold postProcess_body. fold (entered id K st).
      unfold extendsBlock. rewrite Hext, Hp, Hfind'. simpl.
      unfold usesBlock. rewrite Hu. simpl. unfold implementsBlock. simpl.
      rewrite (entered_lookup _ _ _ HK). simpl. rewrite Hi.
      eexists. split; [done|]. simpl. by rewrite entered_warnings.
  - intros msg Hfind.
    pose proof (Klass_find_entered id K st parent false) as Hfind'.
    rewrite Hfind in Hfind'.
    rewrite (postProcess_unfold _ _ _ _ HK Hflag).
    unfold postProcess_body. fold (entered id K st).
    unfold extendsBlock. by rewrite Hext, Hp, Hfind'.
Qed.

Lemma postProcess_missing_parent_witness :
  exists st',
    postProcess 1 0 Sample.orphan = Ok st'
    /\ warnings st' = [ "Can't find extended class; child=A parent=Nope" ].
Proof.
  apply (proj2 (proj1 (postProcess_missing_parent 0 0 Sample.orphan
                         (new_Klass "A" (Doc.klass "A" (Some "Nope") None).2)
                         "Nope" eq_refl eq_refl eq_refl eq_refl) eq_refl));
    reflexivity.
Defined.

(** ** Members through resolution *)

Lemma members_kept_refl st : members_kept st st.
Proof. intros j. split; [done|]. intros k i H. exists i. auto. Qed.

Lemma members_kept_trans st1 st2 st3 :
  members_kept st1 st2 -> members_kept st2 st3 -> members_kept st1 st3.
Proof.
  intros H1 H2 j. destruct (H1 j) as [Hp1 Hi1], (H2 j) as [Hp2 Hi2].
  split; [by etrans|]. intros k i Hk.
  destruct (Hi1 k i Hk) as (i1 & Hk1 & Hc1).
  destruct (Hi2 k i1 Hk1) as (i2 & Hk2 & Hc2).
  exists i2. split; [done|].
  destruct Hc1 as [?|[->| ->]]; [by left|done|].
  destruct Hc2 as [?|[->| ->]]; auto.
Qed.

Lemma members_kept_same st st' :
  (forall j, items_of st' j = items_of st j) -> members_kept st st'.
Proof.
  intros H j. rewrite H. split; [done|]. intros k i Hk. exists i. auto.
Qed.

Lemma items_of_update id f st j :
  (forall K, k_items (f K) = k_items K) ->
  items_of (update id f st) j = items_of st j.
Proof.
  intros Hf. unfold items_of. rewrite heap_update.
  destruct (decide (j = id)) as [->|]; [|done].
  destruct (heap st !! id) as [K|]; simpl; [apply Hf|done].
Qed.

Lemma items_of_items_set_ne st id j k item :
  j <> id -> items_of (items_set id k item st) j = items_of st j.
Proof.
  intros Hj. unfold items_of, items_set. by rewrite heap_update_ne.
Qed.

Lemma Map_set_prefix {V} k (v : V) m : m.*1 `prefix_of` (Map_set k v m).*1.
Proof.
  destruct (Map_get k m) as [old|] eqn:E.
  - rewrite Map_set_keys; [done|]. unfold Map_has. by rewrite E.
  - rewrite (Map_set_fresh _ _ _ E), fmap_app. by apply prefix_app_r.
Qed.

Lemma members_kept_set id name item st K :
  heap st !! id = Some K ->
  (forall old, Map_get name (k_items K) = Some old ->
               name = "static:create" \/ item = old
               \/ item = set_private false old) ->
  members_kept st (items_set id name item st).
Proof.
  intros HK Hold j. destruct (decide (j = id)) as [->|Hj].
  - rewrite (items_of_items_set _ _ _ _ _ HK).
    assert (items_of st id = k_items K) as -> by (unfold items_of; by rewrite HK).
    split; [apply Map_set_prefix|]. intros k i Hk.
    destruct (String.eqb_spec name k) as [<-|Hne].
    + rewrite Map_get_set_eq. eexists. split; [done|]. by apply Hold.
    + rewrite (Map_get_set_ne _ _ _ _ Hne). exists i. auto.
  - rewrite (items_of_items_set_ne _ _ _ _ _ Hj). split; [done|].
    intros k i Hk. exists i. auto.
Qed.

Lemma merge_step_refl id st : merge_step id st st.
Proof.
  split; [apply shape_refl|]. split; [apply keeps_refl|apply members_kept_refl].
Qed.

Lemma merge_step_trans id st1 st2 st3 :
  merge_step id st1 st2 -> merge_step id st2 st3 -> merge_step id st1 st3.
Proof.
  intros (?&?&?) (?&?&?). split; [by eapply shape_trans|].
  split; [by eapply keeps_trans|by eapply members_kept_trans].
Qed.

Lemma merge_step_warn id st msg : merge_step id st (warn msg st).
Proof.
  split; [apply shape_warn|]. split; [apply keeps_warn|].
  by apply members_kept_same.
Qed.

Lemma merge_step_update id f st :
  field_ok f -> (forall K, k_items (f K) = k_items K) ->
  merge_step id st (update id f st).
Proof.
  intros Hf Hi. split; [by apply shape_update|]. split; [apply keeps_update|].
  apply members_kept_same. intros j. by apply items_of_update.
Qed.

Lemma merge_step_set id name item st K :
  heap st !! id = Some K ->
  (forall old, Map_get name (k_items K) = Some old ->
               name = "static:create" \/ item = old
               \/ item = set_private false old) ->
  merge_step id st (items_set id name item st).
Proof.
  intros HK Hold. split; [apply shape_update, field_ok_set_items|].
  split; [apply keeps_update|by eapply members_kept_set].
Qed.

(** A call is such a step, for any class. *)
Lemma postProcess_merge_step fuel : forall id x st st',
  postProcess fuel x st = Ok st' -> merge_step id st st'.
Proof.
  induction fuel as [|fuel IH]; intros id0 id st st'; [done|].
  destruct (heap st !! id) as [K|] eqn:HK;
    [|simpl; rewrite HK; intros [= ->]; apply merge_step_refl].
  destruct (k_postProcessed K) eqn:Hflag.
  { rewrite (postProcess_resolved _ _ _ _ HK Hflag). intros [= ->].
    apply merge_step_refl. }
  intros H. pose proof (postProcess_frames _ _ _ _ H) as [Hs Hk].
  split; [done|]. split; [by apply keeps_weaken|].
  rewrite (postProcess_unfold _ _ _ _ HK Hflag) in H.
  apply (postProcess_body_pass _ id (merge_step id)) in H.
  - destruct H as (_ & _ & H).
    eapply members_kept_trans; [|exact H].
    apply members_kept_same. intros j. by apply items_of_update.
  - apply merge_step_refl.
  - apply merge_step_trans.
  - apply merge_step_warn.
  - apply IH.
  - intros. by apply merge_step_update; [apply field_ok_set_isNamespace|].
  - intros. by apply merge_step_update; [apply field_ok_set_extends|].
  - intros. by apply merge_step_update; [apply field_ok_set_implements|].
  - intros s Ks data item HKs _. apply (merge_step_set _ _ _ _ _ HKs). auto.
  - intros s Ks name data item HKs Hnone _.
    apply (merge_step_set _ _ _ _ _ HKs). intros old. by rewrite Hnone.
  - intros s Ks name existing HKs Hsome _.
    apply (merge_step_set _ _ _ _ _ HKs). intros old. rewrite Hsome.
    intros [= <-]. auto.
Qed.

(** X22. Resolution never takes a member away. When a call of
    [postProcess] returns, every class has the keys it had, in the order
    they were in, before any new key; and under every key but
    [static:create] it has the item it had, which the call has made
    public at most. *)
Theorem postProcess_keeps_members (fuel id : nat) (st st' : State) :
  postProcess fuel id st = Ok st' -> members_kept st st'.
Proof. intros H. by destruct (postProcess_merge_step _ id _ _ _ H) as (_&_&?). Qed.

Lemma postProcess_keeps_members_witness :
  members_kept Doc.factory_loaded Doc.factory_resolved.
Proof.
  apply (postProcess_keeps_members 3 1 Doc.factory_loaded Doc.factory_resolved).
  reflexivity.
Defined.

(** ** Mixins are flattened *)

Lemma Map_get_elem {V} k (v : V) m : Map_get k m = Some v -> (k, v) ∈ m.
Proof.
  induction m as [|[k' v'] m IH]; simpl; [done|].
  destruct (String.eqb_spec k k') as [->|].
  - intros [= ->]. by left.
  - intros H. right. by apply IH.
Qed.

Lemma mergeItem_merge_step id entry st st' :
  mergeItem id entry st = Ok st' -> merge_step id st st'.
Proof.
  apply (mergeItem_pass id (merge_step id)).
  - apply merge_step_refl.
  - apply merge_step_trans.
  - apply merge_step_warn.
  - intros s Ks name data item HKs Hnone _.
    apply (merge_step_set _ _ _ _ _ HKs). intros old. by rewrite Hnone.
  - intros s Ks name existing HKs Hsome _.
    apply (merge_step_set _ _ _ _ _ HKs). intros old. rewrite Hsome.
    intros [= <-]. auto.
Qed.

Lemma mergeImpl_merge_step fuel id k st st' :
  mergeImpl (postProcess fuel) id k st = Ok st' -> merge_step id st st'.
Proof.
  apply (mergeImpl_pass _ id (merge_step id)).
  - apply merge_step_refl.
  - apply merge_step_trans.
  - apply merge_step_warn.
  - intros x s s'. apply postProcess_merge_step.
  - intros s Ks name data item HKs Hnone _.
    apply (merge_step_set _ _ _ _ _ HKs). intros old. by rewrite Hnone.
  - intros s Ks name existing HKs Hsome _.
    apply (merge_step_set _ _ _ _ _ HKs). intros old. rewrite Hsome.
    intros [= <-]. auto.
Qed.

Lemma Map_has_kept st st' j k :
  members_kept st st' -> Map_has k (items_of st j) = true ->
  Map_has k (items_of st' j) = true.
Proof.
  intros H. unfold Map_has.
  destruct (Map_get k (items_of st j)) as [i|] eqn:E; [|done]. intros _.
  destruct (H j) as [_ Hi]. by destruct (Hi k i E) as (i' & -> & _).
Qed.

Lemma others_same_keeps id st st' j :
  j <> id -> shape st st' -> keeps (Some id) st st' ->
  heap st !! j = None \/ resolved st j ->
  heap st' !! j = heap st !! j.
Proof.
  intros Hj Hs Hk [Hnone|(K & HK & Hflag)].
  - rewrite Hnone. apply lookup_ge_None. destruct Hs as (_ & -> & _).
    by apply lookup_ge_None.
  - rewrite HK. apply Hk; [congruence|done..].
Qed.

Lemma mergeItem_has id name i st st' :
  is_Some (heap st !! id) -> ci_private i = false ->
  mergeItem id (name, i) st = Ok st' ->
  Map_has name (items_of st' id) = true.
Proof.
  intros [K HK] Hp. unfold mergeItem. rewrite Hp, HK.
  destruct (Map_get name (k_items K)) as [existing|] eqn:Hget.
  - destruct (ci_private existing); intros [= <-].
    + rewrite (items_of_items_set _ _ _ _ K) by done.
      unfold Map_has. by rewrite Map_get_set_eq.
    + unfold Map_has, items_of. by rewrite HK, Hget.
  - destruct (new_ClassItem _ _ _ _) as [item| |]; simpl; [|done..].
    intros [= <-]. rewrite (items_of_items_set _ _ _ _ K) by done.
    unfold Map_has. by rewrite Map_get_set_eq.
Qed.

Lemma shape_is_Some st st' j :
  shape st st' -> is_Some (heap st !! j) -> is_Some (heap st' !! j).
Proof. intros (_ & _ & H) [K HK]. destruct (H j K HK) as (K' & -> & _). eauto. Qed.

Lemma forEach_mergeItem_has id l : forall st st',
  is_Some (heap st !! id) ->
  forEach (mergeItem id) l st = Ok st' ->
  forall name i, (name, i) ∈ l -> ci_private i = false ->
                 Map_has name (items_of st' id) = true.
Proof.
  induction l as [|x l IH]; intros st st' Hid; simpl.
  { intros _ name i H. by apply elem_of_nil in H. }
  destruct (mergeItem id x st) as [st1| |] eqn:E1; simpl; [|done..].
  intros E name i [Heq|Hin]%elem_of_cons Hp.
  - subst x. pose proof (mergeItem_has _ _ _ _ _ Hid Hp E1) as Hhas.
    assert (merge_step id st1 st') as (_ & _ & Hm).
    { revert E. apply (forEach_pass (merge_step id)).
      - apply merge_step_refl.
      - apply merge_step_trans.
      - apply mergeItem_merge_step. }
    by eapply Map_has_kept.
  - eapply (IH st1); [|done..].
    eapply shape_is_Some; [|done]. by eapply mergeItem_shape.
Qed.

Lemma mergeImpl_covers fuel id m st st' :
  resolved st id ->
  mergeImpl (postProcess fuel) id (ImplKlass m) st = Ok st' ->
  covers st' id m /\ (heap st' !! m = None \/ resolved st' m).
Proof.
  intros (Kid & HKid & Hflag). simpl.
  destruct (postProcess fuel m st) as [st1| |] eqn:E1; simpl; [|done..].
  intros E.
  pose proof (postProcess_frames _ _ _ _ E1) as [Hs1 Hk1].
  assert (merge_step id st1 st') as (Hs & Hk & Hm).
  { revert E. apply (forEach_pass (merge_step id)).
    - apply merge_step_refl.
    - apply merge_step_trans.
    - apply mergeItem_merge_step. }
  assert (heap st1 !! m = None \/ resolved st1 m) as Hm1.
  { destruct (heap st !! m) as [Km|] eqn:HKm.
    - right. by eapply postProcess_flags.
    - left. apply lookup_ge_None. destruct Hs1 as (_ & -> & _).
      by apply lookup_ge_None. }
  split.
  - intros k i Hget Hp. destruct (decide (m = id)) as [->|Hne].
    { unfold Map_has. by rewrite Hget. }
    assert (items_of st' m = items_of st1 m) as Hsame.
    { unfold items_of. by rewrite (others_same_keeps id st1 st' m). }
    rewrite Hsame in Hget. apply Map_get_elem in Hget.
    eapply (forEach_mergeItem_has id _ st1 st'); [|done..].
    eapply shape_is_Some; [done|]. by eexists.
  - destruct Hm1 as [Hnone|Hr]; [left|right; by eapply resolved_shape].
    apply lookup_ge_None. destruct Hs as (_ & -> & _). by apply lookup_ge_None.
Qed.

Lemma covers_step id m st st' :
  covers st id m -> heap st !! m = None \/ resolved st m ->
  merge_step id st st' -> covers st' id m.
Proof.
  intros Hc Hm (Hs & Hk & Hmk) k i Hget Hp.
  destruct (decide (m = id)) as [->|Hne].
  { unfold Map_has. by rewrite Hget. }
  assert (items_of st' m = items_of st m) as Hsame.
  { unfold items_of. by rewrite (others_same_keeps id st st' m). }
  rewrite Hsame in Hget. eapply Map_has_kept; [done|]. by eapply Hc.
Qed.

Lemma forEach_mergeImpl_covers fuel id impls : forall st st',
  resolved st id ->
  forEach (mergeImpl (postProcess fuel) id) impls st = Ok st' ->
  forall m, ImplKlass m ∈ impls -> covers st' id m.
Proof.
  induction impls as [|x l IH]; intros st st' Hr; simpl.
  { intros _ m H. by apply elem_of_nil in H. }
  destruct (mergeImpl _ id x st) as [st1| |] eqn:E1; simpl; [|done..].
  intros E m [Heq|Hin]%elem_of_cons.
  - subst x. destruct (mergeImpl_covers _ _ _ _ _ Hr E1) as [Hc Hm].
    eapply covers_step; [done..|].
    revert E. apply (forEach_pass (merge_step id)).
    + apply merge_step_refl.
    + apply merge_step_trans.
    + intros k s s'. apply mergeImpl_merge_step.
  - eapply (IH st1); [|done..].
    destruct (mergeImpl_merge_step _ _ _ _ _ E1) as (Hs & _).
    by eapply resolved_shape.
Qed.

(** X23. Mixins are flattened into the class. When a call of
    [postProcess] on a class returns, the class has a member under the key
    of every public member of every class in its [implements] list. *)
Theorem postProcess_flattens_mixins (fuel id : nat) (st st' : State)
  (K : Klass) (impls : list Impl) (m : nat) :
  heap st !! id = Some K -> k_postProcessed K = false ->
  postProcess fuel id st = Ok st' ->
  heap st' !! id ≫= k_implements = Some impls ->
  ImplKlass m ∈ impls ->
  covers st' id m.
Proof.
  intros HK Hflag H Himpls Hm.
  destruct (postProcess_blocks _ _ _ _ _ HK Hflag H)
    as (fuel' & st1 & st2 & -> & E1 & E2 & E3).
  assert (shape (entered id K st) st2) as Hs.
  { apply (shape_trans _ st1).
    - revert E1. apply (extendsBlock_pass _ id shape).
      + apply shape_refl.
      + apply shape_trans.
      + intros. apply shape_warn.
      + intros x s s' Hx. by apply postProcess_frames in Hx as [? _].
      + pass_steps (shape_assign id).
      + pass_steps (shape_assign id).
    - revert E2. apply (usesBlock_pass id shape); [apply shape_refl|].
      pass_steps (shape_assign id). }
  assert (resolved st2 id) as Hr.
  { eapply resolved_shape; [done|]. by apply entered_resolved. }
  destruct (implementsBlock_implements_kept _ _ _ _ E3 Hr) as [_ Hkept].
  rewrite Himpls in Hkept. unfold implementsBlock in E3.
  rewrite <- Hkept in E3. by eapply forEach_mergeImpl_covers.
Qed.

Lemma postProcess_flattens_mixins_witness :
  covers Sample.mixin_resolved 0 1.
Proof.
  apply (postProcess_flattens_mixins 3 0 Sample.mixin_loaded
           Sample.mixin_resolved
           (new_Klass "A" (Doc.klass "A" None (Some [ "M" ])).2)
           [ ImplKlass 1 ] 1); try reflexivity.
  by left.
Defined.

(** ** Every member in its place *)

Lemma new_ClassItem_fields st data id K item :
  new_ClassItem st data id K = Ok item ->
  ci_data item = data /\ ci_klass item = id
  /\ ci_static item = i_static data /\ ci_name item = i_name data.
Proof.
  unfold new_ClassItem.
  destruct (match i_type data with Some _ => _ | None => _ end);
    simpl; [|done..].
  destruct (match i_params data with Some _ => _ | None => _ end);
    simpl; [|done..].
  destruct (match i_return data with Some _ => _ | None => _ end);
    simpl; [|done..].
  by intros [= <-].
Qed.

Lemma new_ClassItem_item_ok st i id K item name :
  entry_keyed (name, i) ->
  new_ClassItem st (ci_data i) id K = Ok item -> item_ok id name item.
Proof.
  intros (j & Hkey & _ & Hs & Hn) (Hd & Hk & Hs' & Hn')%new_ClassItem_fields.
  simpl in *. unfold item_ok, key in *.
  rewrite Hd, Hs', Hn', <- Hs, <- Hn. done.
Qed.

Lemma elem_of_Map_set {V} k (v : V) m e :
  e ∈ Map_set k v m -> e = (k, v) \/ e ∈ m.
Proof.
  induction m as [|[k' v'] m IH]; simpl.
  - intros [->|H]%elem_of_cons; [by left|by apply elem_of_nil in H].
  - destruct (String.eqb k k').
    + intros [->|H]%elem_of_cons; [by left|right; by right].
    + intros [->|H]%elem_of_cons; [right; by left|].
      destruct (IH H) as [->|?]; [by left|right; by right].
Qed.

Lemma well_keyed_same st st' :
  (forall j, items_of st' j = items_of st j) ->
  length (heap st') = length (heap st) ->
  well_keyed st -> well_keyed st'.
Proof.
  intros Hi Hl Hw j K' k i HK' Hin.
  destruct (heap st !! j) as [K|] eqn:HK.
  - apply (Hw j K k i HK). specialize (Hi j). unfold items_of in Hi.
    rewrite HK, HK' in Hi. by rewrite <- Hi.
  - apply lookup_ge_None in HK. apply lookup_lt_Some in HK'. lia.
Qed.

Lemma well_keyed_update id f st :
  (forall K, k_items (f K) = k_items K) ->
  well_keyed st -> well_keyed (update id f st).
Proof.
  intros Hf. apply well_keyed_same; [|apply length_heap_update].
  intros j. by apply items_of_update.
Qed.

Lemma well_keyed_warn msg st : well_keyed st -> well_keyed (warn msg st).
Proof. done. Qed.

Lemma well_keyed_set id name item st :
  item_ok id name item -> well_keyed st ->
  well_keyed (items_set id name item st).
Proof.
  intros Hitem Hw j K' k i HK' Hin. unfold items_set in HK'.
  rewrite heap_update in HK'. destruct (decide (j = id)) as [->|Hj].
  - destruct (heap st !! id) as [K|] eqn:HK; simpl in HK'; [|done].
    injection HK' as <-. simpl in Hin.
    apply elem_of_Map_set in Hin as [[= -> ->]|Hin]; [done|].
    by apply (Hw id K).
  - by apply (Hw j K').
Qed.

Lemma item_ok_public j k i :
  item_ok j k i -> item_ok j k (set_private false i).
Proof. done. Qed.

Lemma forEach_inv {A} (I : State -> Prop) (f : A -> State -> Result State)
  (l : list A) :
  (forall x st st', x ∈ l -> I st -> f x st = Ok st' -> I st') ->
  forall st st', I st -> forEach f l st = Ok st' -> I st'.
Proof.
  induction l as [|x l IH]; intros Hf st st' HI; simpl.
  - by intros [= <-].
  - destruct (f x st) as [st1| |] eqn:E; simpl; [|done..].
    apply IH.
    + intros y s s' Hy. apply Hf. by right.
    + eapply Hf; [by left|done..].
Qed.

Lemma mergeItem_well_keyed id entry st st' :
  entry_keyed entry -> well_keyed st ->
  mergeItem id entry st = Ok st' -> well_keyed st'.
Proof.
  destruct entry as [name i]. intros He Hw. unfold mergeItem.
  destruct (ci_private i); [by intros [= <-]|].
  destruct (heap st !! id) as [K|] eqn:HK; [|by intros [= <-]].
  destruct (Map_get name (k_items K)) as [existing|] eqn:Hget.
  - destruct (ci_private existing); intros [= <-]; [|done].
    apply well_keyed_set; [|done]. apply item_ok_public.
    apply (Hw id K); [done|]. by apply Map_get_elem.
  - destruct (new_ClassItem _ _ _ _) as [item| |] eqn:Hnew; simpl; [|done..].
    intros [= <-]. apply well_keyed_set; [|done].
    by eapply new_ClassItem_item_ok.
Qed.

Lemma well_keyed_entries st m :
  well_keyed st -> Forall entry_keyed (items_of st m).
Proof.
  intros Hw. unfold items_of.
  destruct (heap st !! m) as [K|] eqn:HK; [|constructor].
  apply Forall_forall. intros [k i] Hin. exists m. by apply (Hw m K).
Qed.

Lemma postProcess_well_keyed fuel : forall id st st',
  well_keyed st -> postProcess fuel id st = Ok st' -> well_keyed st'.
Proof.
  induction fuel as [|fuel IH]; intros id st st' Hw; [done|].
  destruct (heap st !! id) as [K|] eqn:HK;
    [|simpl; rewrite HK; by intros [= <-]].
  destruct (k_postProcessed K) eqn:Hflag.
  { rewrite (postProcess_resolved _ _ _ _ HK Hflag). by intros [= <-]. }
  intros H.
  destruct (postProcess_blocks _ _ _ _ _ HK Hflag H)
    as (fuel' & st1 & st2 & [= <-] & E1 & E2 & E3).
  assert (well_keyed (entered id K st)) as Hw0.
  { unfold entered. by repeat apply well_keyed_update. }
  assert (well_keyed st1) as Hw1.
  { revert E1. unfold extendsBlock.
    destruct (d_extends (k_data K)) as [parent|]; [|by intros [= <-]].
    destruct (Str.truthy parent); [|by intros [= <-]].
    destruct (Klass_find _ parent false) as [[[pid P]|]| |]; simpl;
      [| |done..]; [|by intros [= <-]].
    destruct (postProcess fuel pid _) as [s| |] eqn:Ep; simpl; [|done..].
    assert (well_keyed s) as Hs.
    { eapply IH; [|done]. by apply well_keyed_update. }
    destruct (Map_get "static:create" (items_of s pid)) as [pc|] eqn:Hpc;
      [|by intros [= <-]].
    destruct (heap s !! id) as [K'|]; [|by intros [= <-]].
    destruct (new_ClassItem _ _ _ _) as [item| |] eqn:Hnew; simpl; [|done..].
    intros [= <-]. apply well_keyed_set; [|done].
    eapply new_ClassItem_item_ok; [|done].
    apply Map_get_elem in Hpc.
    pose proof (well_keyed_entries s pid Hs) as Hall.
    rewrite Forall_forall in Hall. by apply Hall. }
  assert (well_keyed st2) as Hw2.
  { revert E2. unfold usesBlock.
    destruct (d_uses (k_data K)) as [uses|]; [|by intros [= <-]].
    destruct (resolveUses st1 uses) as [impls| |]; simpl; [|done..].
    destruct impls; intros [= <-]; [done|]. by apply well_keyed_update. }
  revert E3. unfold implementsBlock.
  destruct (heap st2 !! id ≫= k_implements) as [impls|]; [|by intros [= <-]].
  apply forEach_inv; [|done].
  intros [s|kid] s1 s2 _ Hs1; simpl; [by intros [= <-]|].
  destruct (postProcess fuel kid s1) as [s3| |] eqn:Ek; simpl; [|done..].
  assert (well_keyed s3) as Hs3 by (by eapply IH).
  pose proof (well_keyed_entries s3 kid Hs3) as Hall.
  rewrite Forall_forall in Hall.
  apply forEach_inv; [|done].
  intros e sa sb He Hsa. apply mergeItem_well_keyed; [by apply Hall|done].
Qed.

Lemma attachItem_well_keyed data st st' :
  well_keyed st -> attachItem data st = Ok st' -> well_keyed st'.
Proof.
  intros Hw. unfold attachItem.
  destruct (ignoreItem (i_class data)); [by intros [= <-]|].
  destruct (Klass_find st (i_class data) false) as [[[id K]|]| |];
    unfold bind; [| |done..]; [|by intros [= <-]].
  destruct (Str.truthy (i_name data)
            && Str.mem (i_itemtype data) [ "method"; "property"; "event" ]);
    [|by intros [= <-]].
  destruct (new_ClassItem st data id K) as [item| |] eqn:Hnew; [|done..].
  intros [= <-]. apply new_ClassItem_fields in Hnew as (Hd & Hk & Hs & Hn).
  apply well_keyed_set.
  - unfold item_ok. by rewrite Hd.
  - by destruct (Map_has _ _).
Qed.

(** ** The whole load *)

Lemma Klass_create_cases fullName data st :
  (exists st', Klass_create fullName data st = (st', None)
               /\ heap st' = heap st)
  \/ (exists st', Klass_create fullName data st
                  = (st', Some (length (heap st)))
                  /\ heap st'
                     = heap st
                       ++ [ new_Klass (namespaceAndKlassName fullName).2 data ]).
Proof.
  unfold Klass_create.
  destruct (Namespace_for _ true (root st)) as [root' [ns|]]; simpl.
  - destruct (Map_has _ (ns_classes ns)); simpl; eauto.
  - eauto.
Qed.

Lemma foldl_inv {A B} (I : B -> Prop) (f : B -> A -> B) (l : list A) :
  (forall b a, I b -> I (f b a)) -> forall b, I b -> I (foldl f b l).
Proof.
  intros Hf. induction l as [|a l IH]; intros b Hb; simpl; [done|].
  by apply IH, Hf.
Qed.

Lemma well_keyed_snoc st st' K :
  heap st' = heap st ++ [ K ] -> k_items K = [] ->
  well_keyed st -> well_keyed st'.
Proof.
  intros Hh Hi Hw j Kj k i HKj Hin. rewrite Hh in HKj.
  apply lookup_app_Some in HKj as [HKj|[_ HKj]]; [by apply (Hw j Kj)|].
  apply list_lookup_singleton_Some in HKj as [_ <-].
  rewrite Hi in Hin. by apply elem_of_nil in Hin.
Qed.

Lemma well_keyed_heap st st' :
  heap st' = heap st -> well_keyed st -> well_keyed st'.
Proof. intros Hh Hw j K k i. rewrite Hh. apply Hw. Qed.

Lemma tree_below_child bound ns name child :
  tree_below bound ns -> Map_get name (ns_namespaces ns) = Some child ->
  tree_below bound child.
Proof.
  intros H E q n k id Hq. apply (H (name :: q) n k id). simpl. by rewrite E.
Qed.

Lemma tree_below_new bound name parent :
  tree_below bound (new_Namespace name parent).
Proof. intros [|b q] n k id; simpl; [by intros [= <-]|done]. Qed.

Lemma tree_below_set_child bound ns name child' :
  tree_below bound ns -> tree_below bound child' ->
  tree_below bound
    (with_namespaces ns (Map_set name child' (ns_namespaces ns))).
Proof.
  intros H Hc [|b q] n k id; simpl.
  - intros [= <-]. simpl. by apply (H [] ns).
  - destruct (String.eqb_spec name b) as [<-|Hne].
    + rewrite Map_get_set_eq. apply Hc.
    + rewrite Map_get_set_ne by done. intros Hq.
      apply (H (b :: q) n k id). by simpl.
Qed.

Lemma tree_below_walk bound parts : forall ns,
  tree_below bound ns -> tree_below bound (for_walk true parts ns).1.
Proof.
  induction parts as [|name rest IH]; intros ns H; simpl; [done|].
  destruct (Map_get name (ns_namespaces ns)) as [child|] eqn:E.
  - specialize (IH child (tree_below_child _ _ _ _ H E)).
    destruct (for_walk true rest child) as [child' found]. simpl in *.
    by apply tree_below_set_child.
  - specialize (IH _ (tree_below_new bound (Some name) (Some ns))).
    destruct (for_walk true rest _) as [child' found]. simpl in *.
    by apply tree_below_set_child.
Qed.

Lemma tree_below_set_class bound p k id : forall ns,
  id < bound -> tree_below bound ns ->
  tree_below bound (ns_set_class p k id ns).
Proof.
  induction p as [|name rest IH]; intros ns Hid H; simpl.
  - intros [|b q] n k' id'; simpl.
    + intros [= <-]. simpl. destruct (String.eqb_spec k k') as [<-|Hne].
      * rewrite Map_get_set_eq. by intros [= <-].
      * rewrite Map_get_set_ne by done. by apply (H [] ns).
    + intros Hq. by apply (H (b :: q) n k' id').
  - destruct (Map_get name (ns_namespaces ns)) as [child|] eqn:E; [|done].
    apply tree_below_set_child; [done|].
    apply IH; [done|]. by eapply tree_below_child.
Qed.

Lemma tree_below_mono b b' ns : b <= b' -> tree_below b ns -> tree_below b' ns.
Proof. intros Hle H q n k id Hq Hk. specialize (H q n k id Hq Hk). lia. Qed.

(** [Klass.create] keeps the classes of the namespaces in the heap, and
    the name it was given is the name of a class from then on. *)
Lemma Klass_create_tree fullName data st :
  tree_below (length (heap st)) (root st) ->
  tree_below (length (heap (Klass_create fullName data st).1))
    (root (Klass_create fullName data st).1)
  /\ forall allow, exists id K,
       Klass_find (Klass_create fullName data st).1 fullName allow
       = Ok (Some (id, K)).
Proof.
  intros Ht.
  destruct (Klass_create fullName data st) as [st' o] eqn:Ec.
  pose proof Ec as Ec'. revert Ec'. unfold Klass_create, Namespace_for.
  pose proof (tree_below_walk _ (path_of (namespaceAndKlassName fullName).1)
                _ Ht) as Hw.
  destruct (for_walk_create (path_of (namespaceAndKlassName fullName).1)
              (root st)) as (root' & found & Hwalk & Hat & _).
  rewrite Hwalk in Hw |- *. simpl in Hw.
  unfold Map_has.
  destruct (Map_get _ (ns_classes found)) as [i|] eqn:Hget.
  - intros [= <- <-]. simpl. split; [done|]. intros allow.
    rewrite Klass_find_at. cbn [root heap warn set_root].
    rewrite Hat, Hget. cbn [mbind option_bind].
    destruct (lookup_lt_is_Some_2 (heap st) i) as [K HK].
    { by apply (Hw _ _ _ _ Hat Hget). }
    rewrite HK. simpl. eauto.
  - intros [= <- <-]. simpl. split.
    + rewrite length_app. simpl. apply tree_below_set_class; [lia|].
      eapply tree_below_mono; [|done]. lia.
    + intros allow. eexists _, _.
      by apply (Klass_create_fresh fullName data st _ _ allow Ec).
Qed.

Lemma Klass_create_registered fullName data st ids :
  registered (st, ids) ->
  registered
    match Klass_create fullName data st with
    | (st', Some id) => (st', ids ++ [ id ])
    | (st', None) => (st', ids)
    end
  /\ length (heap (Klass_create fullName data st).1) <= S (length (heap st)).
Proof.
  intros (Hw & Hids & Ht). simpl in *.
  destruct (Klass_create_tree fullName data st Ht) as [Ht' _].
  destruct (Klass_create_cases fullName data st)
    as [(st' & Ec & Hh)|(st' & Ec & Hh)]; rewrite Ec in Ht' |- *;
    simpl in *; rewrite Hh.
  - split; [|lia]. split; simpl; [by eapply well_keyed_heap|].
    rewrite Hh. split; [done|]. by rewrite Hh in Ht'.
  - rewrite length_app. simpl. split; [|lia].
    split; simpl; [by eapply well_keyed_snoc|].
    rewrite Hh, length_app in *. simpl in *. split; [|done].
    intros j Hj. apply elem_of_app.
    destruct (decide (j = length (heap st))) as [->|]; [right; by left|].
    left. apply Hids. lia.
Qed.

Lemma registerClass_registered e acc :
  registered acc ->
  registered (registerClass e acc)
  /\ length (heap (registerClass e acc).1) <= S (length (heap acc.1)).
Proof.
  destruct acc as [st ids], e as [name data]. intros H. simpl.
  destruct (ignoreItem name); [split; [done|simpl; lia]|].
  destruct (Klass_create_registered name data st ids H) as [H1 H2].
  by destruct (Klass_create name data st) as [st' [id|]].
Qed.

Lemma registerAdditional_registered n acc :
  registered acc ->
  registered (registerAdditional n acc)
  /\ length (heap (registerAdditional n acc).1) <= S (length (heap acc.1)).
Proof.
  destruct acc as [st ids]. intros H. simpl.
  pose proof (Klass_create_registered n
    {| d_name := n; d_extends := None; d_uses := None; d_access := None |}
    st ids H) as [H1 H2].
  by destruct (Klass_create n _ st) as [st' [id|]].
Qed.

Lemma foldl_registered {A} (f : A -> State * list nat -> State * list nat)
  (l : list A) :
  (forall a acc, registered acc ->
     registered (f a acc)
     /\ length (heap (f a acc).1) <= S (length (heap acc.1))) ->
  forall acc, registered acc ->
    registered (foldl (fun acc a => f a acc) acc l)
    /\ length (heap (foldl (fun acc a => f a acc) acc l).1)
       <= length l + length (heap acc.1).
Proof.
  intros Hf. induction l as [|a l IH]; intros acc Hacc; simpl; [split; [done|lia]|].
  destruct (Hf a acc Hacc) as [H1 H2].
  destruct (IH _ H1) as [H3 H4]. split; [done|lia].
Qed.

Lemma registerAdditional_state n st ids :
  (registerAdditional n (st, ids)).1
  = (Klass_create n {| d_name := n; d_extends := None; d_uses := None;
                       d_access := None |} st).1.
Proof. simpl. by destruct (Klass_create n _ st) as [st' [id|]]. Qed.

Lemma foldl_registerAdditional_keeps names : forall acc other id K,
  Klass_find acc.1 other false = Ok (Some (id, K)) ->
  Klass_find (foldl (fun acc n => registerAdditional n acc) acc names).1
    other false = Ok (Some (id, K)).
Proof.
  induction names as [|n names IH]; intros [st ids] other id K H; [done|].
  cbn [foldl]. apply IH. rewrite registerAdditional_state.
  by apply Klass_create_other.
Qed.

Lemma foldl_registerAdditional_found names : forall acc n,
  tree_below (length (heap acc.1)) (root acc.1) -> n ∈ names ->
  exists id K,
    Klass_find (foldl (fun acc n => registerAdditional n acc) acc names).1
      n false = Ok (Some (id, K)).
Proof.
  induction names as [|a names IH]; intros [st ids] n Ht Hn;
    [by apply elem_of_nil in Hn|].
  cbn [foldl].
  pose proof (Klass_create_tree a
    {| d_name := a; d_extends := None; d_uses := None; d_access := None |}
    st Ht) as [Ht' Hfound].
  rewrite <- (registerAdditional_state a st ids) in Ht', Hfound.
  apply elem_of_cons in Hn as [->|Hn].
  - destruct (Hfound false) as (id & K & H). exists id, K.
    by apply foldl_registerAdditional_keeps.
  - by apply IH.
Qed.

Lemma attachItem_shape data st st' :
  attachItem data st = Ok st' -> shape st st'.
Proof.
  unfold attachItem.
  destruct (ignoreItem (i_class data)); [intros [= <-]; apply shape_refl|].
  destruct (Klass_find st (i_class data) false) as [[[id K]|]| |];
    unfold bind; [| |done..]; [|intros [= <-]; apply shape_warn].
  destruct (Str.truthy (i_name data)
            && Str.mem (i_itemtype data) [ "method"; "property"; "event" ]);
    [|intros [= <-]; apply shape_refl].
  destruct (new_ClassItem st data id K) as [item| |]; [|done..].
  intros [= <-]. unfold items_set.
  eapply shape_trans; [|apply shape_update, field_ok_set_items].
  destruct (Map_has _ _); [apply shape_warn|apply shape_refl].
Qed.

Lemma attachItem_fuel data st : attachItem data st <> OutOfFuel.
Proof.
  unfold attachItem.
  destruct (ignoreItem (i_class data)); [done|].
  pose proof (Klass_find_fuel st (i_class data) false) as Hf.
  destruct (Klass_find st (i_class data) false) as [[[id K]|]| |];
    unfold bind; [| |done..]; [|done].
  destruct (Str.truthy (i_name data)
            && Str.mem (i_itemtype data) [ "method"; "property"; "event" ]);
    [|done].
  pose proof (new_ClassItem_fuel st data id K) as Hn.
  by destruct (new_ClassItem st data id K) as [item| |].
Qed.

Lemma forEach_shape {A} (f : A -> State -> Result State) (l : list A) :
  (forall x st st', f x st = Ok st' -> shape st st') ->
  forall st st', forEach f l st = Ok st' -> shape st st'.
Proof. intros Hf. by apply (forEach_pass shape shape_refl shape_trans). Qed.

Lemma unresolved_le st : unresolved st <= length (heap st).
Proof. unfold unresolved. apply List.filter_length_le. Qed.

(** The state in which the last loop of [load] starts, and the classes it
    goes through. *)
Lemma load_stages fuel classes classitems :
  match forEach attachItem classitems
          (foldl (fun acc e => registerClass e acc) (init_state, [])
             classes).1 with
  | Ok st1 =>
      exists st2 ids,
        load fuel classes classitems = forEach (postProcess fuel) ids st2
        /\ registered (st2, ids)
        /\ length (heap st2) <= length classes + length ADDITIONAL_CLASSES
        /\ forall n, n ∈ ADDITIONAL_CLASSES ->
             exists id K, Klass_find st2 n false = Ok (Some (id, K))
  | Throw msg => load fuel classes classitems = Throw msg
  | OutOfFuel => False
  end.
Proof.
  unfold load.
  destruct (foldl_registered registerClass classes registerClass_registered
              (init_state, [])) as [(Hw & Hids & Ht) Hlen].
  { split; [|split; [simpl; lia|]].
    - intros j K k i Hj. simpl in Hj. by rewrite lookup_nil in Hj.
    - apply tree_below_new. }
  destruct (foldl _ (init_state, []) classes) as [st ids] eqn:Ef.
  simpl in Hw, Hids, Ht, Hlen. cbn [fst].
  assert (forEach attachItem classitems st <> OutOfFuel) as Hfuel.
  { apply (forEach_fuel (unresolved st)); [|apply attachItem_shape|done].
    intros x s _. apply attachItem_fuel. }
  destruct (forEach attachItem classitems st) as [st1| |] eqn:E1;
    unfold bind; [|done|].
  - pose proof (forEach_shape _ _ attachItem_shape _ _ E1) as (Hr & Hl & _).
    assert (well_keyed st1) as Hw1.
    { revert E1. apply forEach_inv; [|done].
      intros x s s' _. apply attachItem_well_keyed. }
    destruct (foldl_registered registerAdditional ADDITIONAL_CLASSES
                registerAdditional_registered (st1, ids)) as [H2 Hlen2].
    { split; simpl; [exact Hw1|]. by rewrite Hl, Hr. }
    pose proof (fun n => foldl_registerAdditional_found ADDITIONAL_CLASSES
                           (st1, ids) n) as Hfound.
    destruct (foldl _ (st1, ids) ADDITIONAL_CLASSES) as [st2 ids2].
    exists st2, ids2. split; [done|]. split; [done|].
    split; [simpl in Hlen2 |- *; lia|].
    intros n Hn. apply Hfound; [|done]. simpl. by rewrite Hl, Hr.
  - done.
Qed.

(** X24. The load comes to an end: with more fuel than there are classes
    in the document and in [ADDITIONAL_CLASSES], the recursion of
    [postProcess] is never cut short, whatever the classes extend or use. *)
Theorem load_terminates (fuel : nat) (classes : list (string * ClassData))
  (classitems : list ItemData) :
  length classes + length ADDITIONAL_CLASSES < fuel ->
  load fuel classes classitems <> OutOfFuel.
Proof.
  intros Hfuel. pose proof (load_stages fuel classes classitems) as H.
  destruct (forEach attachItem classitems _) as [st1| |]; [|by rewrite H|done].
  destruct H as (st2 & ids & -> & _ & Hlen & _).
  apply (forEach_fuel (fuel - 1)).
  - intros x s Hs. apply postProcess_fuel. lia.
  - intros x s s' Hx. by apply postProcess_frames in Hx as [? _].
  - pose proof (unresolved_le st2). lia.
Qed.

Lemma load_terminates_witness : Doc.cycle <> OutOfFuel.
Proof.
  apply (load_terminates 8
           [ Doc.klass "A" (Some "B") None; Doc.klass "B" (Some "A") None ] []).
  vm_compute. lia.
Defined.

Lemma forEach_postProcess_resolves fuel ids : forall st st',
  forEach (postProcess fuel) ids st = Ok st' ->
  forall j, j ∈ ids -> is_Some (heap st !! j) -> resolved st' j.
Proof.
  induction ids as [|x l IH]; intros st st'; simpl.
  { intros _ j H. by apply elem_of_nil in H. }
  destruct (postProcess fuel x st) as [s1| |] eqn:E1; simpl; [|done..].
  intros E j [->|Hj]%elem_of_cons Hsome.
  - destruct Hsome as [K HK].
    eapply resolved_shape; [|by eapply postProcess_flags].
    revert E. apply forEach_shape. intros y s s' Hy.
    by apply postProcess_frames in Hy as [? _].
  - eapply IH; [done..|]. eapply shape_is_Some; [|done].
    by apply postProcess_frames in E1 as [? _].
Qed.

(** X25. A load that returns has resolved every class: the classes of the
    document and the classes of [ADDITIONAL_CLASSES] all have their flag
    set. *)
Theorem load_resolves_every_class (fuel : nat)
  (classes : list (string * ClassData)) (classitems : list ItemData)
  (st : State) (j : nat) (K : Klass) :
  load fuel classes classitems = Ok st ->
  heap st !! j = Some K -> k_postProcessed K = true.
Proof.
  intros Hload HK. pose proof (load_stages fuel classes classitems) as H.
  destruct (forEach attachItem classitems _) as [st1| |];
    [|by rewrite H in Hload|done].
  destruct H as (st2 & ids & Heq & (_ & Hids & _) & _). rewrite Heq in Hload.
  simpl in Hids.
  assert (shape st2 st) as Hs.
  { revert Hload. apply forEach_shape. intros y s s' Hy.
    by apply postProcess_frames in Hy as [? _]. }
  assert (j < length (heap st2)) as Hj.
  { destruct Hs as (_ & <- & _). by eapply lookup_lt_Some. }
  destruct (forEach_postProcess_resolves _ _ _ _ Hload j (Hids j Hj))
    as (K' & HK' & Hflag); [by apply lookup_lt_is_Some|].
  congruence.
Qed.

Lemma load_resolves_every_class_witness :
  exists K, heap Sample.parent_child !! 1 = Some K
            /\ k_postProcessed K = true.
Proof.
  eexists. split; [reflexivity|].
  apply (load_resolves_every_class 8
           [ Doc.klass "Ember.P" None None;
             Doc.klass "Ember.C" (Some "Ember.P") None ]
           [ Doc.member "Ember.P" "foo" "method" None ]
           Sample.parent_child 1); reflexivity.
Defined.


(** X26. In a load that returns every member is in its place: it is
    stored under its own key, [static:] before the name of a static
    member, it belongs to the class that holds it, also when it came from
    a parent or a mixin, and its name and its static mark are those of its
    record. *)
Theorem load_well_keyed (fuel : nat) (classes : list (string * ClassData))
  (classitems : list ItemData) (st : State) :
  load fuel classes classitems = Ok st -> well_keyed st.
Proof.
  intros Hload. pose proof (load_stages fuel classes classitems) as H.
  destruct (forEach attachItem classitems _) as [st1| |];
    [|by rewrite H in Hload|done].
  destruct H as (st2 & ids & Heq & (Hw & _) & _). rewrite Heq in Hload.
  revert Hload. apply forEach_inv; [|exact Hw].
  intros x s s' _. apply postProcess_well_keyed.
Qed.

Lemma load_well_keyed_witness : well_keyed Sample.parent_child.
Proof.
  apply (load_well_keyed 8
           [ Doc.klass "Ember.P" None None;
             Doc.klass "Ember.C" (Some "Ember.P") None ]
           [ Doc.member "Ember.P" "foo" "method" None ]).
  reflexivity.
Defined.


(** X27. After a load that returns, the four names of
    [ADDITIONAL_CLASSES] are names of classes: [Klass.find] finds a class
    for each of them, one that the load has resolved. *)
Theorem load_adds_missing_classes (fuel : nat)
  (classes : list (string * ClassData)) (classitems : list ItemData)
  (st : State) (name : string) :
  load fuel classes classitems = Ok st ->
  name ∈ ADDITIONAL_CLASSES ->
  exists id K,
    Klass_find st name false = Ok (Some (id, K))
    /\ k_postProcessed K = true.
Proof.
  intros Hload Hname. pose proof (load_stages fuel classes classitems) as H.
  destruct (forEach attachItem classitems _) as [st1| |];
    [|by rewrite H in Hload|done].
  destruct H as (st2 & ids & Heq & (_ & Hids & _) & _ & Hfound).
  rewrite Heq in Hload. simpl in Hids.
  destruct (Hfound name Hname) as (id & K2 & Hfind).
  assert (shape st2 st) as Hs.
  { revert Hload. apply forEach_shape. intros y s s' Hy.
    by apply postProcess_frames in Hy as [? _]. }
  pose proof (Klass_find_shape st2 st name false Hs) as Hf.
  rewrite Hfind in Hf.
  destruct (Klass_find st name false) as [[[id' K]|]| |] eqn:Hfind';
    try done.
  destruct Hf as [<- _]. exists id, K. split; [done|].
  apply Klass_find_heap in Hfind, Hfind'.
  destruct (forEach_postProcess_resolves _ _ _ _ Hload id)
    as (K' & HK' & Hflag); [|by eexists|congruence].
  apply Hids. by eapply lookup_lt_Some.
Qed.

Lemma load_adds_missing_classes_witness :
  exists id K,
    Klass_find Sample.parent_child "Handlebars.SafeString" false
    = Ok (Some (id, K))
    /\ k_postProcessed K = true.
Proof.
  apply (load_adds_missing_classes 8
           [ Doc.klass "Ember.P" None None;
             Doc.klass "Ember.C" (Some "Ember.P") None ]
           [ Doc.member "Ember.P" "foo" "method" None ]);
    [reflexivity|].
  unfold ADDITIONAL_CLASSES. right. right. right. left.
Defined.

(** ** Text for the output *)

(** X28. [prefixLines] puts the prefix before every line and keeps the
    lines: for a prefix without a line feed, the lines of the result are
    the lines of the text, each after the prefix. With the empty prefix
    the text is unchanged. *)
Theorem prefixLines_lines (str prefix : string) :
  (Str.has_char newline prefix = false ->
   Str.split newline (prefixLines str prefix)
   = (fun l => prefix +:+ l) <$> Str.split newline str)
  /\ prefixLines str "" = str.
Proof.
  unfold prefixLines. split.
  - intros Hp. apply split_join.
    + pose proof (split_nonempty newline str).
      by destruct (Str.split newline str).
    + apply Forall_fmap, Forall_forall. intros l Hl. simpl.
      rewrite has_char_app, Hp. simpl. by apply (split_no_sep _ str).
  - change ((fun l : string => "" +:+ l) <$> Str.split newline str)
      with (id <$> Str.split newline str).
    rewrite list_fmap_id. apply join_split.
Qed.

Lemma prefixLines_lines_witness :
  Str.split newline
    (prefixLines (String "a" (String newline (String "b" ""))) "  ")
  = [ "  a"; "  b" ].
Proof.
  apply (proj1 (prefixLines_lines
                  (String "a" (String newline (String "b" ""))) "  ")).
  reflexivity.
Defined.

Lemma split_cons_other c a s :
  Str.eqb_ascii a c = false ->
  exists h t, Str.split c s = h :: t
              /\ Str.split c (String a s) = String a h :: t.
Proof.
  intros E. simpl. rewrite E. pose proof (split_nonempty c s).
  destruct (Str.split c s) as [|h t]; [done|]. by exists h, t.
Qed.

Lemma run_has_newline_head a s :
  run_has_newline (String a s) = false -> Re.is_space a = true ->
  Str.eqb_ascii a newline = false /\ run_has_newline s = false.
Proof.
  cbn [run_has_newline]. intros H Hsp. rewrite Hsp in H. cbn [andb] in H.
  by apply orb_false_iff in H.
Qed.

Lemma not_space_not_newline a :
  Re.is_space a = false -> Str.eqb_ascii a newline = false.
Proof.
  intros H. destruct (Str.eqb_ascii a newline) eqn:E; [|done].
  apply Ascii.eqb_eq in E as ->. done.
Qed.

Lemma replace_breaks_starred s : forall mode,
  (mode = Keeping -> run_has_newline s = false) ->
  Forall starred (tail (Str.split newline (replace_breaks mode s))).
Proof.
  induction s as [|a s IH]; intros mode Hmode; [constructor|].
  cbn [replace_breaks]. destruct (Re.is_space a) eqn:Hsp.
  - destruct mode.
    + destruct (run_has_newline (String a s)) eqn:Hrun.
      * rewrite !append_cons, append_empty.
        set (x := replace_breaks Dropping s) in *.
        assert (Str.split newline
                  (String newline (String " " (String "*" (String " " x))))
                = "" :: Str.split newline
                          (String " " (String "*" (String " " x)))) as ->.
        { by cbn [Str.split]. }
        cbn [tail]. specialize (IH Dropping). fold x in IH.
        destruct (split_cons_other newline " " (String "*" (String " " x)))
          as (h & t & Hs & ->); [done|].
        destruct (split_cons_other newline "*" (String " " x))
          as (h1 & t1 & Hs1 & Hs1'); [done|].
        destruct (split_cons_other newline " " x)
          as (h2 & t2 & Hs2 & Hs2'); [done|].
        rewrite Hs1' in Hs. injection Hs as <- <-.
        rewrite Hs2' in Hs1. injection Hs1 as <- <-.
        rewrite Hs2 in IH. constructor; [by exists h2|]. by apply IH.
      * destruct (run_has_newline_head _ _ Hrun Hsp) as [Ha Hs].
        destruct (split_cons_other newline a (replace_breaks Keeping s) Ha)
          as (h & t & Hsplit & ->).
        specialize (IH Keeping (fun _ => Hs)). by rewrite Hsplit in IH.
    + by apply IH.
    + destruct (run_has_newline_head _ _ (Hmode eq_refl) Hsp) as [Ha Hs].
      destruct (split_cons_other newline a (replace_breaks Keeping s) Ha)
        as (h & t & Hsplit & ->).
      specialize (IH Keeping (fun _ => Hs)). by rewrite Hsplit in IH.
  - destruct (split_cons_other newline a (replace_breaks Outside s)
                (not_space_not_newline _ Hsp)) as (h & t & Hsplit & ->).
    specialize (IH Outside). rewrite Hsplit in IH. by apply IH.
Qed.

Lemma run_has_newline_none s :
  Str.has_char newline s = false -> run_has_newline s = false.
Proof.
  induction s as [|a s IH]; simpl; [done|].
  intros [-> Hs]%orb_false_iff. rewrite (IH Hs). simpl. apply andb_false_r.
Qed.

Lemma replace_breaks_none s : forall mode,
  mode <> Dropping -> Str.has_char newline s = false ->
  replace_breaks mode s = s.
Proof.
  induction s as [|a s IH]; intros mode Hmode Hs; [done|].
  cbn [replace_breaks].
  rewrite (run_has_newline_none _ Hs).
  simpl in Hs. apply orb_false_iff in Hs as [_ Hs].
  destruct (Re.is_space a); [destruct mode|]; try done; by rewrite IH.
Qed.

Lemma before_sub_none p s :
  Str.has_sub p s = false -> before_sub p s = s.
Proof.
  induction s as [|a s IH]; simpl.
  - by destruct (Str.strip_prefix p "").
  - destruct (Str.strip_prefix p (String a s)); [done|]. intros H.
    by rewrite IH.
Qed.

Lemma has_sub_has_char c p s :
  Str.has_char c s = false -> Str.has_sub (String c p) s = false.
Proof.
  induction s as [|a s IH]; [done|]. intros H. pose proof H as H'.
  simpl in H. apply orb_false_iff in H as [Ha Hs].
  cbn [Str.has_sub Str.strip_prefix].
  assert (Str.eqb_ascii c a = false) as ->.
  { unfold Str.eqb_ascii in *. by rewrite Ascii.eqb_sym. }
  by apply IH.
Qed.

(** X29. [abbreviateDescription] gives the lines of a comment: every line
    of the result after the first begins with a space, a star and a
    space. A description of one line is returned as it is. *)
Theorem abbreviateDescription_starred (str : string) :
  Forall starred (tail (Str.split newline (abbreviateDescription str)))
  /\ (Str.has_char newline str = false -> abbreviateDescription str = str).
Proof.
  unfold abbreviateDescription. split.
  - by apply replace_breaks_starred.
  - intros H. rewrite before_sub_none by by apply has_sub_has_char.
    by apply replace_breaks_none.
Qed.

Lemma abbreviateDescription_starred_witness :
  abbreviateDescription "A view that is completely isolated."
  = "A view that is completely isolated.".
Proof.
  apply (proj2 (abbreviateDescription_starred
                  "A view that is completely isolated.")).
  reflexivity.
Defined.

(** ** The link to the parent *)

(** X30. A class whose [extends] target is a registered class is linked
    to it: when the call returns, the [extends] field of the class is that
    class, and that class is resolved. *)
Theorem postProcess_links_parent (fuel id : nat) (st st' : State) (K : Klass)
  (parent : string) (pid : nat) (P : Klass) :
  heap st !! id = Some K -> k_postProcessed K = false ->
  d_extends (k_data K) = Some parent -> Str.truthy parent = true ->
  Klass_find st parent false = Ok (Some (pid, P)) ->
  postProcess fuel id st = Ok st' ->
  k_extends <$> heap st' !! id = Some (Some pid) /\ resolved st' pid.
Proof.
  intros HK Hflag Hext Hp Hfind H.
  destruct (postProcess_blocks _ _ _ _ _ HK Hflag H)
    as (fuel' & st1 & st2 & -> & E1 & E2 & E3).
  pose proof (Klass_find_shape st (entered id K st) parent false
                (entered_shape id K st)) as Hf.
  rewrite Hfind in Hf.
  destruct (Klass_find (entered id K st) parent false)
    as [[[pid' P']|]| |] eqn:Hfind'; try done.
  destruct Hf as [<- _].
  pose proof (Klass_find_heap _ _ _ _ _ Hfind') as HP'.
  unfold extendsBlock in E1. rewrite Hext, Hp, Hfind' in E1. simpl in E1.
  set (sa := update id (set_extends pid) (entered id K st)) in *.
  assert (heap sa !! id
          = Some (set_extends pid
                    (set_isNamespace
                       (present (Namespace_for (k_fullName K) false
                                   (root st)).2)
                       (set_postProcessed K)))) as Hsa.
  { apply heap_update_eq. by apply entered_lookup. }
  assert (resolved sa id) as Hra by (eexists; by rewrite Hsa).
  destruct (postProcess fuel' pid sa) as [sb| |] eqn:Eb; simpl in E1;
    [|done..].
  destruct (field_kept_rec k_extends _ id _ _ _ Eb Hra) as [Hrb Hfb].
  assert (resolved sb pid) as Hpb.
  { assert (is_Some (heap sa !! pid)) as [Pa HPa].
    { eapply shape_is_Some; [|by eexists].
      apply shape_update, field_ok_set_extends. }
    by eapply postProcess_flags. }
  assert (field_kept k_extends id sb st1 /\ shape sb st1) as [Hk1 Hs1].
  { destruct (Map_get "static:create" (items_of sb pid)) as [pc|];
      [|injection E1 as <-; split; [apply field_kept_refl|apply shape_refl]].
    destruct (heap sb !! id) as [K'|];
      [|injection E1 as <-; split; [apply field_kept_refl|apply shape_refl]].
    destruct (new_ClassItem _ _ _ _) as [item| |]; simpl in E1; [|done..].
    injection E1 as <-. unfold items_set. split.
    - by apply field_kept_update; [apply field_ok_set_items|].
    - apply shape_update, field_ok_set_items. }
  destruct (Hk1 Hrb) as [Hr1 Hf1].
  destruct (tail_extends_kept _ _ _ _ _ _ E2 E3 Hr1) as [_ Hf'].
  split.
  - by rewrite Hf', Hf1, Hfb, Hsa.
  - eapply resolved_shape; [|done].
    apply (shape_trans _ st1); [done|]. apply (shape_trans _ st2).
    + revert E2. apply (usesBlock_pass id shape); [apply shape_refl|].
      pass_steps (shape_assign id).
    + revert E3. apply (implementsBlock_pass _ id shape).
      * apply shape_refl.
      * apply shape_trans.
      * intros. apply shape_warn.
      * intros x s s' Hx. by apply postProcess_frames in Hx as [? _].
      * pass_steps (shape_assign id).
      * pass_steps (shape_assign id).
Qed.

Lemma postProcess_links_parent_witness :
  k_extends <$> heap Doc.factory_resolved !! 1 = Some (Some 0)
  /\ resolved Doc.factory_resolved 0.
Proof.
  apply (postProcess_links_parent 3 1 Doc.factory_loaded Doc.factory_resolved
           (new_Klass "C" (Doc.klass "Ember.C" (Some "Ember.P") None).2)
           "Ember.P" 0
           (set_items [ ("static:create",
                         {| ci_data := Doc.create_item; ci_name := "create";
                            ci_klass := 0; ci_itemType := "method";
                            ci_type := "any"; ci_static := true;
                            ci_private := false; ci_params := None;
                            ci_returnType := Some "P" |}) ]
              (new_Klass "P" (Doc.klass "Ember.P" None None).2)));
    reflexivity.
Defined.
